(** * grav-lsm: the database seeder ([internal/database/seeder.go])

    A shallow embedding of the Seeder: loading [.sql] seed files from a
    directory, ordering them by name, and executing each one in a
    transaction of its own.

    Go strings are sequences of bytes: [gostring] is [list ascii].  The
    file system, the database driver and the standard output are outside
    the program; they are a [World] that every method threads through. *)

From Stdlib Require Import List Bool Arith NArith ZArith Lia Ascii.
From Stdlib Require String.
Import String.StringSyntax.
Delimit Scope string_scope with string.
From Stdlib Require Import Permutation Sorted.
Import ListNotations.

Set Implicit Arguments.

(* ================================================================== *)
(** ** Go strings *)

Definition gostring := list ascii.

(** A string literal of the source. *)
Definition gs (s : String.string) : gostring := String.list_ascii_of_string s.
Arguments gs s%_string.

Definition byte_eqb (a b : ascii) : bool := Ascii.eqb a b.

Fixpoint str_eqb (a b : gostring) : bool :=
  match a, b with
  | [], [] => true
  | x :: a', y :: b' => byte_eqb x y && str_eqb a' b'
  | _, _ => false
  end.

(** Go's [<] on strings: byte by byte, a proper prefix is smaller. *)
Fixpoint str_ltb (a b : gostring) : bool :=
  match a, b with
  | _, [] => false
  | [], _ :: _ => true
  | x :: a', y :: b' =>
      match N.compare (N_of_ascii x) (N_of_ascii y) with
      | Lt => true
      | Gt => false
      | Eq => str_ltb a' b'
      end
  end.

(** [strings.Contains]: [sub] occurs somewhere in [s]. *)
Fixpoint has_prefix (p s : gostring) : bool :=
  match p, s with
  | [], _ => true
  | x :: p', y :: s' => byte_eqb x y && has_prefix p' s'
  | _ :: _, [] => false
  end.

Fixpoint str_contains (s sub : gostring) : bool :=
  has_prefix sub s ||
  match s with
  | [] => false
  | _ :: s' => str_contains s' sub
  end.

(* ================================================================== *)
(** ** [path/filepath] on Unix *)

Definition IsPathSeparator (c : ascii) : bool := byte_eqb c "/".

(** [filepath.Ext]: the suffix beginning at the final dot in the final
    element of [path]; the loop runs [i] from [len(path)-1] down and stops
    at a separator.  [k] is [i+1]. *)
Fixpoint Ext_loop (path : gostring) (k : nat) : gostring :=
  match k with
  | 0 => []
  | S i =>
      match nth_error path i with
      | None => []
      | Some c =>
          if IsPathSeparator c then []
          else if byte_eqb c "." then skipn i path
          else Ext_loop path i
      end
  end.

Definition Ext (path : gostring) : gostring := Ext_loop path (length path).

(** [for len(path) > 0 && os.IsPathSeparator(path[len(path)-1])
       { path = path[0 : len(path)-1] }]; [n] is [len(path)]. *)
Fixpoint strip_trailing_slashes (path : gostring) (n : nat) : gostring :=
  match n with
  | 0 => []
  | S m =>
      match nth_error path m with
      | Some c =>
          if IsPathSeparator c then strip_trailing_slashes path m
          else firstn n path
      | None => firstn n path
      end
  end.

(** [i := len(path)-1; for i >= 0 && !os.IsPathSeparator(path[i]) { i-- }];
    the result is [i+1], the start of the last element. *)
Fixpoint last_element_start (path : gostring) (k : nat) : nat :=
  match k with
  | 0 => 0
  | S i =>
      match nth_error path i with
      | Some c => if IsPathSeparator c then k else last_element_start path i
      | None => k
      end
  end.

(** [filepath.Base]: the last element of [path]. *)
Definition Base (path : gostring) : gostring :=
  match path with
  | [] => gs "."
  | _ =>
      let path1 := strip_trailing_slashes path (length path) in
      let path2 := skipn (last_element_start path1 (length path1)) path1 in
      match path2 with
      | [] => gs "/"
      | _ => path2
      end
  end.

(** The end of a path element: the end of the path, or a separator. *)
Definition at_element_end (p : gostring) : bool :=
  match p with
  | [] => true
  | c :: _ => IsPathSeparator c
  end.

(** [out.w--; for out.w > dotdot && !os.IsPathSeparator(out.index(out.w))
    { out.w-- }], started at [w = out.w - 1]. *)
Fixpoint backtrack (out : gostring) (dotdot w : nat) : nat :=
  match w with
  | 0 => 0
  | S w' =>
      if (dotdot <? w) && negb (IsPathSeparator (nth w out "/"%char))
      then backtrack out dotdot w'
      else w
  end.

(** The bytes of one path element, and what follows it:
    [for ; r < n && !os.IsPathSeparator(path[r]); r++ { out.append(path[r]) }]. *)
Fixpoint copy_element (p : gostring) : gostring * gostring :=
  match p with
  | [] => ([], [])
  | c :: p' =>
      if IsPathSeparator c then ([], p)
      else let '(e, rest) := copy_element p' in (c :: e, rest)
  end.

(** The loop of [filepath.Clean]: [p] is [path[r:]], [out] the bytes
    written so far (so [out.w] is [length out]).  Every turn reads at least
    one byte of [p]; [fuel] bounds the number of turns. *)
Fixpoint Clean_loop (fuel : nat) (rooted : bool) (p out : gostring)
    (dotdot : nat) : gostring :=
  match fuel with
  | 0 => out
  | S fuel' =>
      match p with
      | [] => out
      | c :: p1 =>
          if IsPathSeparator c then
            (* empty path element *)
            Clean_loop fuel' rooted p1 out dotdot
          else if byte_eqb c "." && at_element_end p1 then
            (* . element *)
            Clean_loop fuel' rooted p1 out dotdot
          else if byte_eqb c "." && has_prefix (gs ".") p1
                  && at_element_end (skipn 1 p1) then
            (* .. element: remove to last separator *)
            let p2 := skipn 1 p1 in
            if dotdot <? length out then
              let w := backtrack out dotdot (length out - 1) in
              Clean_loop fuel' rooted p2 (firstn w out) dotdot
            else if negb rooted then
              let out1 := if 0 <? length out then out ++ gs "/" else out in
              let out2 := out1 ++ gs ".." in
              Clean_loop fuel' rooted p2 out2 (length out2)
            else Clean_loop fuel' rooted p2 out dotdot
          else
            (* real path element: add slash if needed, copy element *)
            let out1 :=
              if (rooted && negb (length out =? 1))
                 || (negb rooted && negb (length out =? 0))
              then out ++ gs "/" else out in
            let '(e, rest) := copy_element p in
            Clean_loop fuel' rooted rest (out1 ++ e) dotdot
      end
  end.

(** [filepath.Clean]: the shortest path name equivalent to [path]. *)
Definition Clean (path : gostring) : gostring :=
  match path with
  | [] => gs "."
  | c :: p1 =>
      let rooted := IsPathSeparator c in
      let out :=
        if rooted then Clean_loop (length path) rooted p1 (gs "/") 1
        else Clean_loop (length path) rooted path [] 0 in
      match out with
      | [] => gs "."
      | _ => out
      end
  end.

(** [strings.Join(elems, sep)]. *)
Fixpoint strings_Join (elems : list gostring) (sep : gostring) : gostring :=
  match elems with
  | [] => []
  | [e] => e
  | e :: rest => e ++ sep ++ strings_Join rest sep
  end.

(** [filepath.Join]: empty leading elements are ignored, the rest is
    joined with the separator and cleaned. *)
Fixpoint Join (elem : list gostring) : gostring :=
  match elem with
  | [] => []
  | e :: rest =>
      match e with
      | [] => Join rest
      | _ => Clean (strings_Join elem (gs "/"))
      end
  end.

(* ================================================================== *)
(** ** [unicode/utf8], [unicode] and [strings.TrimSpace] *)

(** A rune is a Unicode code point. *)
Definition rune := N.

Definition RuneError : rune := 0xFFFD%N.
Definition RuneSelf : N := 0x80%N.
Definition UTFMax : nat := 4.

(** The value of a byte. *)
Definition b2n (c : ascii) : N := N_of_ascii c.

(** [s[i]], for [i] in range. *)
Definition byte_at (s : gostring) (i : nat) : N := b2n (nth i s zero).

(** [s[lo:hi]]. *)
Definition slice (s : gostring) (lo hi : nat) : gostring :=
  firstn (hi - lo) (skipn lo s).

(** The table [first] of [unicode/utf8]: information about the first byte
    of an encoding.  [0xF0] ([as]) is ASCII, [0xF1] ([xx]) is invalid;
    otherwise the low three bits are the size and the high four bits index
    [acceptRanges]. *)
Definition first (b : N) : N :=
  (if b <? 0x80 then 0xF0
   else if b <? 0xC2 then 0xF1
   else if b <? 0xE0 then 0x02
   else if b =? 0xE0 then 0x13
   else if b <? 0xED then 0x03
   else if b =? 0xED then 0x23
   else if b <? 0xF0 then 0x03
   else if b =? 0xF0 then 0x34
   else if b <? 0xF4 then 0x04
   else if b =? 0xF4 then 0x44
   else 0xF1)%N.

(** [acceptRanges]: the range of valid values for the second byte. *)
Definition acceptRanges (i : N) : N * N :=
  match i with
  | 0 => (0x80, 0xBF)
  | 1 => (0xA0, 0xBF)
  | 2 => (0x80, 0x9F)
  | 3 => (0x90, 0xBF)
  | 4 => (0x80, 0x8F)
  | _ => (0, 0)
  end%N.

(** [utf8.DecodeRuneInString]: the first rune of [s] and its width in
    bytes; [(RuneError, 0)] for the empty string and [(RuneError, 1)] for
    an encoding that is not valid. *)
Definition DecodeRuneInString (s : gostring) : rune * nat :=
  match s with
  | [] => (RuneError, 0)
  | _ =>
      let s0 := byte_at s 0 in
      let x := first s0 in
      if (0xF0 <=? x)%N then
        ((if N.odd x then RuneError else s0), 1)
      else
        let sz := N.to_nat (N.land x 7) in
        let accept := acceptRanges (N.shiftr x 4) in
        if length s <? sz then (RuneError, 1)
        else
          let s1 := byte_at s 1 in
          if ((s1 <? fst accept) || (snd accept <? s1))%N then (RuneError, 1)
          else if sz <=? 2 then
            (N.lor (N.shiftl (N.land s0 0x1F) 6) (N.land s1 0x3F), 2)
          else
            let s2 := byte_at s 2 in
            if ((s2 <? 0x80) || (0xBF <? s2))%N then (RuneError, 1)
            else if sz <=? 3 then
              (N.lor (N.lor (N.shiftl (N.land s0 0x0F) 12)
                            (N.shiftl (N.land s1 0x3F) 6))
                     (N.land s2 0x3F), 3)
            else
              let s3 := byte_at s 3 in
              if ((s3 <? 0x80) || (0xBF <? s3))%N then (RuneError, 1)
              else
                (N.lor (N.lor (N.lor (N.shiftl (N.land s0 0x07) 18)
                                     (N.shiftl (N.land s1 0x3F) 12))
                              (N.shiftl (N.land s2 0x3F) 6))
                       (N.land s3 0x3F), 4)
  end.

(** [utf8.RuneStart]: the byte is not a continuation byte. *)
Definition RuneStart (b : N) : bool := negb (N.land b 0xC0 =? 0x80)%N.

(** [for start--; start >= lim; start-- { if RuneStart(s[start]) { break } }]
    of [DecodeLastRuneInString]; [k] is [start+1] before the decrement and
    the result is [start+1] after the loop. *)
Fixpoint rune_start_scan (s : gostring) (lim k : nat) : nat :=
  match k with
  | 0 => 0
  | S start =>
      if lim <=? start then
        if RuneStart (byte_at s start) then k
        else rune_start_scan s lim start
      else k
  end.

(** [utf8.DecodeLastRuneInString]: the last rune of [s] and its width. *)
Definition DecodeLastRuneInString (s : gostring) : rune * nat :=
  let end_ := length s in
  match end_ with
  | 0 => (RuneError, 0)
  | S start =>
      let r := byte_at s start in
      if (r <? RuneSelf)%N then (r, 1)
      else
        let lim := end_ - UTFMax in
        let start := pred (rune_start_scan s lim start) in
        let '(r, size) := DecodeRuneInString (slice s start end_) in
        if negb (start + size =? end_) then (RuneError, 1)
        else (r, size)
  end.

(** [unicode.White_Space], the 16-bit ranges of the table. *)
Definition White_Space : list (N * N) :=
  [ (0x0009, 0x000d); (0x0020, 0x0020); (0x0085, 0x0085); (0x00a0, 0x00a0);
    (0x1680, 0x1680); (0x2000, 0x200a); (0x2028, 0x2029); (0x202f, 0x202f);
    (0x205f, 0x205f); (0x3000, 0x3000) ]%N.

(** [unicode.IsSpace]. *)
Definition IsSpace (r : rune) : bool :=
  if (r <=? 0xFF)%N then
    match r with
    | 0x09 | 0x0A | 0x0B | 0x0C | 0x0D | 0x20 | 0x85 | 0xA0 => true
    | _ => false
    end%N
  else existsb (fun '(lo, hi) => (lo <=? r) && (r <=? hi))%N White_Space.

(** The table [asciiSpace] of [strings]. *)
Definition asciiSpace (c : N) : bool :=
  match c with
  | 0x09 | 0x0A | 0x0B | 0x0C | 0x0D | 0x20 => true
  | _ => false
  end%N.

(** [strings.indexFunc]: [for i, r := range s { if f(r) == truth
    { return i } }; return -1].  [None] is [-1]; every turn moves [i] by
    the width of a rune, at least one byte, and [fuel] bounds the turns. *)
Fixpoint indexFunc_loop (fuel : nat) (s : gostring) (f : rune -> bool)
    (truth : bool) (i : nat) : option nat :=
  match fuel with
  | 0 => None
  | S fuel' =>
      if length s <=? i then None
      else
        let '(r, size) := DecodeRuneInString (skipn i s) in
        if Bool.eqb (f r) truth then Some i
        else indexFunc_loop fuel' s f truth (i + size)
  end.

Definition indexFunc (s : gostring) (f : rune -> bool) (truth : bool)
    : option nat :=
  indexFunc_loop (length s) s f truth 0.

(** [strings.lastIndexFunc]: [for i := len(s); i > 0; { r, size :=
    utf8.DecodeLastRuneInString(s[0:i]); i -= size; if f(r) == truth
    { return i } }; return -1]. *)
Fixpoint lastIndexFunc_loop (fuel : nat) (s : gostring) (f : rune -> bool)
    (truth : bool) (i : nat) : option nat :=
  match fuel with
  | 0 => None
  | S fuel' =>
      if i =? 0 then None
      else
        let '(r, size) := DecodeLastRuneInString (slice s 0 i) in
        let i := i - size in
        if Bool.eqb (f r) truth then Some i
        else lastIndexFunc_loop fuel' s f truth i
  end.

Definition lastIndexFunc (s : gostring) (f : rune -> bool) (truth : bool)
    : option nat :=
  lastIndexFunc_loop (length s) s f truth (length s).

(** [strings.TrimLeftFunc]. *)
Definition TrimLeftFunc (s : gostring) (f : rune -> bool) : gostring :=
  match indexFunc s f false with
  | None => []
  | Some i => skipn i s
  end.

(** [strings.TrimRightFunc]. *)
Definition TrimRightFunc (s : gostring) (f : rune -> bool) : gostring :=
  match lastIndexFunc s f false with
  | Some i =>
      if (RuneSelf <=? byte_at s i)%N then
        let '(_, wid) := DecodeRuneInString (skipn i s) in
        slice s 0 (i + wid)
      else slice s 0 (i + 1)
  | None => slice s 0 0
  end.

(** [strings.TrimFunc]. *)
Definition TrimFunc (s : gostring) (f : rune -> bool) : gostring :=
  TrimRightFunc (TrimLeftFunc s f) f.

(** The second loop of [strings.TrimSpace], on [p = s[start:]]: [stop]
    runs down from [len(p)] over ASCII white space. *)
Fixpoint TrimSpace_stop (p : gostring) (stop : nat) : gostring :=
  match stop with
  | 0 => slice p 0 0
  | S m =>
      let c := byte_at p m in
      if (RuneSelf <=? c)%N then TrimRightFunc (slice p 0 stop) IsSpace
      else if asciiSpace c then TrimSpace_stop p m
      else slice p 0 stop
  end.

(** [strings.TrimSpace]: the first loop runs [start] up over ASCII white
    space ([s] below is [s[start:]] of the source) and hands over to the
    Unicode-aware functions at the first byte that is not ASCII. *)
Fixpoint TrimSpace (s : gostring) : gostring :=
  match s with
  | [] => TrimSpace_stop s (length s)
  | c :: s' =>
      if (RuneSelf <=? b2n c)%N then TrimFunc s IsSpace
      else if asciiSpace (b2n c) then TrimSpace s'
      else TrimSpace_stop s (length s)
  end.

(* ================================================================== *)
(** ** Errors *)

(** A Go [error] value.  [ErrExt] is an error made outside this package
    (by the operating system or by the database driver); [Errorf p c] is
    [fmt.Errorf(p + "%w", c)]: every format string of the source ends in
    [%w], so the text is [p] followed by the text of the wrapped error. *)
Inductive error : Type :=
| ErrExt (msg : gostring)
| Errorf (prefix : gostring) (cause : error).

(** The [Error()] method: the text of the error. *)
Fixpoint Error (e : error) : gostring :=
  match e with
  | ErrExt m => m
  | Errorf p c => p ++ Error c
  end.

(** [errors.Unwrap], iterated: the error and everything it wraps. *)
Fixpoint chain (e : error) : list error :=
  e :: match e with
       | ErrExt _ => []
       | Errorf _ c => chain c
       end.

Fixpoint error_eqb (a b : error) : bool :=
  match a, b with
  | ErrExt m, ErrExt n => str_eqb m n
  | Errorf p c, Errorf q d => str_eqb p q && error_eqb c d
  | _, _ => false
  end.

(** An error [e] surfaces [x] when [x] is in its chain ([errors.Is]) or
    the text of [x] can be read in the text of [e]. *)
Definition surfaces (e x : error) : bool :=
  existsb (error_eqb x) (chain e) || str_contains (Error e) (Error x).

(** An error names a seed when the seed's name can be read in its text. *)
Definition names (e : error) (name : gostring) : bool :=
  str_contains (Error e) name.

(* ================================================================== *)
(** ** The data model *)

(** [type Seed struct { Name string; SQL string }] *)
Record Seed : Type := mkSeed { Name : gostring; SQL : gostring }.

(** [type Seeder struct { db *sql.DB; seeds []*Seed }].  The handle [db]
    points into the [World] (field [dbst]); the slice is the Seeder's own. *)
Record Seeder : Type := mkSeeder { seeds : list Seed }.

(** A directory entry, as [ioutil.ReadDir] returns it. *)
Record FileInfo : Type := mkFileInfo { fi_Name : gostring; fi_IsDir : bool }.

(** The file system, which the Seeder only reads. *)
Record FS : Type := mkFS {
  fs_ReadDir : gostring -> error + list FileInfo;
  fs_ReadFile : gostring -> error + gostring
}.

(** What the program does to the outside, in order. *)
Inductive event : Type :=
| ReadDirCall (dir : gostring)
| ReadFileCall (path : gostring)
| BeginCall
| ExecCall (sql : gostring)
| RollbackCall
| CommitCall
| Printed (text : gostring).

(** The database driver behind [*sql.DB] and [*sql.Tx]: each call moves
    the state of the database and returns an error or [nil]. *)
Record Driver (DB : Type) : Type := mkDriver {
  db_Begin : DB -> DB * option error;
  tx_Exec : gostring -> DB -> DB * option error;
  tx_Rollback : DB -> DB * option error;
  tx_Commit : DB -> DB * option error
}.

Record World (DB : Type) : Type := mkWorld {
  fs : FS;
  dbst : DB;
  trace : list event
}.

Arguments mkWorld {DB} _ _ _.
Arguments fs {DB} _.
Arguments dbst {DB} _.
Arguments trace {DB} _.

(* ================================================================== *)
(** ** [sort.Slice] *)

(** What [sort.Slice] asks of [less]: a strict weak ordering. *)
Definition strict_weak_order {A : Type} (less : A -> A -> bool) : Prop :=
  (forall x, less x x = false)
  /\ (forall x y z, less x y = true -> less y z = true -> less x z = true)
  /\ (forall x y z, less x y = false -> less y z = false -> less x z = false).

(** No element is less than one before it. *)
Definition sorted_by {A : Type} (less : A -> A -> bool) (l : list A) : Prop :=
  StronglySorted (fun x y => less y x = false) l.

(** The inner loop of [insertionSortLessFunc]: the new element moves left
    while it is less than its neighbour.  [before] is the sorted part,
    last element first. *)
Fixpoint sink {A : Type} (less : A -> A -> bool) (x : A) (before : list A)
    : list A :=
  match before with
  | [] => [x]
  | y :: before' =>
      if less x y then y :: sink less x before' else x :: before
  end.

(** Insertion sort, which [sort.Slice] runs on a slice of at most twelve
    elements. *)
Definition insertion_sort {A : Type} (less : A -> A -> bool) (l : list A)
    : list A :=
  rev (fold_left (fun before x => sink less x before) l []).

(* ================================================================== *)
(** ** The Seeder *)

(** The order of seeds: [s.seeds[i].Name < s.seeds[j].Name]. *)
Definition seed_less (a b : Seed) : bool := str_ltb (Name a) (Name b).

(** [NewSeeder]. *)
Definition NewSeeder : Seeder := mkSeeder [].

Section SeederMethods.

Variable DB : Type.
Variable drv : Driver DB.
Variable sort_Slice : forall A : Type, (A -> A -> bool) -> list A -> list A.

(** A method of [*Seeder] acts on the Seeder and on the world. *)
Definition St : Type := (Seeder * World DB)%type.

Definition emit (e : event) (w : World DB) : World DB :=
  mkWorld (fs w) (dbst w) (trace w ++ [e]).

(** A call of the driver: the database moves, the call is recorded. *)
Definition call (e : event) (op : DB -> DB * option error) (w : World DB)
    : World DB * option error :=
  let '(d, err) := op (dbst w) in
  (mkWorld (fs w) d (trace w ++ [e]), err).

Definition ioutil_ReadDir (dir : gostring) (w : World DB)
    : World DB * (error + list FileInfo) :=
  (emit (ReadDirCall dir) w, fs_ReadDir (fs w) dir).

Definition ioutil_ReadFile (filename : gostring) (w : World DB)
    : World DB * (error + gostring) :=
  (emit (ReadFileCall filename) w, fs_ReadFile (fs w) filename).

(** [parseSeedFile] reads and parses a seed file. *)
Definition parseSeedFile (filename : gostring) (w : World DB)
    : World DB * (error + Seed) :=
  let '(w1, r) := ioutil_ReadFile filename w in
  match r with
  | inl err => (w1, inl err)
  | inr content => (w1, inr (mkSeed (Base filename) (TrimSpace content)))
  end.

(** The loop of [LoadSeeds] over the directory entries. *)
Fixpoint LoadSeeds_loop (dir : gostring) (files : list FileInfo) (st : St)
    : St * option error :=
  match files with
  | [] => (st, None)
  | file :: rest =>
      if str_eqb (Ext (fi_Name file)) (gs ".sql") then
        let '(s, w) := st in
        let '(w1, r) := parseSeedFile (Join [dir; fi_Name file]) w in
        match r with
        | inl err =>
            ((s, w1),
             Some (Errorf (gs "failed to parse seed file " ++ fi_Name file
                           ++ gs ": ") err))
        | inr seed =>
            LoadSeeds_loop dir rest (mkSeeder (seeds s ++ [seed]), w1)
        end
      else LoadSeeds_loop dir rest st
  end.

(** [LoadSeeds] loads all seed files from the specified directory. *)
Definition LoadSeeds (dir : gostring) (st : St) : St * option error :=
  let '(s, w) := st in
  let '(w1, r) := ioutil_ReadDir dir w in
  match r with
  | inl err =>
      ((s, w1), Some (Errorf (gs "failed to read seeds directory: ") err))
  | inr files =>
      let '(st2, err) := LoadSeeds_loop dir files (s, w1) in
      match err with
      | Some e => (st2, Some e)
      | None =>
          (* Sort seeds by filename to ensure consistent order *)
          let '(s2, w2) := st2 in
          ((mkSeeder (sort_Slice seed_less (seeds s2)), w2), None)
      end
  end.

(** [executeSeed] runs a single seed file. *)
Definition executeSeed (seed : Seed) (st : St) : St * option error :=
  let '(s, w) := st in
  let '(w1, err) := call BeginCall (db_Begin drv) w in
  match err with
  | Some err =>
      ((s, w1), Some (Errorf (gs "error starting transaction: ") err))
  | None =>
      let '(w2, err) := call (ExecCall (SQL seed)) (tx_Exec drv (SQL seed)) w1 in
      match err with
      | Some err =>
          let '(w3, _) := call RollbackCall (tx_Rollback drv) w2 in
          ((s, w3),
           Some (Errorf (gs "error executing seed " ++ Name seed ++ gs ": ")
                   err))
      | None =>
          let '(w3, err) := call CommitCall (tx_Commit drv) w2 in
          match err with
          | Some err =>
              ((s, w3),
               Some (Errorf (gs "error committing seed " ++ Name seed
                             ++ gs ": ") err))
          | None =>
              ((s, emit (Printed (gs "Executed seed: " ++ Name seed
                                  ++ ["010"%char])) w3),
               None)
          end
      end
  end.

(** The loop of [Seed] over [s.seeds]. *)
Fixpoint Seed_loop (l : list Seed) (st : St) : St * option error :=
  match l with
  | [] => (st, None)
  | seed :: rest =>
      let '(st1, err) := executeSeed seed st in
      match err with
      | Some err => (st1, Some err)
      | None => Seed_loop rest st1
      end
  end.

(** The method [Seed] of [*Seeder] (the name [Seed] is the struct's):
    [Seed] executes all loaded seed files. *)
Definition Seeder_Seed (st : St) : St * option error :=
  Seed_loop (seeds (fst st)) st.

End SeederMethods.

Arguments gs : simpl never.
Arguments b2n : simpl never.
Arguments byte_at : simpl never.
Arguments byte_eqb : simpl never.
Arguments IsPathSeparator : simpl never.
Arguments Join : simpl never.
Arguments Clean : simpl never.
Arguments Base : simpl never.
Arguments Ext : simpl never.
Arguments TrimSpace : simpl never.
Arguments executeSeed : simpl never.
Arguments parseSeedFile : simpl never.
Arguments call : simpl never.

(* ================================================================== *)
(** ** A small database and a small file system, to run the Seeder on *)

(** A database that keeps the statements it committed.  It refuses a
    statement starting with [BAD] and a statement it has committed already
    (an insert of a fixed key); the flags make the other calls fail. *)
Record ToyDB : Type := mkToyDB {
  committed : list gostring;
  pending : list gostring;
  begin_fails : bool;
  rollback_fails : bool;
  commit_fails : bool
}.

Definition toy_driver : Driver ToyDB :=
  {| db_Begin d :=
       if begin_fails d then (d, Some (ErrExt (gs "connection refused")))
       else (mkToyDB (committed d) [] (begin_fails d) (rollback_fails d)
               (commit_fails d), None);
     tx_Exec sql d :=
       if has_prefix (gs "BAD") sql then
         (d, Some (ErrExt (gs "syntax error")))
       else if existsb (str_eqb sql) (committed d) then
         (d, Some (ErrExt (gs "duplicate key")))
       else (mkToyDB (committed d) (pending d ++ [sql]) (begin_fails d)
               (rollback_fails d) (commit_fails d), None);
     tx_Rollback d :=
       (mkToyDB (committed d) [] (begin_fails d) (rollback_fails d)
          (commit_fails d),
        if rollback_fails d then Some (ErrExt (gs "bad connection"))
        else None);
     tx_Commit d :=
       if commit_fails d then
         (mkToyDB (committed d) [] (begin_fails d) (rollback_fails d)
            (commit_fails d), Some (ErrExt (gs "disk full")))
       else (mkToyDB (committed d ++ pending d) [] (begin_fails d)
               (rollback_fails d) (commit_fails d), None) |}.

Fixpoint lookup {V : Type} (k : gostring) (m : list (gostring * V))
    : option V :=
  match m with
  | [] => None
  | (k', v) :: m' => if str_eqb k k' then Some v else lookup k m'
  end.

(** A file system given by its directories and its files. *)
Definition toy_fs (dirs : list (gostring * list FileInfo))
    (files : list (gostring * gostring)) : FS :=
  {| fs_ReadDir dir :=
       match lookup dir dirs with
       | Some l => inr l
       | None => inl (ErrExt (gs "no such file or directory"))
       end;
     fs_ReadFile path :=
       match lookup path files with
       | Some c => inr c
       | None => inl (ErrExt (gs "cannot read"))
       end |}.

(** Bytes given by their values. *)
Definition bs (l : list nat) : gostring := map ascii_of_nat l.

Definition file (name : String.string) : FileInfo := mkFileInfo (gs name) false.
Arguments file name%_string.

(** The directory of the spec's scenarios. *)
Definition users_sql : gostring :=
  gs "INSERT INTO users (id,name) VALUES (1,'a');".
Definition posts_sql : gostring :=
  gs "INSERT INTO posts (id,user_id) VALUES (1,1);".

Definition seeds_dir : list FileInfo :=
  [file "notes.txt"; file "002_posts.sql"; file "001_users.sql"].

Definition seeds_fs : FS :=
  toy_fs [(gs "seeds", seeds_dir)]
         [(gs "seeds/001_users.sql", bs [10] ++ users_sql ++ bs [10]);
          (gs "seeds/002_posts.sql", posts_sql ++ bs [13; 10])].

(** The same files, listed in another order. *)
Definition seeds_fs2 : FS :=
  mkFS (fun dir =>
          match fs_ReadDir seeds_fs dir with
          | inr l => inr (rev l)
          | inl e => inl e
          end)
       (fs_ReadFile seeds_fs).

(** A directory with a seed file that cannot be read, [b.sql]. *)
Definition broken_fs : FS :=
  toy_fs [(gs "broken", [file "a.sql"; file "b.sql"; file "c.sql"])]
         [(gs "broken/a.sql", gs "SELECT 1;");
          (gs "broken/c.sql", gs "SELECT 3;")].

Definition fresh_db : ToyDB := mkToyDB [] [] false false false.

(** A database that cannot start a transaction. *)
Definition down_db : ToyDB := mkToyDB [] [] true false false.

(** A database on which a rollback fails. *)
Definition flaky_db : ToyDB := mkToyDB [] [] false true false.

(** A database on which a commit fails. *)
Definition stuck_db : ToyDB := mkToyDB [] [] false false true.

(** A directory without seed files, and a seed file of white space. *)
Definition docs_fs : FS :=
  toy_fs [(gs "docs", [file "notes.txt"; file "schema.SQL"])]
         [(gs "docs/blank.sql", bs [32; 10; 9; 13; 10])].

(** A copy of the SQL of the users seed, as the Seeder holds it. *)
Definition backup_fs : FS :=
  toy_fs [(gs "backup", [file "users.sql"])]
         [(gs "backup/users.sql", users_sql)].

Definition users_seed : Seed := mkSeed (gs "001_users.sql") users_sql.
Definition posts_seed : Seed := mkSeed (gs "002_posts.sql") posts_sql.

(** Scenario 3 of the spec: a seed the database refuses. *)
Definition bad_seed : Seed :=
  mkSeed (gs "002_posts.sql") (gs "BAD INSERT INTO posts (nope) VALUES (1);").

Definition tags_seed : Seed :=
  mkSeed (gs "003_tags.sql") (gs "INSERT INTO tags (id) VALUES (1);").

(** A seed held from an earlier load, with a name that sorts last. *)
Definition held_seed : Seed :=
  mkSeed (gs "zz_last.sql") (gs "SELECT 0;").

Definition toy_world (f : FS) (d : ToyDB) : World ToyDB := mkWorld f d [].

Definition toy_LoadSeeds := LoadSeeds (DB:=ToyDB) (@insertion_sort).
Definition toy_Seed := Seeder_Seed toy_driver.

(* ================================================================== *)
(** ** Notions used to state the properties *)

(** The test of [LoadSeeds] on a directory entry. *)
Definition selected (f : FileInfo) : bool :=
  str_eqb (Ext (fi_Name f)) (gs ".sql").

(** The path [LoadSeeds] reads for an entry. *)
Definition seed_path (dir : gostring) (f : FileInfo) : gostring :=
  Join [dir; fi_Name f].

(** The seed a readable entry gives. *)
Definition seed_of (fsys : FS) (dir : gostring) (f : FileInfo) : list Seed :=
  match fs_ReadFile fsys (seed_path dir f) with
  | inr content => [mkSeed (Base (seed_path dir f)) (TrimSpace content)]
  | inl _ => []
  end.

(** The seeds of the selected entries of a listing, in listing order. *)
Definition seeds_of (fsys : FS) (dir : gostring) (files : list FileInfo)
    : list Seed :=
  flat_map (seed_of fsys dir) (filter selected files).

Definition readable (fsys : FS) (dir : gostring) (f : FileInfo) : Prop :=
  exists content, fs_ReadFile fsys (seed_path dir f) = inr content.

(** The calls of a seed that commits. *)
Definition committed_calls (seed : Seed) : list event :=
  [BeginCall; ExecCall (SQL seed); CommitCall;
   Printed (gs "Executed seed: " ++ Name seed ++ ["010"%char])].

(** The shapes a failure of [executeSeed] can take: the error returned
    and the calls made. *)
Inductive seed_failure (seed : Seed) : error -> list event -> Prop :=
| BeginFailed cause :
    seed_failure seed
      (Errorf (gs "error starting transaction: ") cause)
      [BeginCall]
| ExecFailed cause :
    seed_failure seed
      (Errorf (gs "error executing seed " ++ Name seed ++ gs ": ") cause)
      [BeginCall; ExecCall (SQL seed); RollbackCall]
| CommitFailed cause :
    seed_failure seed
      (Errorf (gs "error committing seed " ++ Name seed ++ gs ": ") cause)
      [BeginCall; ExecCall (SQL seed); CommitCall].

(** The name of a directory entry: not empty, no separator, and neither
    [.] nor [..]. *)
Definition valid_name (n : gostring) : bool :=
  negb (str_eqb n []) && forallb (fun c => negb (IsPathSeparator c)) n
  && negb (str_eqb n (gs ".")) && negb (str_eqb n (gs "..")).

(** [a] comes before [b], strictly. *)
Definition name_lt (a b : Seed) : Prop := str_ltb (Name a) (Name b) = true.

(** [a] does not come after [b]. *)
Definition name_le (a b : Seed) : Prop := str_ltb (Name b) (Name a) = false.

(** The decision of [DecodeRuneInString], as it depends on the length of
    the string and on its first four bytes. *)
Definition decode_bytes (len : nat) (s0 s1 s2 s3 : N) : rune * nat :=
  let x := first s0 in
  if (0xF0 <=? x)%N then
    ((if N.odd x then RuneError else s0), 1)
  else
    let sz := N.to_nat (N.land x 7) in
    let accept := acceptRanges (N.shiftr x 4) in
    if len <? sz then (RuneError, 1)
    else
      if ((s1 <? fst accept) || (snd accept <? s1))%N then (RuneError, 1)
      else if sz <=? 2 then
        (N.lor (N.shiftl (N.land s0 0x1F) 6) (N.land s1 0x3F), 2)
      else
        if ((s2 <? 0x80) || (0xBF <? s2))%N then (RuneError, 1)
        else if sz <=? 3 then
          (N.lor (N.lor (N.shiftl (N.land s0 0x0F) 12)
                        (N.shiftl (N.land s1 0x3F) 6))
                 (N.land s2 0x3F), 3)
        else
          if ((s3 <? 0x80) || (0xBF <? s3))%N then (RuneError, 1)
          else
            (N.lor (N.lor (N.lor (N.shiftl (N.land s0 0x07) 18)
                                 (N.shiftl (N.land s1 0x3F) 12))
                          (N.shiftl (N.land s2 0x3F) 6))
                   (N.land s3 0x3F), 4).

(** A decoding is whole when it is not the one-byte answer to an
    encoding that is not valid: it is an ASCII byte, or it is wider than a
    byte. *)
Definition whole (s0 : N) (n : nat) : Prop := (s0 < 0x80)%N \/ 2 <= n.

(** The UTF-8 encoding of one white-space rune. *)
Definition space_encoding (chunk : gostring) : Prop :=
  chunk <> []
  /\ exists r, DecodeRuneInString chunk = (r, length chunk) /\ IsSpace r = true.

(** A string made of white space only. *)
Inductive white : gostring -> Prop :=
| white_nil : white []
| white_cons (chunk rest : gostring) :
    space_encoding chunk -> white rest -> white (chunk ++ rest).

(** A string that neither begins nor ends with white space. *)
Definition trimmed (s : gostring) : Prop :=
  s = []
  \/ (IsSpace (fst (DecodeRuneInString s)) = false
      /\ IsSpace (fst (DecodeLastRuneInString s)) = false).

(** The progress notice of a seed that committed. *)
Definition notice (seed : Seed) : event :=
  Printed (gs "Executed seed: " ++ Name seed ++ ["010"%char]).

Definition is_notice (e : event) : bool :=
  match e with
  | Printed _ => true
  | _ => false
  end.

(** A call that reads the file system. *)
Definition is_fs_call (e : event) : bool :=
  match e with
  | ReadDirCall _ | ReadFileCall _ => true
  | _ => false
  end.

(* ================================================================== *)
(** ** [strings.Split] *)

(** [strings.Index]: the index of the first instance of [sep] in [s];
    [None] is [-1]. *)
Fixpoint strings_Index (s sep : gostring) : option nat :=
  if has_prefix sep s then Some 0
  else
    match s with
    | [] => None
    | _ :: s' => option_map S (strings_Index s' sep)
    end.

(** The loop of [strings.Count] for a separator that is not empty:
    [for { i := Index(s, substr); if i == -1 { return n }; n++;
    s = s[i+len(substr):] }].  Every turn drops at least one byte of [s]. *)
Fixpoint Count_loop (fuel : nat) (s substr : gostring) : nat :=
  match fuel with
  | 0 => 0
  | S fuel' =>
      match strings_Index s substr with
      | None => 0
      | Some i => S (Count_loop fuel' (skipn (i + length substr) s) substr)
      end
  end.

Definition strings_Count (s substr : gostring) : nat :=
  Count_loop (length s) s substr.

(** The loop of [genSplit]: [for i < n { m := Index(s, sep); if m < 0
    { break }; a[i] = s[:m]; s = s[m+len(sep):]; i++ }; a[i] = s].  The
    first argument is [n - i]. *)
Fixpoint genSplit_loop (n : nat) (s sep : gostring) : list gostring :=
  match n with
  | 0 => [s]
  | S n' =>
      match strings_Index s sep with
      | None => [s]
      | Some m => firstn m s :: genSplit_loop n' (skipn (m + length sep) s) sep
      end
  end.

(** [strings.Split(s, sep)] for a separator that is not empty, which is
    [genSplit(s, sep, 0, -1)] with [n = Count(s, sep) + 1] pieces. *)
Definition strings_Split (s sep : gostring) : list gostring :=
  genSplit_loop (strings_Count s sep) s sep.

(** The pieces of [s] between the bytes [c]. *)
Fixpoint pieces (c : ascii) (s : gostring) : list gostring :=
  match s with
  | [] => [[]]
  | x :: s' =>
      if byte_eqb x c then [] :: pieces c s'
      else
        match pieces c s' with
        | p :: ps => (x :: p) :: ps
        | [] => [[x]]
        end
  end.

(* ================================================================== *)
(** ** [cmd/model.go]: the fields of a model *)

(** [fmt.Errorf] without [%w]: an error that is its text. *)
Definition Errorf_text (text : gostring) : error := ErrExt text.

(** [contains] *)
Fixpoint contains (slice : list gostring) (item : gostring) : bool :=
  match slice with
  | [] => false
  | s :: rest => if str_eqb s item then true else contains rest item
  end.

Section ModelFields.

(** [model.Field], its field [Name] and [model.NewField] are declared in
    [internal/model]; [strings.ToLower] is the library's. *)
Variable Field : Type.
Variable Field_Name : Field -> gostring.
Variable NewField : gostring -> gostring -> gostring -> bool -> bool -> Field.
Variable strings_ToLower : gostring -> gostring.

(** The tag of a field: [fmt.Sprintf(`json:"%s"`, strings.ToLower(name))]. *)
Definition json_tag (name : gostring) : gostring :=
  gs "json:" ++ ["034"%char] ++ strings_ToLower name ++ ["034"%char].

(** [name == "ID" || name == "Id" || name == "id"] *)
Definition is_primary_name (name : gostring) : bool :=
  str_eqb name (gs "ID") || str_eqb name (gs "Id") || str_eqb name (gs "id").

(** The loop of [parseFields]; on an error the fields parsed so far are
    dropped ([return nil, ...]). *)
Fixpoint parseFields_loop (fields : list gostring) (modelFields : list Field)
    : list Field * option error :=
  match fields with
  | [] => (modelFields, None)
  | field :: rest =>
      let parts := strings_Split field (gs ":") in
      if negb (length parts =? 2) then
        ([], Some (Errorf_text (gs "invalid field format: " ++ field)))
      else
        let name := nth 0 parts [] in
        let fieldType := nth 1 parts [] in
        let tag := json_tag name in
        let isNull := false in
        let isPrimary := is_primary_name name in
        parseFields_loop rest
          (modelFields ++ [NewField name fieldType tag isNull isPrimary])
  end.

(** [parseFields] *)
Definition parseFields (fields : list gostring) : list Field * option error :=
  parseFields_loop fields [].

(** The field [parseFields] makes of a string of two parts. *)
Definition parsed_field (field : gostring) : Field :=
  let parts := strings_Split field (gs ":") in
  NewField (nth 0 parts []) (nth 1 parts []) (json_tag (nth 0 parts []))
    false (is_primary_name (nth 0 parts [])).

(** The loop of [removeFieldsFromModel]. *)
Fixpoint removeFields_loop (fields : list Field)
    (fieldsToRemove : list gostring) (updatedFields : list Field)
    : list Field :=
  match fields with
  | [] => updatedFields
  | field :: rest =>
      if negb (contains fieldsToRemove (Field_Name field)) then
        removeFields_loop rest fieldsToRemove (updatedFields ++ [field])
      else removeFields_loop rest fieldsToRemove updatedFields
  end.

(** [removeFieldsFromModel] *)
Definition removeFieldsFromModel (fields : list Field)
    (fieldsToRemove : list gostring) : list Field :=
  removeFields_loop fields fieldsToRemove [].

End ModelFields.

(** A field that keeps what [NewField] is given. *)
Record ToyField : Type := mkToyField {
  tf_Name : gostring;
  tf_Type : gostring;
  tf_Tag : gostring;
  tf_IsNull : bool;
  tf_IsPrimary : bool
}.

(** Lower case for ASCII letters, as [strings.ToLower] has it for a string
    of ASCII bytes. *)
Definition ascii_ToLower (s : gostring) : gostring :=
  map (fun c =>
         if (N.leb 65 (b2n c) && N.leb (b2n c) 90)%bool
         then ascii_of_N (b2n c + 32) else c) s.

Definition toy_parseFields : list gostring -> list ToyField * option error :=
  parseFields mkToyField ascii_ToLower.

Definition toy_removeFields
    : list ToyField -> list gostring -> list ToyField :=
  removeFieldsFromModel tf_Name.

(* ================================================================== *)
(** ** Package [config]: the defaults of a configuration *)

Module config.

(** [type DatabaseConfig struct]; a Go [int] is an integer here. *)
Record DatabaseConfig : Type := mkDatabaseConfig {
  Driver : gostring;
  Host : gostring;
  Port : Z;
  User : gostring;
  Password : gostring;
  Name : gostring;
  SSLMode : gostring
}.

(** [type ServerConfig struct] *)
Record ServerConfig : Type := mkServerConfig {
  ServerHost : gostring;
  ServerPort : Z
}.

(** [type LoggingConfig struct] *)
Record LoggingConfig : Type := mkLoggingConfig {
  Level : gostring;
  File : gostring
}.

(** [type Config struct] *)
Record Config : Type := mkConfig {
  Database : DatabaseConfig;
  Server : ServerConfig;
  Logging : LoggingConfig
}.

(** [s == ""] *)
Definition is_empty (s : gostring) : bool :=
  match s with
  | [] => true
  | _ => false
  end.

(** [setDefaults] sets default values for the fields that are empty or
    zero valued; the assignments are made one after the other. *)
Definition setDefaults (config : Config) : Config :=
  let db := Database config in
  let db :=
    if is_empty (Driver db) then
      mkDatabaseConfig (gs "postgres") (Host db) (Port db) (User db)
        (Password db) (Name db) (SSLMode db)
    else db in
  let db :=
    if is_empty (Host db) then
      mkDatabaseConfig (Driver db) (gs "localhost") (Port db) (User db)
        (Password db) (Name db) (SSLMode db)
    else db in
  let db :=
    if (Port db =? 0)%Z then
      mkDatabaseConfig (Driver db) (Host db) 5432 (User db)
        (Password db) (Name db) (SSLMode db)
    else db in
  let db :=
    if is_empty (SSLMode db) then
      mkDatabaseConfig (Driver db) (Host db) (Port db) (User db)
        (Password db) (Name db) (gs "disable")
    else db in
  let srv := Server config in
  let srv :=
    if is_empty (ServerHost srv) then
      mkServerConfig (gs "0.0.0.0") (ServerPort srv)
    else srv in
  let srv :=
    if (ServerPort srv =? 0)%Z then mkServerConfig (ServerHost srv) 8080
    else srv in
  let lg := Logging config in
  let lg :=
    if is_empty (Level lg) then mkLoggingConfig (gs "info") (File lg)
    else lg in
  mkConfig db srv lg.

(** A configuration in which every field that has a default is set. *)
Definition complete (config : Config) : Prop :=
  Driver (Database config) <> []
  /\ Host (Database config) <> []
  /\ Port (Database config) <> 0%Z
  /\ SSLMode (Database config) <> []
  /\ ServerHost (Server config) <> []
  /\ ServerPort (Server config) <> 0%Z
  /\ Level (Logging config) <> [].

End config.

(* ================================================================== *)
(** * Properties *)

Unset Implicit Arguments.

Example Ext_ex1 : Ext (gs "001_users.sql") = gs ".sql". Proof. reflexivity. Qed.
Example Ext_ex2 : Ext (gs "seed.sql.bak") = gs ".bak". Proof. reflexivity. Qed.
Example Ext_ex3 : Ext (gs "a.b/c") = gs "". Proof. reflexivity. Qed.
Example Base_ex1 : Base (gs "/a/b/c.sql//") = gs "c.sql". Proof. reflexivity. Qed.
Example Base_ex2 : Base (gs "///") = gs "/". Proof. reflexivity. Qed.
Example Clean_ex1 : Clean (gs "a//b/./c/../d/") = gs "a/b/d". Proof. reflexivity. Qed.
Example Clean_ex2 : Clean (gs "../../a/..") = gs "../..". Proof. reflexivity. Qed.
Example Clean_ex3 : Clean (gs "/../a/b/../../..") = gs "/". Proof. reflexivity. Qed.
Example Clean_ex4 : Clean (gs "a/..") = gs ".". Proof. reflexivity. Qed.
Example Clean_ex5 : Clean (gs "abc/../../x/..hid/...") = gs "../x/..hid/...". Proof. reflexivity. Qed.
Example Join_ex : Join [gs ""; gs "seeds/"; gs "01.sql"] = gs "seeds/01.sql". Proof. reflexivity. Qed.
Example Join_ex2 : Join [gs "./db/../seeds"; gs ".x.sql"] = gs "seeds/.x.sql". Proof. reflexivity. Qed.

Example Trim_ex1 : TrimSpace (bs [32;10;9] ++ gs "INSERT 1;" ++ bs [10;10] ++ gs " SELECT 2;" ++ bs [32;13;10])
   = gs "INSERT 1;" ++ bs [10;10] ++ gs " SELECT 2;". Proof. reflexivity. Qed.
Example Trim_ex2 : TrimSpace (bs [32; 0xC2; 0xA0; 0xE3; 0x80; 0x80] ++ gs "a b" ++ bs [0xE2;0x80;0x8A; 32; 0xC2; 0x85])
   = gs "a b". Proof. reflexivity. Qed.
Example Trim_ex3 : TrimSpace (bs [32; 0xC2; 32; 0xF0;0x90;0x80;32]) = bs [0xC2; 32; 0xF0;0x90;0x80]. Proof. reflexivity. Qed.
Example Trim_ex4 : TrimSpace (bs [32; 0xC2; 0xA0; 10; 32]) = []. Proof. reflexivity. Qed.
Example Trim_ex5 : TrimSpace (bs [32; 0xE2; 0x82; 0xAC; 0xC3; 0xA9; 0xF0;0x9F;0x98;0x80; 32; 0xE2; 0x80; 0xAF; 10]) = bs [0xE2; 0x82; 0xAC; 0xC3; 0xA9; 0xF0;0x9F;0x98;0x80]. Proof. reflexivity. Qed.
Example Dec_ex1 : DecodeRuneInString (bs [0xE2; 0x82; 0xAC]) = (0x20AC%N, 3). Proof. reflexivity. Qed.
Example Dec_ex2 : DecodeRuneInString (bs [0xF0;0x9F;0x98;0x80]) = (0x1F600%N, 4). Proof. reflexivity. Qed.
Example Dec_ex3 : DecodeRuneInString (bs [0xED;0xA0;0x80]) = (RuneError, 1). Proof. reflexivity. Qed.
Example Dec_ex4 : DecodeLastRuneInString (bs [0x41; 0xF0;0x9F;0x98;0x80]) = (0x1F600%N, 4). Proof. reflexivity. Qed.
Example Dec_ex5 : DecodeLastRuneInString (bs [0x41; 0x80;0x80;0x80;0x80; 0x80]) = (RuneError, 1). Proof. reflexivity. Qed.
Example Dec_ex6 : DecodeLastRuneInString (bs [0xC3; 0xA9]) = (0xE9%N, 2). Proof. reflexivity. Qed.

Example load_ex : toy_LoadSeeds (gs "seeds") (NewSeeder, toy_world seeds_fs fresh_db)
  = ((mkSeeder [mkSeed (gs "001_users.sql") users_sql; mkSeed (gs "002_posts.sql") posts_sql],
      mkWorld seeds_fs fresh_db [ReadDirCall (gs "seeds"); ReadFileCall (gs "seeds/002_posts.sql"); ReadFileCall (gs "seeds/001_users.sql")]), None).
Proof. reflexivity. Qed.

(* ------------------------------------------------------------------ *)
(** ** Strings *)

Lemma byte_eqb_eq (a b : ascii) : byte_eqb a b = true <-> a = b.
Proof. unfold byte_eqb. apply Ascii.eqb_eq. Qed.

Lemma byte_eqb_refl (a : ascii) : byte_eqb a a = true.
Proof. apply byte_eqb_eq. reflexivity. Qed.

Lemma str_eqb_eq (a b : gostring) : str_eqb a b = true <-> a = b.
Proof.
  revert b. induction a as [|x a IH]; intros [|y b]; simpl; split;
    try congruence; try reflexivity.
  - intros H. apply andb_true_iff in H as [H1 H2].
    apply byte_eqb_eq in H1. apply IH in H2. congruence.
  - intros H. inversion H; subst. rewrite byte_eqb_refl. simpl.
    apply IH. reflexivity.
Qed.

Lemma str_eqb_refl (a : gostring) : str_eqb a a = true.
Proof. apply str_eqb_eq. reflexivity. Qed.

Lemma str_eqb_neq (a b : gostring) : str_eqb a b = false <-> a <> b.
Proof.
  split.
  - intros H E. apply str_eqb_eq in E. congruence.
  - intros H. destruct (str_eqb a b) eqn:E; [|reflexivity].
    apply str_eqb_eq in E. contradiction.
Qed.

Lemma N_of_ascii_inj (a b : ascii) : N_of_ascii a = N_of_ascii b -> a = b.
Proof.
  intros H. rewrite <- (ascii_N_embedding a), <- (ascii_N_embedding b).
  now rewrite H.
Qed.

Lemma str_ltb_irrefl (a : gostring) : str_ltb a a = false.
Proof.
  induction a as [|x a IH]; simpl; [reflexivity|].
  now rewrite N.compare_refl.
Qed.

Lemma str_ltb_trans (a b c : gostring) :
  str_ltb a b = true -> str_ltb b c = true -> str_ltb a c = true.
Proof.
  revert b c. induction a as [|x a IH]; intros [|y b] [|z c]; simpl;
    try congruence.
  destruct (N.compare_spec (N_of_ascii x) (N_of_ascii y)) as [E1|L1|G1];
    try discriminate;
    destruct (N.compare_spec (N_of_ascii y) (N_of_ascii z)) as [E2|L2|G2];
    try discriminate; intros H1 H2.
  - rewrite E1, E2, N.compare_refl. eauto.
  - rewrite E1. now apply N.compare_lt_iff in L2 as ->.
  - rewrite <- E2. now apply N.compare_lt_iff in L1 as ->.
  - assert (L : (N_of_ascii x < N_of_ascii z)%N) by lia.
    now apply N.compare_lt_iff in L as ->.
Qed.

(** The order is total: two strings neither of which is smaller are equal. *)
Lemma str_ltb_total (a b : gostring) :
  str_ltb a b = false -> str_ltb b a = false -> a = b.
Proof.
  revert b. induction a as [|x a IH]; intros [|y b]; simpl;
    try congruence.
  rewrite (N.compare_antisym (N_of_ascii x) (N_of_ascii y)).
  destruct (N.compare_spec (N_of_ascii x) (N_of_ascii y)) as [E|L|G];
    simpl; try discriminate.
  intros H1 H2. apply N_of_ascii_inj in E. f_equal; auto.
Qed.

Lemma str_ltb_asym (a b : gostring) :
  str_ltb a b = true -> str_ltb b a = false.
Proof.
  intros H. destruct (str_ltb b a) eqn:E; [|reflexivity].
  pose proof (str_ltb_trans _ _ _ H E) as T.
  rewrite str_ltb_irrefl in T. discriminate.
Qed.

Lemma str_ltb_negtrans (a b c : gostring) :
  str_ltb a b = false -> str_ltb b c = false -> str_ltb a c = false.
Proof.
  intros H1 H2. destruct (str_ltb a c) eqn:E; [|reflexivity].
  destruct (str_ltb b a) eqn:E1.
  - pose proof (str_ltb_trans _ _ _ E1 E). congruence.
  - assert (a = b) by now apply str_ltb_total. subst. congruence.
Qed.

Lemma has_prefix_app (n rest : gostring) : has_prefix n (n ++ rest) = true.
Proof.
  induction n as [|c n IH]; simpl; [reflexivity|].
  now rewrite byte_eqb_refl.
Qed.

(** A text names what it is built around. *)
Lemma str_contains_middle (before n after : gostring) :
  str_contains (before ++ n ++ after) n = true.
Proof.
  induction before as [|c before IH].
  - pose proof (has_prefix_app n after) as H. simpl app.
    destruct (n ++ after); cbn [str_contains]; now rewrite H.
  - simpl app. cbn [str_contains]. rewrite IH. apply orb_true_r.
Qed.

Lemma Errorf_names (before name after : gostring) (cause : error) :
  names (Errorf (before ++ name ++ after) cause) name = true.
Proof.
  unfold names. simpl. rewrite <- !app_assoc. apply str_contains_middle.
Qed.

(** The order [LoadSeeds] sorts by is one [sort.Slice] accepts. *)
Lemma seed_less_strict_weak_order : strict_weak_order seed_less.
Proof.
  unfold seed_less. repeat split; intros.
  - apply str_ltb_irrefl.
  - eapply str_ltb_trans; eauto.
  - eapply str_ltb_negtrans; eauto.
Qed.

(* ------------------------------------------------------------------ *)
(** ** Running the seeds *)

Section Run.

Variable DB : Type.
Variable drv : Driver DB.

Lemma call_spec (e : event) (op : DB -> DB * option error) (w : World DB) :
  call e op w
  = (mkWorld (fs w) (fst (op (dbst w))) (trace w ++ [e]), snd (op (dbst w))).
Proof. unfold call. now destruct (op (dbst w)). Qed.

(** [executeSeed] leaves the Seeder as it is, and either commits with the
    four calls of a committed seed or fails in one of the three shapes. *)
Lemma executeSeed_cases (seed : Seed) (s : Seeder) (w : World DB) :
  exists w',
    fs w' = fs w /\
    ((executeSeed drv seed (s, w) = ((s, w'), None)
      /\ trace w' = trace w ++ committed_calls seed)
     \/ exists e calls,
          executeSeed drv seed (s, w) = ((s, w'), Some e)
          /\ trace w' = trace w ++ calls
          /\ seed_failure seed e calls).
Proof.
  unfold executeSeed. rewrite ?call_spec.
  destruct (db_Begin drv (dbst w)) as [d1 [e1|]]; simpl.
  { eexists; split; [|right; do 2 eexists; repeat split; constructor].
    reflexivity. }
  rewrite ?call_spec; simpl.
  destruct (tx_Exec drv (SQL seed) d1) as [d2 [e2|]]; simpl.
  { rewrite ?call_spec; simpl.
    eexists; split; [|right; do 2 eexists; split; [reflexivity|]].
    - reflexivity.
    - simpl. rewrite <- !app_assoc. split; [reflexivity|constructor]. }
  rewrite ?call_spec; simpl.
  destruct (tx_Commit drv d2) as [d3 [e3|]]; simpl.
  { eexists; split; [|right; do 2 eexists; split; [reflexivity|]].
    - reflexivity.
    - simpl. rewrite <- !app_assoc. split; [reflexivity|constructor]. }
  eexists; split; [|left; split; [reflexivity|]].
  - reflexivity.
  - simpl. rewrite <- !app_assoc. reflexivity.
Qed.

Lemma executeSeed_keeps_seeder (seed : Seed) (st : St DB) :
  fst (fst (executeSeed drv seed st)) = fst st.
Proof.
  destruct st as [s w].
  destruct (executeSeed_cases seed s w) as (w' & _ & [[E _]|(e & c & E & _)]);
    now rewrite E.
Qed.

Lemma Seed_loop_keeps_seeder (l : list Seed) (st : St DB) :
  fst (fst (Seed_loop drv l st)) = fst st.
Proof.
  revert st. induction l as [|seed l IH]; intros st; simpl; [reflexivity|].
  pose proof (executeSeed_keeps_seeder seed st) as K.
  destruct (executeSeed drv seed st) as [st1 [e|]]; simpl in *;
    [assumption|].
  rewrite IH. assumption.
Qed.

(** The loop over [pre ++ rest] is the loop over [pre] and then, if no
    seed of [pre] failed, the loop over [rest]. *)
Lemma Seed_loop_app (pre rest : list Seed) (st : St DB) :
  Seed_loop drv (pre ++ rest) st
  = match Seed_loop drv pre st with
    | (st1, None) => Seed_loop drv rest st1
    | (st1, Some e) => (st1, Some e)
    end.
Proof.
  revert st. induction pre as [|seed pre IH]; intros st; simpl;
    [reflexivity|].
  destruct (executeSeed drv seed st) as [st1 [e|]]; [reflexivity|].
  apply IH.
Qed.

(** A run in which every seed commits makes the calls of each seed, in
    the order of the seeds. *)
Lemma Seed_loop_ok_trace (l : list Seed) (st st' : St DB) :
  Seed_loop drv l st = (st', None) ->
  trace (snd st') = trace (snd st) ++ flat_map committed_calls l.
Proof.
  revert st. induction l as [|seed l IH]; intros [s w]; simpl.
  - intros [= <-]. simpl. now rewrite app_nil_r.
  - destruct (executeSeed_cases seed s w)
      as (w' & _ & [[E T]|(e & c & E & _)]); rewrite E; [|discriminate].
    intros H. apply IH in H. rewrite H. simpl. rewrite T.
    now rewrite <- !app_assoc.
Qed.

(** C10.  [Seed] never modifies the Seeder: after a run, whether it
    succeeded or failed at some seed, the Seeder and so its sequence of
    seeds is what it was before, and a run on the state reached goes
    through the same seeds in the same order. *)
Theorem Seed_keeps_seeds (st : St DB) :
  fst (fst (Seeder_Seed drv st)) = fst st
  /\ seeds (fst (fst (Seeder_Seed drv st))) = seeds (fst st)
  /\ Seeder_Seed drv (fst (Seeder_Seed drv st))
     = Seed_loop drv (seeds (fst st)) (fst (Seeder_Seed drv st)).
Proof.
  assert (K : fst (fst (Seeder_Seed drv st)) = fst st)
    by apply Seed_loop_keeps_seeder.
  repeat split; [assumption|now rewrite K|].
  unfold Seeder_Seed at 1. now rewrite K.
Qed.

(** X26.  [Seed] runs [executeSeed] on each seed in stored order and
    stops at the first that fails: when the seeds before [bad] commit and
    [bad] fails, the run returns the error of [bad] as it is, in the state
    [bad] left; the calls made are those of the seeds before, each up to
    its commit, and then those of [bad], so no seed after [bad] is executed
    and nothing is done to the seeds committed before.  The error names
    [bad] unless the failure is that of starting the transaction, in which
    case [BeginCall] is the only call made for [bad]. *)
Theorem Seed_stops_at_first_failure
    (s : Seeder) (w : World DB) (pre post : list Seed) (bad : Seed)
    (st1 st2 : St DB) (e : error) :
  seeds s = pre ++ bad :: post ->
  Seed_loop drv pre (s, w) = (st1, None) ->
  executeSeed drv bad st1 = (st2, Some e) ->
  Seeder_Seed drv (s, w) = (st2, Some e)
  /\ fst st2 = s
  /\ exists calls,
       trace (snd st2) = trace w ++ flat_map committed_calls pre ++ calls
       /\ seed_failure bad e calls
       /\ (calls = [BeginCall] \/ names e (Name bad) = true).
Proof.
  intros Hs Hpre Hbad.
  pose proof (Seed_loop_keeps_seeder pre (s, w)) as K1.
  rewrite Hpre in K1. simpl in K1.
  pose proof (Seed_loop_ok_trace _ _ _ Hpre) as T1. simpl in T1.
  destruct st1 as [s1 w1]. simpl in *. subst s1.
  split; [|split].
  - unfold Seeder_Seed. simpl. rewrite Hs, Seed_loop_app, Hpre. simpl.
    now rewrite Hbad.
  - pose proof (executeSeed_keeps_seeder bad (s, w1)) as K2.
    now rewrite Hbad in K2.
  - destruct (executeSeed_cases bad s w1)
      as (w' & _ & [[E _]|(e' & c & E & T & F)]); rewrite E in Hbad;
      [discriminate|].
    injection Hbad as <- <-. exists c. simpl. rewrite T, T1.
    split; [now rewrite <- app_assoc|]. split; [exact F|].
    destruct F; [now left|right|right]; apply Errorf_names.
Qed.

(** C3, amended.  When the execution of a seed's SQL fails, [executeSeed]
    rolls back and returns an execution error that names the seed and
    wraps the cause; what the rollback returned, [rb], is dropped: the
    error is the same whether the rollback failed or not. *)
Theorem executeSeed_execution_failure
    (seed : Seed) (s : Seeder) (w : World DB) (d1 d2 d3 : DB)
    (cause : error) (rb : option error) :
  db_Begin drv (dbst w) = (d1, None) ->
  tx_Exec drv (SQL seed) d1 = (d2, Some cause) ->
  tx_Rollback drv d2 = (d3, rb) ->
  executeSeed drv seed (s, w)
  = ((s, mkWorld (fs w) d3
           (trace w ++ [BeginCall; ExecCall (SQL seed); RollbackCall])),
     Some (Errorf (gs "error executing seed " ++ Name seed ++ gs ": ")
             cause))
  /\ names (Errorf (gs "error executing seed " ++ Name seed ++ gs ": ")
              cause) (Name seed) = true.
Proof.
  intros H1 H2 H3. split; [|apply Errorf_names].
  unfold executeSeed, call. simpl.
  rewrite H1. simpl. rewrite H2. simpl. rewrite H3.
  now rewrite <- !app_assoc.
Qed.

End Run.

(* ------------------------------------------------------------------ *)
(** ** Loading the seeds *)

Section Load.

Variable DB : Type.
Variable sort_Slice : forall A : Type, (A -> A -> bool) -> list A -> list A.

Lemma parseSeedFile_spec (filename : gostring) (w : World DB) :
  parseSeedFile filename w
  = (emit (ReadFileCall filename) w,
     match fs_ReadFile (fs w) filename with
     | inl err => inl err
     | inr content => inr (mkSeed (Base filename) (TrimSpace content))
     end).
Proof.
  unfold parseSeedFile, ioutil_ReadFile.
  now destruct (fs_ReadFile (fs w) filename).
Qed.

Lemma LoadSeeds_loop_app (dir : gostring) (pre rest : list FileInfo)
    (st : St DB) :
  LoadSeeds_loop dir (pre ++ rest) st
  = match LoadSeeds_loop dir pre st with
    | (st1, None) => LoadSeeds_loop dir rest st1
    | (st1, Some e) => (st1, Some e)
    end.
Proof.
  revert st. induction pre as [|f pre IH]; intros [s w]; simpl;
    [reflexivity|].
  destruct (str_eqb (Ext (fi_Name f)) (gs ".sql")); [|apply IH].
  rewrite parseSeedFile_spec.
  destruct (fs_ReadFile (fs w) (Join [dir; fi_Name f])); [reflexivity|].
  apply IH.
Qed.

(** When every selected entry can be read, the loop appends their seeds
    in the order of the listing and reads nothing else. *)
Lemma LoadSeeds_loop_ok (dir : gostring) (files : list FileInfo)
    (s : Seeder) (w : World DB) :
  Forall (fun f => selected f = true -> readable (fs w) dir f) files ->
  LoadSeeds_loop dir files (s, w)
  = ((mkSeeder (seeds s ++ seeds_of (fs w) dir files),
      mkWorld (fs w) (dbst w)
        (trace w
         ++ map ReadFileCall (map (seed_path dir) (filter selected files)))),
     None).
Proof.
  revert s w. induction files as [|f files IH]; intros s w HF.
  - unfold seeds_of. simpl. rewrite !app_nil_r. now destruct s, w.
  - inversion HF as [|? ? Hf HF']; subst.
    unfold seeds_of. cbn [LoadSeeds_loop filter].
    change (str_eqb (Ext (fi_Name f)) (gs ".sql")) with (selected f).
    destruct (selected f) eqn:E.
    + rewrite parseSeedFile_spec. destruct (Hf eq_refl) as [c Hc].
      cbn [map flat_map]. unfold seed_of at 1.
      change (Join [dir; fi_Name f]) with (seed_path dir f).
      rewrite Hc. rewrite IH by exact HF'. cbn [seeds fs dbst trace emit].
      unfold seeds_of, emit. cbn [seeds fs dbst trace].
      now rewrite <- !app_assoc.
    + now rewrite IH.
Qed.

(** A loop that succeeds has read every selected entry. *)
Lemma LoadSeeds_loop_success (dir : gostring) (files : list FileInfo)
    (s : Seeder) (w : World DB) (st' : St DB) :
  LoadSeeds_loop dir files (s, w) = (st', None) ->
  Forall (fun f => selected f = true -> readable (fs w) dir f) files.
Proof.
  revert s w. induction files as [|f files IH]; intros s w; simpl;
    [constructor|].
  change (str_eqb (Ext (fi_Name f)) (gs ".sql")) with (selected f).
  destruct (selected f) eqn:E.
  - rewrite parseSeedFile_spec.
    change (Join [dir; fi_Name f]) with (seed_path dir f).
    destruct (fs_ReadFile (fs w) (seed_path dir f)) as [err|c] eqn:R;
      [discriminate|].
    intros H. apply IH in H. simpl in H.
    constructor; [intros _; now exists c|exact H].
  - intros H. apply IH in H. constructor; [congruence|exact H].
Qed.

(** C5.  When the directory cannot be listed, [LoadSeeds] returns the
    directory-read error wrapping the cause, and the Seeder, with its
    sequence of seeds, is what it was before the call. *)
Theorem LoadSeeds_directory_read_failure
    (dir : gostring) (s : Seeder) (w : World DB) (err : error) :
  fs_ReadDir (fs w) dir = inl err ->
  LoadSeeds sort_Slice dir (s, w)
  = ((s, emit (ReadDirCall dir) w),
     Some (Errorf (gs "failed to read seeds directory: ") err))
  /\ seeds (fst (fst (LoadSeeds sort_Slice dir (s, w)))) = seeds s.
Proof.
  intros H. unfold LoadSeeds, ioutil_ReadDir. rewrite H. now split.
Qed.

(** C6.  When a selected file cannot be read, after the selected files
    before it in the listing were read, [LoadSeeds] fails at once with the
    file-read error that names the file and wraps the cause: the entries
    after it are not looked at, and the seeds of the files read before it
    stay appended, in listing order, to the Seeder's sequence. *)
Theorem LoadSeeds_file_read_failure
    (dir : gostring) (s : Seeder) (w : World DB)
    (pre post : list FileInfo) (f : FileInfo) (err : error) :
  fs_ReadDir (fs w) dir = inr (pre ++ f :: post) ->
  Forall (fun g => selected g = true -> readable (fs w) dir g) pre ->
  selected f = true ->
  fs_ReadFile (fs w) (seed_path dir f) = inl err ->
  LoadSeeds sort_Slice dir (s, w)
  = ((mkSeeder (seeds s ++ seeds_of (fs w) dir pre),
      mkWorld (fs w) (dbst w)
        (trace w ++ ReadDirCall dir
           :: map ReadFileCall (map (seed_path dir) (filter selected pre))
           ++ [ReadFileCall (seed_path dir f)])),
     Some (Errorf (gs "failed to parse seed file " ++ fi_Name f ++ gs ": ")
             err))
  /\ names (Errorf (gs "failed to parse seed file " ++ fi_Name f ++ gs ": ")
              err) (fi_Name f) = true.
Proof.
  intros Hdir Hpre Hsel Hread. split; [|apply Errorf_names].
  unfold LoadSeeds, ioutil_ReadDir. rewrite Hdir.
  rewrite LoadSeeds_loop_app.
  rewrite LoadSeeds_loop_ok by exact Hpre.
  cbn [LoadSeeds_loop].
  change (str_eqb (Ext (fi_Name f)) (gs ".sql")) with (selected f).
  rewrite Hsel, parseSeedFile_spec.
  change (Join [dir; fi_Name f]) with (seed_path dir f).
  cbn [fs emit]. rewrite Hread. unfold emit. cbn [fs dbst trace].
  now rewrite <- !app_assoc.
Qed.

End Load.

(* ------------------------------------------------------------------ *)
(** ** Insertion sort meets the contract of [sort.Slice] *)

Section InsertionSort.

Variable A : Type.
Variable less : A -> A -> bool.
Hypothesis less_swo : strict_weak_order less.

Lemma sink_Permutation (x : A) (before : list A) :
  Permutation (x :: before) (sink less x before).
Proof.
  induction before as [|y before IH]; simpl; [reflexivity|].
  destruct (less x y); [|reflexivity].
  rewrite perm_swap. now constructor.
Qed.

Lemma sink_In (x z : A) (before : list A) :
  In z (sink less x before) -> z = x \/ In z before.
Proof.
  intros H.
  apply (Permutation_in _ (Permutation_sym (sink_Permutation x before))) in H.
  destruct H; auto.
Qed.

Lemma less_asym (x y : A) : less x y = true -> less y x = false.
Proof.
  destruct less_swo as (Hi & Ht & _). intros H.
  destruct (less y x) eqn:E; [|reflexivity].
  rewrite <- (Hi x). symmetry. eapply Ht; eauto.
Qed.

Lemma sink_sorted (x : A) (before : list A) :
  StronglySorted (fun y z => less y z = false) before ->
  StronglySorted (fun y z => less y z = false) (sink less x before).
Proof.
  destruct less_swo as (Hi & Ht & Hn).
  induction before as [|y before IH]; intros H; simpl.
  - repeat constructor.
  - inversion H as [|? ? Hs Hall]; subst.
    destruct (less x y) eqn:E.
    + constructor; [now apply IH|].
      apply Forall_forall. intros z Hz. apply sink_In in Hz as [->|Hz].
      * now apply less_asym.
      * rewrite Forall_forall in Hall. now apply Hall.
    + constructor; [assumption|]. constructor; [assumption|].
      rewrite Forall_forall in Hall |- *. intros z Hz.
      apply (Hn x y z); auto.
Qed.

Lemma StronglySorted_snoc (R : A -> A -> Prop) (l : list A) (x : A) :
  StronglySorted R l -> Forall (fun y => R y x) l ->
  StronglySorted R (l ++ [x]).
Proof.
  induction 1 as [|y l Hs IH Hall]; intros HF; simpl.
  - repeat constructor.
  - inversion HF; subst. constructor; [now apply IH|].
    apply Forall_app. split; [assumption|]. now repeat constructor.
Qed.

Lemma StronglySorted_rev (R : A -> A -> Prop) (l : list A) :
  StronglySorted R l -> StronglySorted (fun x y => R y x) (rev l).
Proof.
  induction 1 as [|x l Hs IH Hall]; simpl; [constructor|].
  apply StronglySorted_snoc; [assumption|].
  now apply Forall_rev.
Qed.

Lemma fold_sink_Permutation (l acc : list A) :
  Permutation (rev acc ++ l)
    (rev (fold_left (fun before x => sink less x before) l acc)).
Proof.
  revert acc. induction l as [|x l IH]; intros acc; simpl.
  - now rewrite app_nil_r.
  - rewrite <- IH. rewrite <- (sink_Permutation x acc). simpl.
    now rewrite <- app_assoc.
Qed.

Lemma fold_sink_sorted (l acc : list A) :
  StronglySorted (fun y z => less y z = false) acc ->
  StronglySorted (fun y z => less y z = false)
    (fold_left (fun before x => sink less x before) l acc).
Proof.
  revert acc. induction l as [|x l IH]; intros acc H; simpl; [assumption|].
  apply IH. now apply sink_sorted.
Qed.

Lemma insertion_sort_Permutation (l : list A) :
  Permutation l (insertion_sort less l).
Proof. apply (fold_sink_Permutation l []). Qed.

Lemma insertion_sort_sorted (l : list A) :
  sorted_by less (insertion_sort less l).
Proof.
  unfold sorted_by, insertion_sort.
  apply (StronglySorted_rev (fun y z => less y z = false)).
  apply fold_sink_sorted. constructor.
Qed.

End InsertionSort.

(* ------------------------------------------------------------------ *)
(** ** File names: [Ext], [Join] and [Base] *)

Lemma Ext_loop_result (path : gostring) (k : nat) :
  Ext_loop path k = [] \/ exists i, Ext_loop path k = skipn i path.
Proof.
  induction k as [|i IH]; simpl; [now left|].
  destruct (nth_error path i) as [c|]; [|now left].
  destruct (IsPathSeparator c); [now left|].
  destruct (byte_eqb c "."); [right; now exists i|exact IH].
Qed.

(** Below a final dot that no separator and no dot follows, the loop
    returns the suffix from that dot. *)
Lemma Ext_loop_final_dot (stem suf : gostring) (k : nat) :
  Forall (fun c => IsPathSeparator c = false /\ byte_eqb c "." = false) suf ->
  k <= length suf ->
  Ext_loop (stem ++ "."%char :: suf) (S (length stem + k)) = "."%char :: suf.
Proof.
  intros Hsuf. induction k as [|k IH]; intros Hk.
  - rewrite Nat.add_0_r. simpl. rewrite nth_error_app2 by lia.
    rewrite Nat.sub_diag. simpl.
    rewrite skipn_app, Nat.sub_diag, skipn_all. reflexivity.
  - cbn [Ext_loop].
    rewrite nth_error_app2 by lia.
    replace (length stem + S k - length stem) with (S k) by lia.
    cbn [nth_error].
    destruct (nth_error suf k) as [c|] eqn:E.
    + apply nth_error_In in E. rewrite Forall_forall in Hsuf.
      destruct (Hsuf c E) as [-> ->].
      replace (length stem + S k) with (S (length stem + k)) by lia.
      apply IH. lia.
    + apply nth_error_None in E. lia.
Qed.

(** The extension is [.sql] exactly when the name ends in [.sql]. *)
Lemma Ext_sql_iff (name : gostring) :
  Ext name = gs ".sql" <-> exists stem, name = stem ++ gs ".sql".
Proof.
  split.
  - intros H. unfold Ext in H.
    destruct (Ext_loop_result name (length name)) as [E|[i E]];
      rewrite E in H; [discriminate|].
    exists (firstn i name). rewrite <- H. symmetry. apply firstn_skipn.
  - intros [stem ->]. unfold Ext.
    change (gs ".sql") with ("."%char :: ["s"; "q"; "l"]%char).
    rewrite length_app. cbn [length].
    replace (length stem + 4) with (S (length stem + 3)) by lia.
    apply Ext_loop_final_dot; [|simpl; lia].
    repeat constructor.
Qed.

Lemma selected_iff (f : FileInfo) :
  selected f = true <-> exists stem, fi_Name f = stem ++ gs ".sql".
Proof.
  unfold selected. rewrite str_eqb_eq. apply Ext_sql_iff.
Qed.

Lemma valid_name_spec (n : gostring) :
  valid_name n = true ->
  n <> [] /\ Forall (fun c => IsPathSeparator c = false) n
  /\ n <> gs "." /\ n <> gs "..".
Proof.
  unfold valid_name. rewrite !andb_true_iff, !negb_true_iff, !str_eqb_neq.
  intros [[[H1 H2] H3] H4]. repeat split; auto.
  rewrite forallb_forall in H2. apply Forall_forall. intros c Hc.
  apply H2 in Hc. now apply negb_true_iff in Hc.
Qed.

Lemma copy_element_nosep (e r : gostring) :
  Forall (fun c => IsPathSeparator c = false) e -> at_element_end r = true ->
  copy_element (e ++ r) = (e, r).
Proof.
  induction 1 as [|c e Hc He IH]; intros Hr; simpl.
  - destruct r as [|d r]; [reflexivity|]. simpl in *. now rewrite Hr.
  - rewrite Hc, IH by assumption. reflexivity.
Qed.

Lemma copy_element_all (e : gostring) :
  Forall (fun c => IsPathSeparator c = false) e -> copy_element e = (e, []).
Proof.
  intros H. rewrite <- (app_nil_r e) at 1. now apply copy_element_nosep.
Qed.

Lemma copy_element_tail (rest n : gostring) :
  exists e rest2,
    copy_element (rest ++ "/"%char :: n) = (e, rest2 ++ "/"%char :: n)
    /\ rest = e ++ rest2.
Proof.
  induction rest as [|c rest IH]; simpl.
  - exists [], []. now split.
  - destruct (IsPathSeparator c) eqn:E.
    + exists [], (c :: rest). now split.
    + destruct IH as (e & rest2 & -> & ->).
      exists (c :: e), rest2. now split.
Qed.

Lemma backtrack_ge (out : gostring) (dotdot w : nat) :
  dotdot <= w -> dotdot <= backtrack out dotdot w.
Proof.
  induction w as [|w IH]; intros H; simpl; [assumption|].
  destruct (dotdot <? S w) eqn:E; simpl; [|assumption].
  destruct (IsPathSeparator (nth (S w) out "/"%char)); simpl; [assumption|].
  apply IH. apply Nat.ltb_lt in E. lia.
Qed.

Lemma Clean_loop_last_element (n : gostring) :
  valid_name n = true ->
  forall (fuel : nat) (rooted : bool) (p out : gostring) (dotdot : nat),
    length p <= fuel ->
    (rooted = true -> 1 <= dotdot /\ exists o, out = "/"%char :: o) ->
    (p = n \/ exists rest, p = rest ++ "/"%char :: n) ->
    exists out',
      Clean_loop fuel rooted p out dotdot = out' ++ n
      /\ (out' = [] \/ exists o, out' = o ++ ["/"%char]).
Proof.
  intros Hv. destruct (valid_name_spec n Hv) as (Hne & Hns & Hd & Hdd).
  induction fuel as [|fuel IH]; intros rooted p out dotdot Hlen Hinv Hp.
  - destruct p; [|simpl in Hlen; lia].
    destruct Hp as [<-|[rest Hp]]; [congruence|].
    now destruct rest.
  - destruct p as [|c p1].
    { destruct Hp as [<-|[rest Hp]]; [congruence|]. now destruct rest. }
    cbn [Clean_loop]. simpl in Hlen.
    destruct Hp as [Hp|[rest Hp]].
    + (* the last element itself *)
      subst n. inversion Hns as [|? ? Hc Hns1]; subst. rewrite Hc.
      assert (E2 : byte_eqb c "." && at_element_end p1 = false).
      { destruct (byte_eqb c ".") eqn:Ec; [|reflexivity]. simpl.
        apply byte_eqb_eq in Ec. subst c.
        destruct p1 as [|d p1']; [now elim Hd|].
        inversion Hns1; subst. assumption. }
      rewrite E2.
      assert (E3 : byte_eqb c "." && has_prefix (gs ".") p1
                   && at_element_end (skipn 1 p1) = false).
      { destruct (byte_eqb c ".") eqn:Ec; [|reflexivity]. simpl.
        apply byte_eqb_eq in Ec. subst c.
        destruct p1 as [|d p1']; [reflexivity|].
        cbn [gs String.list_ascii_of_string has_prefix skipn].
        destruct (byte_eqb "." d) eqn:Ed; [|reflexivity]. simpl.
        apply byte_eqb_eq in Ed. subst d.
        destruct p1' as [|d' p1'']; [now elim Hdd|].
        inversion Hns1 as [|? ? _ Hns2]; subst.
        inversion Hns2; subst. assumption. }
      rewrite E3.
      rewrite copy_element_all by (constructor; assumption).
      assert (L : forall o, Clean_loop fuel rooted [] o dotdot = o)
        by (intros o; now destruct fuel).
      rewrite L. eexists; split; [reflexivity|].
      change (gs "/") with ["/"%char].
      destruct rooted; simpl.
      * destruct Hinv as [_ [o ->]]; [reflexivity|].
        destruct o as [|a o]; simpl; [right; now exists []|].
        right. now exists ("/"%char :: a :: o).
      * destruct out as [|a out]; simpl; [now left|].
        right. now exists (a :: out).
    + (* something before the last element *)
      assert (Hrec : forall p' out' dd',
                 length p' <= fuel ->
                 (rooted = true -> 1 <= dd' /\ exists o, out' = "/"%char :: o) ->
                 (exists rest', p' = rest' ++ "/"%char :: n /\ True) \/ p' = n ->
                 exists out'',
                   Clean_loop fuel rooted p' out' dd' = out'' ++ n
                   /\ (out'' = [] \/ exists o, out'' = o ++ ["/"%char])).
      { intros p' out' dd' H1 H2 [[rest' [-> _]] | ->]; apply IH; eauto. }
      destruct rest as [|c' rest'].
      { (* the separator before the last element *)
        simpl in Hp. injection Hp as -> ->.
        replace (IsPathSeparator "/") with true by reflexivity.
        apply Hrec; auto. lia. }
      simpl in Hp. injection Hp as <- ->.
      destruct (IsPathSeparator c) eqn:Ec.
      { apply Hrec; auto. lia. left. eauto. }
      destruct (byte_eqb c "." && at_element_end (rest' ++ "/"%char :: n)) eqn:E2.
      { apply Hrec; auto. lia. left. eauto. }
      destruct (byte_eqb c "." && has_prefix (gs ".") (rest' ++ "/"%char :: n)
                && at_element_end (skipn 1 (rest' ++ "/"%char :: n))) eqn:E3.
      { apply andb_true_iff in E3 as [E3 _]. apply andb_true_iff in E3 as [_ E3].
        destruct rest' as [|d rest'']; [discriminate E3|].
        cbn [app skipn]. rewrite length_app in Hlen. simpl in Hlen.
        destruct (dotdot <? length out) eqn:Edd.
        - apply Hrec; [rewrite length_app; simpl; lia| |left; eauto].
          intros Hr. destruct (Hinv Hr) as [Hd1 [o ->]]. split; [assumption|].
          apply Nat.ltb_lt in Edd.
          pose proof (backtrack_ge ("/"%char :: o) dotdot (length ("/"%char :: o) - 1)) as G.
          destruct (backtrack ("/"%char :: o) dotdot (length ("/"%char :: o) - 1)) as [|w];
            [simpl in *; lia|].
          simpl. eauto.
        - destruct rooted; simpl.
          + apply Hrec; [rewrite length_app; simpl; lia|assumption|left; eauto].
          + apply Hrec; [rewrite length_app; simpl; lia|discriminate|left; eauto]. }
      destruct (copy_element_tail rest' n) as (e & rest2 & Hce & Hrest).
      cbn [copy_element]. rewrite Ec, Hce.
      apply Hrec; [|  |left; eauto].
      * subst rest'. rewrite ?length_app in *. simpl in *.
        rewrite ?length_app in *. simpl in *. lia.
      * intros Hr. destruct (Hinv Hr) as [Hd1 [o ->]]. split; [assumption|].
        rewrite Hr. simpl. destruct o; simpl; eauto.
Qed.

(** [Clean] keeps a last element that is a valid name, after nothing or
    after a separator. *)
Lemma Clean_last_element (n path : gostring) :
  valid_name n = true ->
  (path = n \/ exists rest, path = rest ++ "/"%char :: n) ->
  exists out',
    Clean path = out' ++ n /\ (out' = [] \/ exists o, out' = o ++ ["/"%char]).
Proof.
  intros Hv Hp. destruct (valid_name_spec n Hv) as (Hne & Hns & _).
  assert (Hnil : forall out', out' ++ n <> []).
  { intros out' E. apply app_eq_nil in E as [_ E]. contradiction. }
  destruct path as [|c p1].
  { destruct Hp as [<-|[rest Hp]]; [congruence|]. now destruct rest. }
  unfold Clean.
  destruct (IsPathSeparator c) eqn:Ec.
  - destruct Hp as [<-|[rest Hp]].
    { inversion Hns; subst. congruence. }
    assert (Hp1 : p1 = n \/ exists rest', p1 = rest' ++ "/"%char :: n).
    { destruct rest as [|c' rest']; simpl in Hp; injection Hp as -> ->;
        [now left|right; eauto]. }
    destruct (Clean_loop_last_element n Hv (length (c :: p1)) true p1
                (gs "/") 1) as (out' & E & Ho); auto.
    + simpl. lia.
    + intros _. split; [lia|]. now exists [].
    + rewrite E. exists out'. split; [|assumption].
      destruct (out' ++ n) eqn:En; [now apply Hnil in En|reflexivity].
  - destruct (Clean_loop_last_element n Hv (length (c :: p1)) false (c :: p1)
                [] 0) as (out' & E & Ho); auto.
    + discriminate.
    + rewrite E. exists out'. split; [|assumption].
      destruct (out' ++ n) eqn:En; [now apply Hnil in En|reflexivity].
Qed.

Lemma strip_trailing_slashes_none (q : gostring) (c : ascii) :
  IsPathSeparator c = false ->
  strip_trailing_slashes (q ++ [c]) (length (q ++ [c])) = q ++ [c].
Proof.
  intros Hc. rewrite length_app, Nat.add_1_r. cbn [strip_trailing_slashes].
  rewrite nth_error_app2, Nat.sub_diag by lia. cbn [nth_error]. rewrite Hc.
  replace (S (length q)) with (length (q ++ [c]))
    by (rewrite length_app; simpl; lia).
  apply firstn_all.
Qed.

Lemma last_element_start_app (out' n : gostring) (k : nat) :
  (out' = [] \/ exists o, out' = o ++ ["/"%char]) ->
  Forall (fun c => IsPathSeparator c = false) n ->
  k <= length n ->
  last_element_start (out' ++ n) (length out' + k) = length out'.
Proof.
  intros Ho Hn. induction k as [|k IH]; intros Hk.
  - rewrite Nat.add_0_r. destruct Ho as [->|[o ->]]; [reflexivity|].
    rewrite length_app, Nat.add_1_r. cbn [last_element_start].
    rewrite <- app_assoc, nth_error_app2, Nat.sub_diag by lia.
    reflexivity.
  - rewrite Nat.add_succ_r. cbn [last_element_start].
    rewrite nth_error_app2 by lia.
    replace (length out' + k - length out') with k by lia.
    destruct (nth_error n k) as [c|] eqn:E.
    + apply nth_error_In in E. rewrite Forall_forall in Hn.
      rewrite (Hn c E). apply IH. lia.
    + apply nth_error_None in E. lia.
Qed.

(** The base name of a path whose last element is a valid name is that
    name. *)
Lemma Base_last_element (out' n : gostring) :
  valid_name n = true ->
  (out' = [] \/ exists o, out' = o ++ ["/"%char]) ->
  Base (out' ++ n) = n.
Proof.
  intros Hv Ho. destruct (valid_name_spec n Hv) as (Hne & Hns & _).
  destruct (exists_last Hne) as (q & c & Hq).
  assert (Hc : IsPathSeparator c = false).
  { rewrite Forall_forall in Hns. apply Hns. rewrite Hq.
    apply in_or_app. right. now left. }
  unfold Base.
  destruct (out' ++ n) eqn:E.
  { apply app_eq_nil in E as [_ E]. contradiction. }
  rewrite <- E.
  assert (S1 : strip_trailing_slashes (out' ++ n) (length (out' ++ n))
               = out' ++ n).
  { rewrite Hq, app_assoc. now apply strip_trailing_slashes_none. }
  rewrite S1. rewrite length_app.
  rewrite last_element_start_app by auto.
  rewrite skipn_app, Nat.sub_diag, skipn_all. simpl.
  destruct n; [contradiction|reflexivity].
Qed.

(** The name [LoadSeeds] gives a seed is the name of the directory entry. *)
Lemma Base_Join (dir n : gostring) :
  valid_name n = true -> Base (Join [dir; n]) = n.
Proof.
  intros Hv. destruct (valid_name_spec n Hv) as (Hne & _).
  assert (H : exists out',
             Join [dir; n] = out' ++ n
             /\ (out' = [] \/ exists o, out' = o ++ ["/"%char])).
  { unfold Join. destruct dir as [|d dir].
    - destruct n as [|c n]; [contradiction|].
      apply Clean_last_element; auto.
    - apply Clean_last_element; auto. right.
      exists (d :: dir). reflexivity. }
  destruct H as (out' & -> & Ho). now apply Base_last_element.
Qed.

(* ------------------------------------------------------------------ *)
(** ** The order of the loaded seeds *)

(** Seeds in ascending order with distinct names are in strictly
    ascending order. *)
Lemma name_le_lt (l : list Seed) :
  StronglySorted name_le l -> NoDup (map Name l) -> StronglySorted name_lt l.
Proof.
  induction 1 as [|a l Hs IH Hall]; intros Hnd; [constructor|].
  simpl in Hnd. inversion Hnd as [|? ? Hnotin Hnd']; subst.
  constructor; [now apply IH|].
  rewrite Forall_forall in Hall |- *. intros b Hb.
  unfold name_lt. destruct (str_ltb (Name a) (Name b)) eqn:E; [reflexivity|].
  exfalso. apply Hnotin.
  rewrite (str_ltb_total (Name a) (Name b) E (Hall b Hb)).
  now apply in_map.
Qed.

(** A strictly ascending sequence is determined by its elements. *)
Lemma name_lt_unique (l1 l2 : list Seed) :
  StronglySorted name_lt l1 -> StronglySorted name_lt l2 ->
  Permutation l1 l2 -> l1 = l2.
Proof.
  intros H1. revert l2. induction H1 as [|a l1 Hs1 IH Hall1]; intros l2 H2 HP.
  - apply Permutation_nil in HP. now subst.
  - destruct H2 as [|b l2 Hs2 Hall2].
    + apply Permutation_sym, Permutation_nil in HP. discriminate.
    + assert (Eab : a = b).
      { assert (Ha : In a (b :: l2))
          by (eapply Permutation_in; [exact HP|now left]).
        assert (Hb : In b (a :: l1))
          by (eapply Permutation_in; [apply Permutation_sym; exact HP|now left]).
        destruct Ha as [->|Ha]; [reflexivity|].
        destruct Hb as [->|Hb]; [reflexivity|].
        rewrite Forall_forall in Hall1, Hall2.
        pose proof (Hall1 b Hb) as L1. pose proof (Hall2 a Ha) as L2.
        unfold name_lt in *. apply str_ltb_asym in L1. congruence. }
      subst b. f_equal. apply IH; [assumption|].
      eapply Permutation_cons_inv. exact HP.
Qed.

Lemma seed_of_cases (fsys : FS) (dir : gostring) (f : FileInfo) :
  (exists content,
     fs_ReadFile fsys (seed_path dir f) = inr content
     /\ seed_of fsys dir f
        = [mkSeed (Base (seed_path dir f)) (TrimSpace content)])
  \/ ((exists err, fs_ReadFile fsys (seed_path dir f) = inl err)
      /\ seed_of fsys dir f = []).
Proof.
  unfold seed_of. destruct (fs_ReadFile fsys (seed_path dir f)) as [e|c].
  - right. split; [now exists e|reflexivity].
  - left. now exists c.
Qed.

(** A seed of a listing comes from a selected entry and bears its name. *)
Lemma seeds_of_In (fsys : FS) (dir : gostring) (files : list FileInfo)
    (seed : Seed) :
  Forall (fun f => valid_name (fi_Name f) = true) files ->
  In seed (seeds_of fsys dir files) ->
  exists f content,
    In f files /\ selected f = true
    /\ fs_ReadFile fsys (seed_path dir f) = inr content
    /\ Name seed = fi_Name f /\ SQL seed = TrimSpace content.
Proof.
  intros Hv Hin. unfold seeds_of in Hin. apply in_flat_map in Hin.
  destruct Hin as (f & Hf & Hin). apply filter_In in Hf as [Hf Hsel].
  destruct (seed_of_cases fsys dir f) as [(c & Hc & E)|[_ E]];
    rewrite E in Hin; [|contradiction].
  destruct Hin as [<-|[]]. exists f, c. repeat split; auto.
  simpl. unfold seed_path. apply Base_Join.
  rewrite Forall_forall in Hv. now apply Hv.
Qed.

(** When every selected entry can be read, the seeds of a listing bear
    the names of its selected entries, in the same order. *)
Lemma seeds_of_names (fsys : FS) (dir : gostring) (files : list FileInfo) :
  Forall (fun f => valid_name (fi_Name f) = true) files ->
  Forall (fun f => selected f = true -> readable fsys dir f) files ->
  map Name (seeds_of fsys dir files) = map fi_Name (filter selected files).
Proof.
  unfold seeds_of. induction files as [|f files IH]; intros Hv Hr;
    [reflexivity|].
  inversion Hv; subst. inversion Hr as [|? ? Hf Hr']; subst.
  simpl. destruct (selected f) eqn:E; [|auto].
  simpl. rewrite map_app, IH by assumption. f_equal.
  destruct (Hf eq_refl) as [c Hc]. unfold seed_of. rewrite Hc. simpl.
  f_equal. now apply Base_Join.
Qed.

Lemma seeds_of_Permutation (fsys : FS) (dir : gostring)
    (files files2 : list FileInfo) :
  Permutation files files2 ->
  Permutation (seeds_of fsys dir files) (seeds_of fsys dir files2).
Proof.
  intros HP. unfold seeds_of.
  apply Permutation_flat_map. induction HP; simpl.
  - constructor.
  - destruct (selected x); [now constructor|assumption].
  - destruct (selected x), (selected y); try reflexivity.
    apply perm_swap.
  - etransitivity; eassumption.
Qed.

Lemma seeds_of_ext (fsys fsys2 : FS) (dir : gostring) (files : list FileInfo) :
  (forall p, fs_ReadFile fsys2 p = fs_ReadFile fsys p) ->
  seeds_of fsys2 dir files = seeds_of fsys dir files.
Proof.
  intros H. unfold seeds_of.
  induction (filter selected files) as [|f l IH]; [reflexivity|].
  simpl. rewrite IH. unfold seed_of. now rewrite H.
Qed.

(** Whatever the outcome, the loop has appended the seeds of a first part
    of the listing and has read selected entries only, in listing order. *)
Lemma LoadSeeds_loop_calls (DB : Type) (dir : gostring)
    (files : list FileInfo) (s : Seeder) (w : World DB) (st' : St DB)
    (r : option error) :
  LoadSeeds_loop dir files (s, w) = (st', r) ->
  exists done k,
    (exists rest, files = done ++ rest)
    /\ seeds (fst st') = seeds s ++ seeds_of (fs w) dir done
    /\ trace (snd st')
       = trace w
         ++ map ReadFileCall
              (firstn k (map (seed_path dir) (filter selected files))).
Proof.
  revert s w. induction files as [|f files IH]; intros s w; simpl.
  - intros [= <- <-]. exists [], 0. simpl. rewrite !app_nil_r.
    repeat split. now exists [].
  - change (str_eqb (Ext (fi_Name f)) (gs ".sql")) with (selected f).
    destruct (selected f) eqn:Esel.
    + rewrite parseSeedFile_spec.
      change (Join [dir; fi_Name f]) with (seed_path dir f).
      destruct (fs_ReadFile (fs w) (seed_path dir f)) as [err|c] eqn:R.
      * intros [= <- <-]. exists [], 1. simpl. rewrite app_nil_r.
        repeat split. now exists (f :: files).
      * intros H. apply IH in H as (done & k & [rest ->] & Hseeds & Htrace).
        exists (f :: done), (S k). simpl in *. repeat split.
        -- now exists rest.
        -- rewrite Hseeds. unfold seeds_of. simpl. rewrite Esel. simpl.
           unfold seed_of at 2. rewrite R. now rewrite <- app_assoc.
        -- rewrite Htrace. now rewrite <- app_assoc.
    + intros H. apply IH in H as (done & k & [rest ->] & Hseeds & Htrace).
      exists (f :: done), k. repeat split.
      * now exists rest.
      * rewrite Hseeds. unfold seeds_of. simpl. now rewrite Esel.
      * exact Htrace.
Qed.

Section LoadOrder.

Variable DB : Type.
Variable sort_Slice : forall A : Type, (A -> A -> bool) -> list A -> list A.

(** The contract of [sort.Slice]: the slice is permuted, and under a
    strict weak ordering no element ends up before a smaller one.  The
    sort need not be stable. *)
Hypothesis sort_Slice_Permutation :
  forall (A : Type) (less : A -> A -> bool) (l : list A),
    Permutation l (sort_Slice A less l).
Hypothesis sort_Slice_sorted :
  forall (A : Type) (less : A -> A -> bool) (l : list A),
    strict_weak_order less -> sorted_by less (sort_Slice A less l).

(** What a successful [LoadSeeds] did. *)
Lemma LoadSeeds_success (dir : gostring) (s : Seeder) (w : World DB)
    (st' : St DB) :
  LoadSeeds sort_Slice dir (s, w) = (st', None) ->
  exists files,
    fs_ReadDir (fs w) dir = inr files
    /\ Forall (fun f => selected f = true -> readable (fs w) dir f) files
    /\ st' = (mkSeeder
                (sort_Slice Seed seed_less
                   (seeds s ++ seeds_of (fs w) dir files)),
              mkWorld (fs w) (dbst w)
                (trace w ++ ReadDirCall dir
                   :: map ReadFileCall
                        (map (seed_path dir) (filter selected files)))).
Proof.
  unfold LoadSeeds, ioutil_ReadDir.
  destruct (fs_ReadDir (fs w) dir) as [err|files] eqn:Hdir; [discriminate|].
  destruct (LoadSeeds_loop dir files (s, emit (ReadDirCall dir) w))
    as [[s2 w2] [e|]] eqn:Hloop; [discriminate|].
  intros [= <-]. exists files. split; [reflexivity|].
  pose proof (LoadSeeds_loop_success _ _ _ _ _ _ Hloop) as Hr.
  simpl in Hr. split; [exact Hr|].
  rewrite (LoadSeeds_loop_ok DB dir files s (emit (ReadDirCall dir) w)) in Hloop
    by exact Hr.
  injection Hloop as <- <-. simpl. now rewrite <- app_assoc.
Qed.

(** What [LoadSeeds] does when every selected entry can be read. *)
Lemma LoadSeeds_ok (dir : gostring) (s : Seeder) (w : World DB)
    (files : list FileInfo) :
  fs_ReadDir (fs w) dir = inr files ->
  Forall (fun f => selected f = true -> readable (fs w) dir f) files ->
  LoadSeeds sort_Slice dir (s, w)
  = ((mkSeeder
        (sort_Slice Seed seed_less (seeds s ++ seeds_of (fs w) dir files)),
      mkWorld (fs w) (dbst w)
        (trace w ++ ReadDirCall dir
           :: map ReadFileCall (map (seed_path dir) (filter selected files)))),
     None).
Proof.
  intros Hdir Hr. unfold LoadSeeds, ioutil_ReadDir. rewrite Hdir.
  rewrite (LoadSeeds_loop_ok DB dir files s (emit (ReadDirCall dir) w))
    by exact Hr.
  simpl. now rewrite <- app_assoc.
Qed.

(** What [sort.Slice] makes of a sequence of seeds. *)
Lemma sort_Slice_seeds_sorted (l : list Seed) :
  StronglySorted name_le (sort_Slice Seed seed_less l).
Proof.
  apply (sort_Slice_sorted Seed seed_less).
  exact seed_less_strict_weak_order.
Qed.

(** C9.  After every [LoadSeeds] that returns success, the whole sequence
    of seeds of the Seeder, those of earlier loads included, is in
    ascending order of name. *)
Theorem LoadSeeds_sorted (dir : gostring) (st st' : St DB) :
  LoadSeeds sort_Slice dir st = (st', None) ->
  StronglySorted name_le (seeds (fst st')).
Proof.
  destruct st as [s w]. intros H.
  apply LoadSeeds_success in H as (files & _ & _ & ->).
  cbn [fst seeds]. apply sort_Slice_seeds_sorted.
Qed.

(** C4, amended.  A [LoadSeeds] that succeeds on a Seeder that holds
    seeds keeps them and adds the seeds of the selected entries (loads
    accumulate), and then sorts the whole sequence, old seeds and new
    together, by name: the result is the old sequence followed by the new
    seeds, rearranged into ascending order. *)
Theorem LoadSeeds_accumulates_and_sorts
    (dir : gostring) (s : Seeder) (w : World DB) (st' : St DB) :
  LoadSeeds sort_Slice dir (s, w) = (st', None) ->
  exists files,
    fs_ReadDir (fs w) dir = inr files
    /\ Permutation (seeds s ++ seeds_of (fs w) dir files) (seeds (fst st'))
    /\ StronglySorted name_le (seeds (fst st')).
Proof.
  intros H. apply LoadSeeds_success in H as (files & Hdir & _ & ->).
  exists files. cbn [fst seeds]. repeat split.
  - assumption.
  - apply sort_Slice_Permutation.
  - apply sort_Slice_seeds_sorted.
Qed.

(** C2.  On a fresh Seeder, for a directory whose entries have distinct
    names, a [LoadSeeds] that succeeds leaves the seeds in strictly
    ascending order of name; and the result does not depend on the order
    of the listing: with the same files listed in any other order, the
    load succeeds with the same sequence of seeds. *)
Theorem LoadSeeds_fresh_strictly_sorted
    (dir : gostring) (w w2 : World DB) (files files2 : list FileInfo)
    (st' : St DB) :
  fs_ReadDir (fs w) dir = inr files ->
  Forall (fun f => valid_name (fi_Name f) = true) files ->
  NoDup (map fi_Name files) ->
  LoadSeeds sort_Slice dir (NewSeeder, w) = (st', None) ->
  fs_ReadDir (fs w2) dir = inr files2 ->
  Permutation files files2 ->
  (forall p, fs_ReadFile (fs w2) p = fs_ReadFile (fs w) p) ->
  StronglySorted name_lt (seeds (fst st'))
  /\ exists st2',
       LoadSeeds sort_Slice dir (NewSeeder, w2) = (st2', None)
       /\ seeds (fst st2') = seeds (fst st').
Proof.
  intros Hdir Hv Hnd H Hdir2 HP Hfs.
  apply LoadSeeds_success in H as (files' & Hdir' & Hr & ->).
  rewrite Hdir in Hdir'. injection Hdir' as <-.
  pose proof (sort_Slice_seeds_sorted
                (seeds NewSeeder ++ seeds_of (fs w) dir files)) as Hs.
  simpl in Hs.
  assert (Hnames : NoDup (map Name (seeds_of (fs w) dir files))).
  { rewrite seeds_of_names by assumption.
    clear - Hnd. induction files as [|f files IH]; simpl; [constructor|].
    simpl in Hnd. inversion Hnd as [|? ? Hn Hnd']; subst.
    destruct (selected f); [|auto]. simpl. constructor; [|auto].
    intros Hin. apply Hn. apply in_map_iff in Hin as (g & E & Hg).
    apply filter_In in Hg as [Hg _]. apply in_map_iff. eauto. }
  assert (Hstrict : forall l,
             Permutation (seeds_of (fs w) dir files) l ->
             StronglySorted name_le l -> StronglySorted name_lt l).
  { intros l Hp Hl. apply name_le_lt; [assumption|].
    eapply Permutation_NoDup; [|exact Hnames].
    now apply Permutation_map. }
  split.
  - apply Hstrict; [apply sort_Slice_Permutation|assumption].
  - assert (Hr2 : Forall (fun f => selected f = true
                                   -> readable (fs w2) dir f) files2).
    { rewrite Forall_forall in Hr |- *. intros f Hf Hsel.
      destruct (Hr f) as [c Hc]; auto.
      - eapply Permutation_in; [apply Permutation_sym; exact HP|exact Hf].
      - exists c. now rewrite Hfs. }
    eexists. split; [exact (LoadSeeds_ok dir NewSeeder w2 files2 Hdir2 Hr2)|].
    simpl.
    rewrite (seeds_of_ext (fs w) (fs w2)) by assumption.
    assert (HP2 : Permutation (seeds_of (fs w) dir files)
                    (seeds_of (fs w) dir files2))
      by now apply seeds_of_Permutation.
    apply name_lt_unique.
    + apply Hstrict.
      * rewrite HP2. apply sort_Slice_Permutation.
      * apply sort_Slice_seeds_sorted.
    + apply Hstrict; [apply sort_Slice_Permutation|assumption].
    + rewrite <- !sort_Slice_Permutation. now symmetry.
Qed.

(** C7.  [LoadSeeds] selects the entries of the listing whose extension
    is exactly [.sql], that is, the entries whose name ends in the four
    bytes [.sql]: whatever the outcome, it lists the directory itself and
    no other, and reads, in listing order, the paths of selected entries
    only; every seed it adds bears the name of a selected entry; and when
    it succeeds, the seeds added are one for each selected entry. *)
Theorem LoadSeeds_selects_sql_entries
    (dir : gostring) (s : Seeder) (w : World DB) (files : list FileInfo)
    (st' : St DB) (r : option error) :
  fs_ReadDir (fs w) dir = inr files ->
  Forall (fun f => valid_name (fi_Name f) = true) files ->
  LoadSeeds sort_Slice dir (s, w) = (st', r) ->
  (forall f, selected f = true <-> exists stem, fi_Name f = stem ++ gs ".sql")
  /\ (exists k,
        trace (snd st')
        = trace w ++ ReadDirCall dir
            :: map ReadFileCall
                 (firstn k (map (seed_path dir) (filter selected files))))
  /\ (forall seed,
        In seed (seeds (fst st')) ->
        In seed (seeds s)
        \/ exists f,
             In f files /\ selected f = true /\ Name seed = fi_Name f)
  /\ (r = None ->
       Permutation (map Name (seeds (fst st')))
         (map Name (seeds s) ++ map fi_Name (filter selected files))).
Proof.
  intros Hdir Hv H. split; [exact selected_iff|].
  assert (Hfrom : forall done rest seed,
             files = done ++ rest ->
             In seed (seeds s ++ seeds_of (fs w) dir done) ->
             In seed (seeds s)
             \/ exists f,
                  In f files /\ selected f = true /\ Name seed = fi_Name f).
  { intros done rest seed -> Hin. apply in_app_or in Hin as [Hin|Hin];
      [now left|right].
    apply Forall_app in Hv as [Hv _].
    apply seeds_of_In in Hin as (f & c & Hf & Hsel & _ & Hn & _);
      [|assumption].
    exists f. repeat split; auto. apply in_or_app. now left. }
  split; [|split].
  - unfold LoadSeeds, ioutil_ReadDir in H. rewrite Hdir in H.
    destruct (LoadSeeds_loop dir files (s, emit (ReadDirCall dir) w))
      as [[s2 w2] o] eqn:Hloop.
    apply LoadSeeds_loop_calls in Hloop as (done & k & _ & _ & Ht).
    simpl in Ht. exists k.
    destruct o; injection H as <- <-; simpl; rewrite Ht;
      now rewrite <- app_assoc.
  - unfold LoadSeeds, ioutil_ReadDir in H. rewrite Hdir in H.
    destruct (LoadSeeds_loop dir files (s, emit (ReadDirCall dir) w))
      as [[s2 w2] o] eqn:Hloop.
    apply LoadSeeds_loop_calls in Hloop as (done & k & [rest Hd] & Hs & _).
    simpl in Hs. intros seed Hin. apply (Hfrom done rest); [assumption|].
    rewrite <- Hs.
    destruct o; injection H as <- <-; simpl in Hin; [assumption|].
    eapply Permutation_in; [|exact Hin].
    apply Permutation_sym, sort_Slice_Permutation.
  - intros ->. apply LoadSeeds_success in H as (files' & Hdir' & Hr & ->).
    rewrite Hdir in Hdir'. injection Hdir' as <-. simpl.
    rewrite <- sort_Slice_Permutation, map_app.
    now rewrite seeds_of_names.
Qed.

End LoadOrder.

(* ------------------------------------------------------------------ *)
(** ** Decoding UTF-8 *)

Lemma byte_at_0 (c : ascii) (s : gostring) : byte_at (c :: s) 0 = b2n c.
Proof. reflexivity. Qed.

Lemma byte_at_S (c : ascii) (s : gostring) (i : nat) :
  byte_at (c :: s) (S i) = byte_at s i.
Proof. reflexivity. Qed.

Lemma byte_at_app1 (a b : gostring) (i : nat) :
  i < length a -> byte_at (a ++ b) i = byte_at a i.
Proof. intros H. unfold byte_at. now rewrite app_nth1. Qed.

Lemma byte_at_firstn (s : gostring) (n i : nat) :
  i < n -> byte_at (firstn n s) i = byte_at s i.
Proof.
  revert n i. induction s as [|c s IH]; intros [|n] [|i] H; try lia;
    try reflexivity.
  simpl firstn. rewrite !byte_at_S. apply IH. lia.
Qed.

Lemma DecodeRuneInString_bytes (s : gostring) :
  s <> [] ->
  DecodeRuneInString s
  = decode_bytes (length s) (byte_at s 0) (byte_at s 1) (byte_at s 2)
      (byte_at s 3).
Proof. destruct s; [congruence|reflexivity]. Qed.

(** The classes of first bytes. *)
Lemma first_cases (b : N) :
  ((b < 0x80)%N /\ first b = 0xF0%N)
  \/ ((0x80 <= b)%N
      /\ (first b = 0xF1 \/ first b = 0x02 \/ first b = 0x13 \/ first b = 0x03
          \/ first b = 0x23 \/ first b = 0x34 \/ first b = 0x04
          \/ first b = 0x44)%N).
Proof.
  unfold first.
  repeat match goal with
         | |- context [(?a <? ?c)%N] => destruct (N.ltb_spec a c)
         | |- context [(?a =? ?c)%N] => destruct (N.eqb_spec a c)
         end; try (left; split; [lia|reflexivity]);
    right; (split; [lia|]); tauto.
Qed.

Ltac first_byte b :=
  let Hlt := fresh "Hlt" in
  let Hge := fresh "Hge" in
  let Hx := fresh "Hx" in
  destruct (first_cases b)
    as [[Hlt Hx]|[Hge [Hx|[Hx|[Hx|[Hx|[Hx|[Hx|[Hx|Hx]]]]]]]]];
  rewrite Hx.

Ltac split_tests :=
  repeat match goal with
         | |- context [(?a <? ?c)%N || (?d <? ?e)%N] =>
             destruct ((a <? c)%N || (d <? e)%N) eqn:?
         | |- context [?a <? ?c] => destruct (Nat.ltb_spec a c)
         end.

(** A whole decoding depends on the bytes it spans only. *)
Lemma decode_bytes_whole (len : nat) (s0 s1 s2 s3 : N) (r : rune) (n : nat) :
  0 < len ->
  decode_bytes len s0 s1 s2 s3 = (r, n) ->
  whole s0 n ->
  1 <= n <= len
  /\ forall len' s1' s2' s3',
       n <= len' ->
       (2 <= n -> s1' = s1) -> (3 <= n -> s2' = s2) -> (4 <= n -> s3' = s3) ->
       decode_bytes len' s0 s1' s2' s3' = (r, n).
Proof.
  intros Hlen. unfold decode_bytes, whole.
  first_byte s0; cbn -[N.ltb Nat.ltb];
    split_tests; intros [= <- <-] [Hw|Hw]; try lia;
    (split; [lia|]); intros len' s1' s2' s3' Hl H1 H2 H3;
    try rewrite H1 by lia; try rewrite H2 by lia; try rewrite H3 by lia;
    repeat match goal with
           | H : (_ || _) = _ |- _ => rewrite H
           end;
    repeat match goal with
           | |- context [?a <? ?c] =>
               destruct (Nat.ltb_spec a c); [lia|]
           end; reflexivity.
Qed.

(** A decoding spans at least one byte and no more than there are, and
    when it is not whole it is the error rune on one byte. *)
Lemma decode_bytes_width (len : nat) (s0 s1 s2 s3 : N) (r : rune) (n : nat) :
  0 < len ->
  decode_bytes len s0 s1 s2 s3 = (r, n) ->
  1 <= n <= len /\ (whole s0 n \/ (r = RuneError /\ n = 1)).
Proof.
  intros Hlen. unfold decode_bytes, whole.
  first_byte s0; cbn -[N.ltb Nat.ltb]; split_tests; intros [= <- <-];
    (split; [lia|]); auto; right; lia.
Qed.

Lemma DecodeRuneInString_width (s : gostring) (r : rune) (n : nat) :
  s <> [] ->
  DecodeRuneInString s = (r, n) ->
  1 <= n <= length s /\ (whole (byte_at s 0) n \/ (r = RuneError /\ n = 1)).
Proof.
  intros Hs. rewrite DecodeRuneInString_bytes by assumption.
  apply decode_bytes_width. destruct s; [congruence|simpl; lia].
Qed.

Lemma firstn_eq_byte_at (s s' : gostring) (n i : nat) :
  firstn n s' = firstn n s -> i < n -> byte_at s' i = byte_at s i.
Proof.
  intros H Hi. rewrite <- (byte_at_firstn s' n i Hi), H.
  now apply byte_at_firstn.
Qed.

(** A whole decoding is the decoding of every string that begins with
    the same bytes. *)
Lemma DecodeRuneInString_whole (s s' : gostring) (r : rune) (n : nat) :
  s <> [] ->
  DecodeRuneInString s = (r, n) ->
  whole (byte_at s 0) n ->
  firstn n s' = firstn n s ->
  DecodeRuneInString s' = (r, n).
Proof.
  intros Hs Hd Hw Hf.
  assert (Hlen : 0 < length s) by (destruct s; [congruence|simpl; lia]).
  rewrite DecodeRuneInString_bytes in Hd by assumption.
  destruct (decode_bytes_whole _ _ _ _ _ _ _ Hlen Hd Hw) as [Hn Hall].
  assert (Hlen' : n <= length s').
  { apply (f_equal (@length ascii)) in Hf. rewrite !length_firstn in Hf. lia. }
  assert (Hs' : s' <> []) by (destruct s'; [simpl in Hlen'; lia|congruence]).
  rewrite DecodeRuneInString_bytes by assumption.
  rewrite (firstn_eq_byte_at s s' n 0 Hf) by lia.
  apply Hall; [assumption| | |]; intros; apply (firstn_eq_byte_at s s' n);
    auto; lia.
Qed.

(** The decoding of a white-space rune is whole. *)
Lemma space_is_whole (s : gostring) (r : rune) (n : nat) :
  DecodeRuneInString s = (r, n) -> IsSpace r = true ->
  s <> [] /\ 1 <= n <= length s /\ whole (byte_at s 0) n.
Proof.
  intros Hd Hsp.
  assert (Hs : s <> []).
  { intros ->. simpl in Hd. injection Hd as <- <-. discriminate. }
  destruct (DecodeRuneInString_width s r n Hs Hd) as [Hn [Hw|[-> _]]];
    [auto|discriminate].
Qed.

(** White space at the front of a string is white space on its own, and
    stays the front of every longer string. *)
Lemma space_encoding_firstn (s : gostring) (r : rune) (n : nat) :
  DecodeRuneInString s = (r, n) -> IsSpace r = true ->
  space_encoding (firstn n s).
Proof.
  intros Hd Hsp. destruct (space_is_whole s r n Hd Hsp) as (Hs & Hn & Hw).
  split.
  - destruct s; [congruence|]. destruct n; [lia|discriminate].
  - exists r. split; [|assumption].
    rewrite length_firstn, Nat.min_l by lia.
    apply (DecodeRuneInString_whole s); auto.
    apply firstn_firstn_same || (rewrite firstn_firstn; f_equal; lia).
Qed.

Lemma space_encoding_app (chunk rest : gostring) :
  space_encoding chunk ->
  exists r,
    DecodeRuneInString (chunk ++ rest) = (r, length chunk)
    /\ IsSpace r = true.
Proof.
  intros [Hne (r & Hd & Hsp)]. exists r. split; [|assumption].
  destruct (space_is_whole chunk r _ Hd Hsp) as (_ & _ & Hw).
  apply (DecodeRuneInString_whole chunk); auto.
  rewrite firstn_app, Nat.sub_diag, firstn_all. simpl. now rewrite app_nil_r.
Qed.

Lemma white_app (a b : gostring) : white a -> white b -> white (a ++ b).
Proof.
  induction 1 as [|chunk rest Hc Hr IH]; intros Hb; [assumption|].
  rewrite <- app_assoc. constructor; auto.
Qed.

Lemma white_chunk (chunk : gostring) : space_encoding chunk -> white chunk.
Proof.
  intros H. rewrite <- (app_nil_r chunk). constructor; [assumption|constructor].
Qed.

(** White space does not begin with a continuation byte. *)
Lemma white_first_byte (w : gostring) :
  white w -> w <> [] ->
  (byte_at w 0 < 0x80)%N \/ (0xC0 <= byte_at w 0)%N.
Proof.
  induction 1 as [|chunk rest Hc Hr IH]; intros Hne; [congruence|].
  destruct (space_encoding_app chunk rest Hc) as (r & Hd & Hsp).
  destruct Hc as [Hcne _].
  rewrite DecodeRuneInString_bytes in Hd
    by (destruct chunk; [congruence|discriminate]).
  revert Hd. generalize (byte_at (chunk ++ rest) 0) as s0.
  intros s0. unfold decode_bytes.
  destruct (N.ltb_spec s0 0x80) as [L|G]; [now left|].
  destruct (N.leb_spec 0xC0 s0) as [L2|G2]; [now right|].
  assert (E : first s0 = 0xF1%N).
  { unfold first.
    destruct (N.ltb_spec s0 0x80); [lia|].
    destruct (N.ltb_spec s0 0xC2); [reflexivity|lia]. }
  rewrite E. cbn. intros [= <- _]. discriminate.
Qed.

(** After a byte that is not ASCII, a byte that is not a continuation byte
    ends the decoding at one byte. *)
Lemma decode_bytes_no_continuation (len : nat) (s0 s1 s2 s3 : N) :
  (0x80 <= s0)%N -> (s1 < 0x80)%N \/ (0xC0 <= s1)%N ->
  snd (decode_bytes len s0 s1 s2 s3) = 1.
Proof.
  intros H0 H1. unfold decode_bytes.
  first_byte s0; try lia; cbn -[N.ltb Nat.ltb];
    try reflexivity;
    match goal with
    | |- context [len <? ?k] => destruct (Nat.ltb_spec len k)
    end; try reflexivity;
    match goal with
    | |- context [(?a <? ?c)%N || (?d <? ?e)%N] =>
        replace ((a <? c)%N || (d <? e)%N) with true
    end; try reflexivity;
    symmetry; apply orb_true_iff;
    (destruct H1; [left; apply N.ltb_lt; lia|right; apply N.ltb_lt; lia]).
Qed.

(** The width of a decoding that spans a whole chunk is the same when
    white space follows the chunk. *)
Lemma width_before_white (chunk rest : gostring) (r : rune) :
  chunk <> [] ->
  DecodeRuneInString chunk = (r, length chunk) ->
  white rest ->
  snd (DecodeRuneInString (chunk ++ rest)) = length chunk.
Proof.
  intros Hne Hd Hw.
  destruct (DecodeRuneInString_width chunk r _ Hne Hd) as [_ [Hwh|[_ H1]]].
  - rewrite (DecodeRuneInString_whole chunk (chunk ++ rest) r (length chunk));
      auto.
    rewrite firstn_app, Nat.sub_diag, firstn_all. simpl. now rewrite app_nil_r.
  - destruct chunk as [|c [|c' chunk]]; try discriminate.
    destruct (N.ltb_spec (b2n c) 0x80) as [L|G].
    + rewrite (DecodeRuneInString_whole [c] ([c] ++ rest) r 1); auto.
      now left.
    + destruct rest as [|d rest]; [rewrite app_nil_r; now rewrite Hd|].
      rewrite DecodeRuneInString_bytes by discriminate.
      simpl app. rewrite byte_at_0, byte_at_S.
      apply decode_bytes_no_continuation; [assumption|].
      apply white_first_byte; [assumption|discriminate].
Qed.

Lemma skipn_last (t : gostring) (m : nat) :
  length t = S m -> skipn m t = [nth m t zero].
Proof.
  revert m. induction t as [|c t IH]; intros m H; [discriminate|].
  destruct m as [|m].
  - destruct t; [reflexivity|discriminate].
  - simpl. apply IH. simpl in H. lia.
Qed.

Lemma rune_start_scan_le (s : gostring) (lim k : nat) :
  rune_start_scan s lim k <= k.
Proof.
  induction k as [|k IH]; simpl; [lia|].
  destruct (lim <=? k); [|lia].
  destruct (RuneStart (byte_at s k)); lia.
Qed.

Lemma DecodeRuneInString_single (c : ascii) :
  exists r, DecodeRuneInString [c] = (r, 1).
Proof.
  destruct (DecodeRuneInString [c]) as [r n] eqn:E.
  destruct (DecodeRuneInString_width [c] r n) as [Hn _];
    [discriminate|assumption|].
  simpl in Hn. exists r. f_equal. lia.
Qed.

Lemma DecodeRuneInString_ascii (c : ascii) (s : gostring) :
  (b2n c < 0x80)%N -> DecodeRuneInString (c :: s) = (b2n c, 1).
Proof.
  intros H. rewrite DecodeRuneInString_bytes by discriminate.
  rewrite byte_at_0. unfold decode_bytes.
  first_byte (b2n c); try lia. reflexivity.
Qed.

(** What [DecodeLastRuneInString] returns: a width, at least one byte and
    no more than there are, such that the bytes it spans decode at that
    width from the front, to the rune returned when that is white space. *)
Lemma DecodeLastRuneInString_spec (t : gostring) (r : rune) (size : nat) :
  t <> [] ->
  DecodeLastRuneInString t = (r, size) ->
  1 <= size <= length t
  /\ exists r',
       DecodeRuneInString (skipn (length t - size) t) = (r', size)
       /\ (IsSpace r = true -> r' = r).
Proof.
  intros Hne. unfold DecodeLastRuneInString.
  destruct (length t) as [|start] eqn:Hlen.
  { destruct t; [congruence|discriminate]. }
  assert (Hlast : skipn start t = [nth start t zero])
    by now apply skipn_last.
  destruct (N.ltb_spec (byte_at t start) RuneSelf) as [L|G].
  - intros [= <- <-]. split; [lia|].
    replace (S start - 1) with start by lia. rewrite Hlast.
    exists (byte_at t start). split; [|reflexivity].
    now apply DecodeRuneInString_ascii.
  - set (start' := pred (rune_start_scan t (S start - UTFMax) start)).
    assert (Hs' : start' <= start).
    { unfold start'.
      pose proof (rune_start_scan_le t (S start - UTFMax) start). lia. }
    assert (Hslice : slice t start' (S start) = skipn start' t).
    { unfold slice. apply firstn_all2. rewrite length_skipn. lia. }
    rewrite Hslice.
    destruct (DecodeRuneInString (skipn start' t)) as [r1 size1] eqn:Hd.
    destruct (start' + size1 =? S start) eqn:E; simpl negb; cbv iota.
    + apply Nat.eqb_eq in E. intros [= <- <-].
      assert (Hne' : skipn start' t <> []).
      { intros H0. apply (f_equal (@length ascii)) in H0.
        rewrite length_skipn in H0. simpl in H0. lia. }
      destruct (DecodeRuneInString_width _ _ _ Hne' Hd) as [Hn _].
      split; [lia|]. replace (S start - size1) with start' by lia.
      exists r1. now split.
    + intros [= <- <-]. split; [lia|].
      replace (S start - 1) with start by lia. rewrite Hlast.
      destruct (DecodeRuneInString_single (nth start t zero)) as [r' Hr'].
      exists r'. split; [assumption|discriminate].
Qed.

(* ------------------------------------------------------------------ *)
(** ** Trimming white space *)

Lemma firstn_add (s : gostring) (i n : nat) :
  firstn (i + n) s = firstn i s ++ firstn n (skipn i s).
Proof.
  revert s. induction i as [|i IH]; intros s; [reflexivity|].
  destruct s as [|c s]; simpl.
  - now rewrite firstn_nil.
  - now rewrite IH.
Qed.

Lemma skipn_firstn_skipn (s : gostring) (a b : nat) :
  a <= b -> b <= length s ->
  skipn a s = skipn a (firstn b s) ++ skipn b s.
Proof.
  intros Hab Hb. rewrite <- (firstn_skipn b s) at 1.
  rewrite skipn_app, length_firstn, Nat.min_l by assumption.
  replace (a - b) with 0 by lia. reflexivity.
Qed.

Lemma skipn_nth (p : gostring) (m : nat) :
  m < length p -> skipn m p = nth m p zero :: skipn (S m) p.
Proof.
  revert m. induction p as [|c p IH]; intros m H; [simpl in H; lia|].
  destruct m as [|m]; [reflexivity|].
  simpl in *. apply IH. lia.
Qed.

Lemma slice_0 (s : gostring) (i : nat) : slice s 0 i = firstn i s.
Proof. unfold slice. now rewrite Nat.sub_0_r. Qed.

Lemma asciiSpace_IsSpace (c : N) :
  (c < 0x80)%N -> IsSpace c = asciiSpace c.
Proof.
  intros H. rewrite <- (N2Nat.id c).
  assert (Hn : N.to_nat c < 128) by lia.
  generalize dependent (N.to_nat c). clear. intros n Hn.
  do 128 (destruct n as [|n]; [reflexivity|]). lia.
Qed.

Lemma ascii_space_encoding (c : ascii) :
  (b2n c < 0x80)%N -> asciiSpace (b2n c) = true -> space_encoding [c].
Proof.
  intros H1 H2. split; [discriminate|]. exists (b2n c). split.
  - now apply DecodeRuneInString_ascii.
  - now rewrite asciiSpace_IsSpace.
Qed.

(** The first rune of [u ++ post] is white space when that of [u] is. *)
Lemma first_rune_kept (u post : gostring) :
  IsSpace (fst (DecodeRuneInString (u ++ post))) = false ->
  IsSpace (fst (DecodeRuneInString u)) = false.
Proof.
  intros H. destruct (DecodeRuneInString u) as [r n] eqn:Hd. simpl.
  destruct (IsSpace r) eqn:Hsp; [|reflexivity].
  destruct (space_is_whole u r n Hd Hsp) as (Hne & Hn & Hw).
  rewrite (DecodeRuneInString_whole u (u ++ post) r n) in H; auto.
  - simpl in H. congruence.
  - rewrite firstn_app. replace (n - length u) with 0 by lia.
    simpl. now rewrite app_nil_r.
Qed.

Lemma indexFunc_loop_spec (s : gostring) (fuel i : nat) :
  i <= length s -> length s - i <= fuel -> white (firstn i s) ->
  match indexFunc_loop fuel s IsSpace false i with
  | None => white s
  | Some j =>
      j < length s /\ white (firstn j s)
      /\ IsSpace (fst (DecodeRuneInString (skipn j s))) = false
  end.
Proof.
  revert i. induction fuel as [|fuel IH]; intros i Hi Hfuel Hw.
  - simpl. replace i with (length s) in Hw by lia.
    now rewrite firstn_all in Hw.
  - cbn [indexFunc_loop]. destruct (Nat.leb_spec (length s) i) as [L|L].
    { replace i with (length s) in Hw by lia.
      now rewrite firstn_all in Hw. }
    destruct (DecodeRuneInString (skipn i s)) as [r size] eqn:Hd.
    destruct (IsSpace r) eqn:Hsp; simpl Bool.eqb; cbv iota.
    + destruct (space_is_whole _ r size Hd Hsp) as (_ & Hn & _).
      rewrite length_skipn in Hn.
      apply IH; [lia|lia|].
      rewrite firstn_add. apply white_app; [assumption|].
      apply white_chunk. now apply (space_encoding_firstn _ r).
    + repeat split; [assumption|assumption|]. now rewrite Hd.
Qed.

(** [TrimLeftFunc] takes white space off the front, all of it. *)
Lemma TrimLeftFunc_spec (s : gostring) :
  exists pre,
    s = pre ++ TrimLeftFunc s IsSpace
    /\ white pre
    /\ (TrimLeftFunc s IsSpace = []
        \/ IsSpace (fst (DecodeRuneInString (TrimLeftFunc s IsSpace))) = false).
Proof.
  unfold TrimLeftFunc, indexFunc.
  pose proof (indexFunc_loop_spec s (length s) 0) as H.
  destruct (indexFunc_loop (length s) s IsSpace false 0) as [j|].
  - destruct H as (Hj & Hw & Hsp); [lia|lia|constructor|].
    exists (firstn j s). repeat split; auto.
    symmetry. apply firstn_skipn.
  - exists s. rewrite app_nil_r. repeat split; auto.
    apply H; [lia|lia|constructor].
Qed.

Lemma lastIndexFunc_loop_spec (s : gostring) (fuel i : nat) :
  i <= length s -> i <= fuel -> white (skipn i s) ->
  match lastIndexFunc_loop fuel s IsSpace false i with
  | None => white s
  | Some j =>
      exists r size,
        1 <= size /\ j + size <= length s
        /\ white (skipn (j + size) s)
        /\ DecodeLastRuneInString (firstn (j + size) s) = (r, size)
        /\ IsSpace r = false
  end.
Proof.
  revert i. induction fuel as [|fuel IH]; intros i Hi Hfuel Hw.
  - simpl. now replace i with 0 in Hw by lia.
  - cbn [lastIndexFunc_loop]. destruct (Nat.eqb_spec i 0) as [->|Hi0];
      [assumption|].
    rewrite slice_0.
    destruct (DecodeLastRuneInString (firstn i s)) as [r size] eqn:Hd.
    assert (Hlen : length (firstn i s) = i)
      by (rewrite length_firstn; lia).
    assert (Hne : firstn i s <> []).
    { intros E. rewrite E in Hlen. simpl in Hlen. lia. }
    destruct (DecodeLastRuneInString_spec _ r size Hne Hd)
      as (Hn & r' & Hd' & Hr').
    rewrite Hlen in Hn, Hd'.
    destruct (IsSpace r) eqn:Hsp; simpl Bool.eqb; cbv iota.
    + apply IH; [lia|lia|].
      rewrite (skipn_firstn_skipn s (i - size) i) by lia.
      constructor; [|assumption].
      assert (Hcl : length (skipn (i - size) (firstn i s)) = size)
        by (rewrite length_skipn; lia).
      split.
      * intros E. rewrite E in Hcl. simpl in Hcl. lia.
      * exists r. rewrite Hcl. rewrite (Hr' eq_refl) in Hd'. now split.
    + exists r, size. replace (i - size + size) with i by lia.
      repeat split; auto; lia.
Qed.

(** [TrimRightFunc] takes white space off the end, all of it. *)
Lemma TrimRightFunc_spec (t : gostring) :
  exists post,
    t = TrimRightFunc t IsSpace ++ post
    /\ white post
    /\ (TrimRightFunc t IsSpace = []
        \/ IsSpace (fst (DecodeLastRuneInString (TrimRightFunc t IsSpace)))
           = false).
Proof.
  unfold TrimRightFunc, lastIndexFunc.
  pose proof (lastIndexFunc_loop_spec t (length t) (length t)) as H.
  destruct (lastIndexFunc_loop (length t) t IsSpace false (length t)) as [j|].
  - destruct H as (r & size & Hsz & Hj & Hw & Hd & Hsp);
      [lia|lia|rewrite skipn_all; constructor|].
    set (u := firstn (j + size) t) in *.
    assert (Hlen : length u = j + size)
      by (unfold u; rewrite length_firstn; lia).
    assert (Hne : u <> []).
    { intros E. rewrite E in Hlen. simpl in Hlen. lia. }
    destruct (DecodeLastRuneInString_spec u r size Hne Hd)
      as (_ & r' & Hd' & _).
    rewrite Hlen in Hd'. replace (j + size - size) with j in Hd' by lia.
    set (chunk := skipn j u) in *.
    assert (Hcl : length chunk = size)
      by (unfold chunk; rewrite length_skipn; lia).
    assert (Hcne : chunk <> []).
    { intros E. rewrite E in Hcl. simpl in Hcl. lia. }
    assert (Hsplit : skipn j t = chunk ++ skipn (j + size) t).
    { unfold chunk, u. apply skipn_firstn_skipn; lia. }
    assert (Hres : (if (RuneSelf <=? byte_at t j)%N
                    then let '(_, wid) := DecodeRuneInString (skipn j t) in
                         slice t 0 (j + wid)
                    else slice t 0 (j + 1)) = u).
    { destruct (N.leb_spec RuneSelf (byte_at t j)) as [G|L].
      - pose proof (width_before_white chunk (skipn (j + size) t) r' Hcne) as W.
        rewrite Hcl in W. rewrite <- Hsplit in W.
        destruct (DecodeRuneInString (skipn j t)) as [r0 wid].
        simpl in W. rewrite W by assumption. apply slice_0.
      - rewrite slice_0. unfold u. f_equal. f_equal.
        destruct chunk as [|c chunk'] eqn:Ec; [congruence|].
        assert (Hc : b2n c = byte_at t j).
        { unfold byte_at. rewrite <- (Nat.add_0_r j) at 1.
          rewrite <- nth_skipn, Hsplit. reflexivity. }
        rewrite DecodeRuneInString_ascii in Hd'
          by (rewrite Hc; exact L).
        now injection Hd'. }
    rewrite Hres. exists (skipn (j + size) t). repeat split.
    + symmetry. apply firstn_skipn.
    + assumption.
    + right. now rewrite Hd.
  - rewrite slice_0. exists t. repeat split; auto.
    apply H; [lia|lia|rewrite skipn_all; constructor].
Qed.

(** [TrimFunc] with [IsSpace]: white space goes from both ends. *)
Lemma TrimFunc_spec (s : gostring) :
  exists pre post,
    s = pre ++ TrimFunc s IsSpace ++ post
    /\ white pre /\ white post /\ trimmed (TrimFunc s IsSpace).
Proof.
  unfold TrimFunc.
  destruct (TrimLeftFunc_spec s) as (pre & Hs & Hpre & Hfirst).
  destruct (TrimRightFunc_spec (TrimLeftFunc s IsSpace))
    as (post & Ht & Hpost & Hlast).
  exists pre, post. repeat split; auto.
  - now rewrite <- Ht.
  - destruct Hlast as [E|Hlast]; [now left|].
    destruct Hfirst as [E|Hfirst].
    + left. rewrite E in *. symmetry in Ht.
      now apply app_eq_nil in Ht as [-> _].
    + right. split; [|assumption].
      rewrite Ht in Hfirst. now apply first_rune_kept in Hfirst.
Qed.

Lemma TrimSpace_stop_spec (p : gostring) (stop : nat) :
  stop <= length p -> white (skipn stop p) ->
  exists post,
    p = TrimSpace_stop p stop ++ post
    /\ white post
    /\ (TrimSpace_stop p stop = []
        \/ IsSpace (fst (DecodeLastRuneInString (TrimSpace_stop p stop)))
           = false).
Proof.
  induction stop as [|m IH]; intros Hstop Hw.
  - simpl. exists p. now repeat split; auto.
  - cbn [TrimSpace_stop].
    destruct (N.leb_spec RuneSelf (byte_at p m)) as [G|L].
    + rewrite slice_0.
      destruct (TrimRightFunc_spec (firstn (S m) p))
        as (post & Ht & Hpost & Hlast).
      exists (post ++ skipn (S m) p). repeat split; auto.
      * rewrite app_assoc, <- Ht. symmetry. apply firstn_skipn.
      * now apply white_app.
    + destruct (asciiSpace (byte_at p m)) eqn:Ea.
      * apply IH; [lia|]. rewrite skipn_nth by lia.
        change (white ([nth m p zero] ++ skipn (S m) p)).
        constructor; [|assumption].
        now apply ascii_space_encoding.
      * rewrite slice_0. exists (skipn (S m) p). repeat split; auto.
        -- symmetry. apply firstn_skipn.
        -- right. unfold DecodeLastRuneInString.
           rewrite length_firstn, Nat.min_l by lia.
           rewrite byte_at_firstn by lia.
           destruct (N.ltb_spec (byte_at p m) RuneSelf); [|lia].
           simpl. now rewrite asciiSpace_IsSpace.
Qed.

Lemma TrimSpace_cons (c : ascii) (s : gostring) :
  TrimSpace (c :: s)
  = if (RuneSelf <=? b2n c)%N then TrimFunc (c :: s) IsSpace
    else if asciiSpace (b2n c) then TrimSpace s
    else TrimSpace_stop (c :: s) (length (c :: s)).
Proof. reflexivity. Qed.

(** [TrimSpace] returns the string without the white space at its two
    ends: what it takes off is white space only, and the result neither
    begins nor ends with white space. *)
Theorem TrimSpace_spec (s : gostring) :
  exists pre post,
    s = pre ++ TrimSpace s ++ post
    /\ white pre /\ white post /\ trimmed (TrimSpace s).
Proof.
  induction s as [|c s IH].
  - exists [], []. split; [reflexivity|]. split; [constructor|].
    split; [constructor|]. now left.
  - rewrite TrimSpace_cons.
    destruct (N.leb_spec RuneSelf (b2n c)) as [G|L];
      [apply TrimFunc_spec|].
    destruct (asciiSpace (b2n c)) eqn:Ea.
    + destruct IH as (pre & post & Hs & Hpre & Hpost & Ht).
      exists ([c] ++ pre), post. repeat split; auto.
      * simpl. now rewrite <- Hs.
      * constructor; [|assumption]. now apply ascii_space_encoding.
    + destruct (TrimSpace_stop_spec (c :: s) (length (c :: s)))
        as (post & Hp & Hpost & Hlast);
        [lia|rewrite skipn_all; constructor|].
      exists [], post. repeat split; auto; [constructor|].
      destruct Hlast as [E|Hlast]; [now left|].
      right. split; [|assumption].
      apply (first_rune_kept _ post). rewrite <- Hp.
      rewrite DecodeRuneInString_ascii by assumption.
      simpl. now rewrite asciiSpace_IsSpace.
Qed.

(* ------------------------------------------------------------------ *)
(** ** Parsing a seed file *)



(* ------------------------------------------------------------------ *)
(** ** The Seeder at work *)


(** The contract of [sort.Slice], met by insertion sort. *)
Lemma insertion_sort_contract :
  (forall (A : Type) (less : A -> A -> bool) (l : list A),
      Permutation l (insertion_sort less l))
  /\ (forall (A : Type) (less : A -> A -> bool) (l : list A),
        strict_weak_order less -> sorted_by less (insertion_sort less l)).
Proof.
  split.
  - exact insertion_sort_Permutation.
  - intros A less l H. now apply insertion_sort_sorted.
Qed.

(** Scenario 3 of the spec: the users seed commits, the posts seed is
    refused, and the run stops there. *)
Lemma Seed_stops_at_first_failure_witness :
  let s := mkSeeder [users_seed; bad_seed; tags_seed] in
  let w := toy_world seeds_fs fresh_db in
  let db1 := mkToyDB [users_sql] [] false false false in
  let st1 := (s, mkWorld seeds_fs db1 (committed_calls users_seed)) in
  let st2 := (s, mkWorld seeds_fs db1
                   (committed_calls users_seed
                    ++ [BeginCall; ExecCall (SQL bad_seed); RollbackCall])) in
  let e := Errorf (gs "error executing seed 002_posts.sql: ")
             (ErrExt (gs "syntax error")) in
  (seeds s = [users_seed] ++ bad_seed :: [tags_seed]
   /\ Seed_loop toy_driver [users_seed] (s, w) = (st1, None)
   /\ executeSeed toy_driver bad_seed st1 = (st2, Some e))
  /\ (Seeder_Seed toy_driver (s, w) = (st2, Some e)
      /\ fst st2 = s
      /\ exists calls,
           trace (snd st2)
           = trace w ++ flat_map committed_calls [users_seed] ++ calls
           /\ seed_failure bad_seed e calls
           /\ (calls = [BeginCall] \/ names e (Name bad_seed) = true)).
Proof.
  intros s w db1 st1 st2 e.
  assert (H1 : seeds s = [users_seed] ++ bad_seed :: [tags_seed])
    by reflexivity.
  assert (H2 : Seed_loop toy_driver [users_seed] (s, w) = (st1, None))
    by reflexivity.
  assert (H3 : executeSeed toy_driver bad_seed st1 = (st2, Some e))
    by reflexivity.
  split; [now repeat split|].
  exact (Seed_stops_at_first_failure ToyDB toy_driver s w [users_seed]
           [tags_seed] bad_seed st1 st2 e H1 H2 H3).
Defined.

(** C1.  The code at the failing input: a Seeder that holds the seed
    [001_users.sql], on a database that refuses to start a transaction.
    [Seed] stops at that seed after the one call [Begin], and the error it
    returns, [error starting transaction: connection refused], does not
    bear the name of the failing seed, which the errors of a failed
    execution and of a failed commit do. *)
Lemma Seed_error_without_seed_name :
  Seeder_Seed toy_driver (mkSeeder [users_seed], toy_world seeds_fs down_db)
  = ((mkSeeder [users_seed], mkWorld seeds_fs down_db [BeginCall]),
     Some (Errorf (gs "error starting transaction: ")
             (ErrExt (gs "connection refused"))))
  /\ names (Errorf (gs "error starting transaction: ")
              (ErrExt (gs "connection refused")))
       (Name users_seed) = false.
Proof. split; reflexivity. Qed.

Lemma executeSeed_execution_failure_witness :
  let w := toy_world seeds_fs flaky_db in
  (db_Begin toy_driver (dbst w) = (flaky_db, None)
   /\ tx_Exec toy_driver (SQL bad_seed) flaky_db
      = (flaky_db, Some (ErrExt (gs "syntax error")))
   /\ tx_Rollback toy_driver flaky_db
      = (flaky_db, Some (ErrExt (gs "bad connection"))))
  /\ (executeSeed toy_driver bad_seed (NewSeeder, w)
      = ((NewSeeder,
          mkWorld (fs w) flaky_db
            (trace w ++ [BeginCall; ExecCall (SQL bad_seed); RollbackCall])),
         Some (Errorf (gs "error executing seed " ++ Name bad_seed ++ gs ": ")
                 (ErrExt (gs "syntax error"))))
      /\ names (Errorf (gs "error executing seed " ++ Name bad_seed
                        ++ gs ": ") (ErrExt (gs "syntax error")))
           (Name bad_seed) = true).
Proof.
  intros w.
  assert (H1 : db_Begin toy_driver (dbst w) = (flaky_db, None))
    by reflexivity.
  assert (H2 : tx_Exec toy_driver (SQL bad_seed) flaky_db
               = (flaky_db, Some (ErrExt (gs "syntax error"))))
    by reflexivity.
  assert (H3 : tx_Rollback toy_driver flaky_db
               = (flaky_db, Some (ErrExt (gs "bad connection"))))
    by reflexivity.
  split; [now repeat split|].
  exact (executeSeed_execution_failure ToyDB toy_driver bad_seed NewSeeder w
           flaky_db flaky_db flaky_db (ErrExt (gs "syntax error"))
           (Some (ErrExt (gs "bad connection"))) H1 H2 H3).
Defined.

(** C3 as stated fails: the rollback fails with [bad connection], and the
    error [executeSeed] returns neither wraps that error nor mentions it. *)
Lemma executeSeed_drops_rollback_error :
  tx_Rollback toy_driver flaky_db
  = (flaky_db, Some (ErrExt (gs "bad connection")))
  /\ executeSeed toy_driver bad_seed (NewSeeder, toy_world seeds_fs flaky_db)
     = ((NewSeeder,
         mkWorld seeds_fs flaky_db
           [BeginCall; ExecCall (SQL bad_seed); RollbackCall]),
        Some (Errorf (gs "error executing seed 002_posts.sql: ")
                (ErrExt (gs "syntax error"))))
  /\ surfaces (Errorf (gs "error executing seed 002_posts.sql: ")
                 (ErrExt (gs "syntax error")))
       (ErrExt (gs "bad connection")) = false.
Proof. repeat split; reflexivity. Qed.

Lemma LoadSeeds_directory_read_failure_witness :
  let w := toy_world seeds_fs fresh_db in
  let err := ErrExt (gs "no such file or directory") in
  fs_ReadDir (fs w) (gs "missing") = inl err
  /\ (toy_LoadSeeds (gs "missing") (NewSeeder, w)
      = ((NewSeeder, emit (ReadDirCall (gs "missing")) w),
         Some (Errorf (gs "failed to read seeds directory: ") err))
      /\ seeds (fst (fst (toy_LoadSeeds (gs "missing") (NewSeeder, w))))
         = seeds NewSeeder).
Proof.
  intros w err.
  assert (H : fs_ReadDir (fs w) (gs "missing") = inl err) by reflexivity.
  split; [exact H|].
  exact (LoadSeeds_directory_read_failure ToyDB (@insertion_sort)
           (gs "missing") NewSeeder w err H).
Defined.

Lemma LoadSeeds_file_read_failure_witness :
  let w := toy_world broken_fs fresh_db in
  let err := ErrExt (gs "cannot read") in
  (fs_ReadDir (fs w) (gs "broken")
   = inr ([file "a.sql"] ++ file "b.sql" :: [file "c.sql"])
   /\ selected (file "b.sql") = true
   /\ fs_ReadFile (fs w) (seed_path (gs "broken") (file "b.sql")) = inl err)
  /\ (toy_LoadSeeds (gs "broken") (mkSeeder [held_seed], w)
      = ((mkSeeder
            (seeds (mkSeeder [held_seed])
             ++ seeds_of (fs w) (gs "broken") [file "a.sql"]),
          mkWorld (fs w) (dbst w)
            (trace w ++ ReadDirCall (gs "broken")
               :: map ReadFileCall
                    (map (seed_path (gs "broken"))
                       (filter selected [file "a.sql"]))
               ++ [ReadFileCall (seed_path (gs "broken") (file "b.sql"))])),
         Some (Errorf (gs "failed to parse seed file "
                       ++ fi_Name (file "b.sql") ++ gs ": ") err))
      /\ names (Errorf (gs "failed to parse seed file "
                        ++ fi_Name (file "b.sql") ++ gs ": ") err)
           (fi_Name (file "b.sql")) = true).
Proof.
  intros w err.
  assert (H1 : fs_ReadDir (fs w) (gs "broken")
               = inr ([file "a.sql"] ++ file "b.sql" :: [file "c.sql"]))
    by reflexivity.
  assert (H2 : Forall (fun g => selected g = true
                                -> readable (fs w) (gs "broken") g)
                 [file "a.sql"]).
  { constructor; [|constructor]. intros _. now exists (gs "SELECT 1;"). }
  assert (H3 : selected (file "b.sql") = true) by reflexivity.
  assert (H4 : fs_ReadFile (fs w) (seed_path (gs "broken") (file "b.sql"))
               = inl err) by reflexivity.
  split; [now repeat split|].
  exact (LoadSeeds_file_read_failure ToyDB (@insertion_sort) (gs "broken")
           (mkSeeder [held_seed]) w [file "a.sql"] [file "c.sql"]
           (file "b.sql") err H1 H2 H3 H4).
Defined.

(** Scenario 2 of the spec, after the load. *)
Lemma LoadSeeds_sorted_witness :
  let st := (mkSeeder [held_seed], toy_world seeds_fs fresh_db) in
  let st' :=
    (mkSeeder [users_seed; posts_seed; held_seed],
     mkWorld seeds_fs fresh_db
       [ReadDirCall (gs "seeds"); ReadFileCall (gs "seeds/002_posts.sql");
        ReadFileCall (gs "seeds/001_users.sql")]) in
  toy_LoadSeeds (gs "seeds") st = (st', None)
  /\ StronglySorted name_le (seeds (fst st')).
Proof.
  intros st st'.
  assert (H : toy_LoadSeeds (gs "seeds") st = (st', None)) by reflexivity.
  split; [exact H|].
  exact (LoadSeeds_sorted ToyDB (@insertion_sort)
           (proj2 insertion_sort_contract) (gs "seeds") st st' H).
Defined.

Lemma LoadSeeds_accumulates_and_sorts_witness :
  let s := mkSeeder [held_seed] in
  let w := toy_world seeds_fs fresh_db in
  let st' :=
    (mkSeeder [users_seed; posts_seed; held_seed],
     mkWorld seeds_fs fresh_db
       [ReadDirCall (gs "seeds"); ReadFileCall (gs "seeds/002_posts.sql");
        ReadFileCall (gs "seeds/001_users.sql")]) in
  toy_LoadSeeds (gs "seeds") (s, w) = (st', None)
  /\ exists files,
       fs_ReadDir (fs w) (gs "seeds") = inr files
       /\ Permutation (seeds s ++ seeds_of (fs w) (gs "seeds") files)
            (seeds (fst st'))
       /\ StronglySorted name_le (seeds (fst st')).
Proof.
  intros s w st'.
  assert (H : toy_LoadSeeds (gs "seeds") (s, w) = (st', None))
    by reflexivity.
  split; [exact H|].
  exact (LoadSeeds_accumulates_and_sorts ToyDB (@insertion_sort)
           (proj1 insertion_sort_contract) (proj2 insertion_sort_contract)
           (gs "seeds") s w st' H).
Defined.

(** C4 as stated fails: a seed held from an earlier load does not stay in
    place with the new seeds after it; the new seeds come before it. *)
Lemma LoadSeeds_moves_held_seeds :
  toy_LoadSeeds (gs "seeds")
    (mkSeeder [held_seed], toy_world seeds_fs fresh_db)
  = ((mkSeeder [users_seed; posts_seed; held_seed],
      mkWorld seeds_fs fresh_db
        [ReadDirCall (gs "seeds"); ReadFileCall (gs "seeds/002_posts.sql");
         ReadFileCall (gs "seeds/001_users.sql")]),
     None)
  /\ forall new_seeds,
       [users_seed; posts_seed; held_seed] <> [held_seed] ++ new_seeds.
Proof.
  split; [reflexivity|]. intros new_seeds H. discriminate H.
Qed.

Lemma LoadSeeds_fresh_strictly_sorted_witness :
  let w := toy_world seeds_fs fresh_db in
  let w2 := toy_world seeds_fs2 fresh_db in
  let st' :=
    (mkSeeder [users_seed; posts_seed],
     mkWorld seeds_fs fresh_db
       [ReadDirCall (gs "seeds"); ReadFileCall (gs "seeds/002_posts.sql");
        ReadFileCall (gs "seeds/001_users.sql")]) in
  (fs_ReadDir (fs w) (gs "seeds") = inr seeds_dir
   /\ NoDup (map fi_Name seeds_dir)
   /\ toy_LoadSeeds (gs "seeds") (NewSeeder, w) = (st', None)
   /\ fs_ReadDir (fs w2) (gs "seeds") = inr (rev seeds_dir))
  /\ (StronglySorted name_lt (seeds (fst st'))
      /\ exists st2',
           toy_LoadSeeds (gs "seeds") (NewSeeder, w2) = (st2', None)
           /\ seeds (fst st2') = seeds (fst st')).
Proof.
  intros w w2 st'.
  assert (H1 : fs_ReadDir (fs w) (gs "seeds") = inr seeds_dir)
    by reflexivity.
  assert (H2 : Forall (fun f => valid_name (fi_Name f) = true) seeds_dir)
    by (repeat constructor).
  assert (H3 : NoDup (map fi_Name seeds_dir)).
  { repeat constructor; simpl; intros H;
      repeat (destruct H as [H|H]; [discriminate H|]); exact H. }
  assert (H4 : toy_LoadSeeds (gs "seeds") (NewSeeder, w) = (st', None))
    by reflexivity.
  assert (H5 : fs_ReadDir (fs w2) (gs "seeds") = inr (rev seeds_dir))
    by reflexivity.
  assert (H6 : Permutation seeds_dir (rev seeds_dir))
    by apply Permutation_rev.
  assert (H7 : forall p, fs_ReadFile (fs w2) p = fs_ReadFile (fs w) p)
    by reflexivity.
  split; [now repeat split|].
  exact (LoadSeeds_fresh_strictly_sorted ToyDB (@insertion_sort)
           (proj1 insertion_sort_contract) (proj2 insertion_sort_contract)
           (gs "seeds") w w2 seeds_dir (rev seeds_dir) st'
           H1 H2 H3 H4 H5 H6 H7).
Defined.

(** Scenario 2 of the spec: [notes.txt] gives no seed. *)
Lemma LoadSeeds_selects_sql_entries_witness :
  let s := NewSeeder in
  let w := toy_world seeds_fs fresh_db in
  let st' :=
    (mkSeeder [users_seed; posts_seed],
     mkWorld seeds_fs fresh_db
       [ReadDirCall (gs "seeds"); ReadFileCall (gs "seeds/002_posts.sql");
        ReadFileCall (gs "seeds/001_users.sql")]) in
  (fs_ReadDir (fs w) (gs "seeds") = inr seeds_dir
   /\ toy_LoadSeeds (gs "seeds") (s, w) = (st', None))
  /\ ((forall f,
         selected f = true <-> exists stem, fi_Name f = stem ++ gs ".sql")
      /\ (exists k,
            trace (snd st')
            = trace w ++ ReadDirCall (gs "seeds")
                :: map ReadFileCall
                     (firstn k (map (seed_path (gs "seeds"))
                                  (filter selected seeds_dir))))
      /\ (forall seed,
            In seed (seeds (fst st')) ->
            In seed (seeds s)
            \/ exists f,
                 In f seeds_dir /\ selected f = true
                 /\ Name seed = fi_Name f)
      /\ (@None error = None ->
          Permutation (map Name (seeds (fst st')))
            (map Name (seeds s) ++ map fi_Name (filter selected seeds_dir)))).
Proof.
  intros s w st'.
  assert (H1 : fs_ReadDir (fs w) (gs "seeds") = inr seeds_dir)
    by reflexivity.
  assert (H2 : Forall (fun f => valid_name (fi_Name f) = true) seeds_dir)
    by (repeat constructor).
  assert (H3 : toy_LoadSeeds (gs "seeds") (s, w) = (st', None))
    by reflexivity.
  split; [now split|].
  exact (LoadSeeds_selects_sql_entries ToyDB (@insertion_sort)
           (proj1 insertion_sort_contract) (gs "seeds") s w seeds_dir st' None
           H1 H2 H3).
Defined.

(** Which names are selected: the extension is compared byte for byte. *)
Example selected_examples :
  map (fun n => selected (mkFileInfo n false))
    [gs "001_users.sql"; gs "readme.txt"; gs "seed.sql.bak"; gs "notes.txt";
     gs "A.SQL"; gs "b.Sql"; gs ".sql"; gs "sql"; gs "x.sqlx"]
  = [true; false; false; false; false; false; true; false; false].
Proof. reflexivity. Qed.

(** A second run on a database that refuses a statement it has committed:
    the first seed fails with an execution error. *)
Example Seed_twice :
  let st := (mkSeeder [users_seed; posts_seed], toy_world seeds_fs fresh_db) in
  snd (Seeder_Seed toy_driver st) = None
  /\ snd (Seeder_Seed toy_driver (fst (Seeder_Seed toy_driver st)))
     = Some (Errorf (gs "error executing seed 001_users.sql: ")
               (ErrExt (gs "duplicate key"))).
Proof. split; reflexivity. Qed.

(** [Seed] on a Seeder without seeds succeeds and does nothing. *)
Example Seed_empty (w : World ToyDB) :
  Seeder_Seed toy_driver (NewSeeder, w) = ((NewSeeder, w), None).
Proof. reflexivity. Qed.

(* ================================================================== *)
(** * Further properties *)

(* ------------------------------------------------------------------ *)
(** ** More on running the seeds *)

Section RunMore.

Variable DB : Type.
Variable drv : Driver DB.

(** The shape of every run of the loop: the seeds of a first part of the
    list commit, and either that is the whole list or the next seed fails. *)
Lemma Seed_loop_shape (l : list Seed) (s : Seeder) (w : World DB)
    (st' : St DB) (r : option error) :
  Seed_loop drv l (s, w) = (st', r) ->
  exists done new,
    fst st' = s /\ fs (snd st') = fs w
    /\ trace (snd st') = trace w ++ flat_map committed_calls done ++ new
    /\ ((r = None /\ done = l /\ new = [])
        \/ exists bad post e,
             r = Some e /\ l = done ++ bad :: post /\ seed_failure bad e new).
Proof.
  revert s w. induction l as [|seed l IH]; intros s w; simpl.
  - intros [= <- <-]. exists [], []. simpl. rewrite app_nil_r.
    repeat split. now left.
  - destruct (executeSeed_cases DB drv seed s w)
      as (w' & Hfs & [[E T]|(e & c & E & T & F)]); rewrite E.
    + intros H. apply IH in H as (done & new & H1 & H2 & H3 & H4).
      exists (seed :: done), new. repeat split; [assumption|congruence| |].
      * rewrite H3, T. simpl. now rewrite <- !app_assoc.
      * destruct H4 as [(-> & -> & ->)|(bad & post & e & -> & -> & F)].
        -- now left.
        -- right. exists bad, post, e. now repeat split.
    + intros [= <- <-]. exists [], c. simpl. repeat split; auto.
      right. exists seed, l, e. now repeat split.
Qed.

(** X1.  A run that succeeds has executed every seed of the Seeder, in
    stored order, each in a transaction of its own that was begun, given
    the SQL of the seed and committed before the next one began, with one
    progress notice after each commit; it made no other call, and left the
    Seeder and the file system as they were. *)
Theorem Seed_success_executes_all
    (s : Seeder) (w : World DB) (st' : St DB) :
  Seeder_Seed drv (s, w) = (st', None) ->
  fst st' = s /\ fs (snd st') = fs w
  /\ trace (snd st') = trace w ++ flat_map committed_calls (seeds s).
Proof.
  unfold Seeder_Seed. simpl. intros H.
  apply Seed_loop_shape in H as (done & new & H1 & H2 & H3 & H4).
  destruct H4 as [(_ & -> & ->)|(bad & post & e & He & _)]; [|discriminate].
  rewrite app_nil_r in H3. auto.
Qed.

(** X2.  A run that fails has a first failing seed: the seeds are some
    seeds that all committed, then a seed on which [executeSeed] returned
    the error of the run, in the state the run ends in, then the seeds
    that were not reached. *)
Theorem Seed_failure_first_failing_seed
    (s : Seeder) (w : World DB) (st2 : St DB) (e : error) :
  Seeder_Seed drv (s, w) = (st2, Some e) ->
  exists pre bad post st1,
    seeds s = pre ++ bad :: post
    /\ Seed_loop drv pre (s, w) = (st1, None)
    /\ executeSeed drv bad st1 = (st2, Some e).
Proof.
  unfold Seeder_Seed. simpl. generalize (seeds s) as l. intros l.
  generalize (s, w) as st. induction l as [|seed l IH]; intros st; simpl;
    [discriminate|].
  destruct (executeSeed drv seed st) as [st1 [e1|]] eqn:E.
  - intros [= <- <-]. exists [], seed, l, st. now repeat split.
  - intros H. apply IH in H as (pre & bad & post & st1' & -> & H1 & H2).
    exists (seed :: pre), bad, post, st1'. repeat split; auto.
    simpl. now rewrite E.
Qed.

Lemma filter_notice_committed (done : list Seed) :
  filter is_notice (flat_map committed_calls done) = map notice done.
Proof.
  induction done as [|seed done IH]; [reflexivity|].
  simpl. now rewrite IH.
Qed.

Lemma seed_failure_no_notice (bad : Seed) (e : error) (calls : list event) :
  seed_failure bad e calls -> filter is_notice calls = [].
Proof. now destruct 1. Qed.

(** X3.  Whatever the outcome of a run, the progress notices it prints are
    those of the seeds that committed, one each, in stored order: all the
    seeds when the run succeeds, and the seeds before the failing one, that
    one excluded, when it fails. *)
Theorem Seed_notices
    (s : Seeder) (w : World DB) (st' : St DB) (r : option error) :
  Seeder_Seed drv (s, w) = (st', r) ->
  exists done rest,
    seeds s = done ++ rest
    /\ filter is_notice (trace (snd st'))
       = filter is_notice (trace w) ++ map notice done
    /\ (r = None <-> rest = []).
Proof.
  unfold Seeder_Seed. simpl. intros H.
  apply Seed_loop_shape in H as (done & new & _ & _ & H3 & H4).
  rewrite H3, !filter_app, filter_notice_committed.
  destruct H4 as [(-> & -> & ->)|(bad & post & e & -> & -> & F)].
  - exists (seeds s), []. simpl. rewrite !app_nil_r. now repeat split.
  - exists done, (bad :: post). rewrite (seed_failure_no_notice _ _ _ F).
    rewrite app_nil_r. repeat split; discriminate.
Qed.

Lemma committed_calls_not_fs (done : list Seed) :
  Forall (fun e => is_fs_call e = false) (flat_map committed_calls done).
Proof.
  induction done as [|seed done IH]; simpl; [constructor|].
  now repeat constructor.
Qed.

(** X4.  [Seed] never touches the file system: whatever the outcome, the
    file system is what it was and none of the calls made is a read of a
    directory or of a file. *)
Theorem Seed_reads_no_file
    (s : Seeder) (w : World DB) (st' : St DB) (r : option error) :
  Seeder_Seed drv (s, w) = (st', r) ->
  fs (snd st') = fs w
  /\ exists calls,
       trace (snd st') = trace w ++ calls
       /\ Forall (fun e => is_fs_call e = false) calls.
Proof.
  unfold Seeder_Seed. simpl. intros H.
  apply Seed_loop_shape in H as (done & new & _ & H2 & H3 & H4).
  split; [assumption|].
  exists (flat_map committed_calls done ++ new). split; [assumption|].
  apply Forall_app. split; [apply committed_calls_not_fs|].
  destruct H4 as [(_ & _ & ->)|(bad & post & e & _ & _ & F)];
    [constructor|].
  destruct F; now repeat constructor.
Qed.

(** X5.  When the database cannot start a transaction, [executeSeed]
    returns [error starting transaction] wrapping the cause, and has made
    no other call: the SQL of the seed is not submitted, nothing is rolled
    back or committed, and no notice is printed. *)
Theorem executeSeed_begin_failure
    (seed : Seed) (s : Seeder) (w : World DB) (d1 : DB) (cause : error) :
  db_Begin drv (dbst w) = (d1, Some cause) ->
  executeSeed drv seed (s, w)
  = ((s, mkWorld (fs w) d1 (trace w ++ [BeginCall])),
     Some (Errorf (gs "error starting transaction: ") cause)).
Proof.
  intros H. unfold executeSeed, call. now rewrite H.
Qed.

(** X6.  When the SQL of a seed was executed and the commit fails,
    [executeSeed] returns a commit error that names the seed and wraps the
    cause; it attempts no rollback and prints no notice. *)
Theorem executeSeed_commit_failure
    (seed : Seed) (s : Seeder) (w : World DB) (d1 d2 d3 : DB)
    (cause : error) :
  db_Begin drv (dbst w) = (d1, None) ->
  tx_Exec drv (SQL seed) d1 = (d2, None) ->
  tx_Commit drv d2 = (d3, Some cause) ->
  executeSeed drv seed (s, w)
  = ((s, mkWorld (fs w) d3
           (trace w ++ [BeginCall; ExecCall (SQL seed); CommitCall])),
     Some (Errorf (gs "error committing seed " ++ Name seed ++ gs ": ")
             cause))
  /\ names (Errorf (gs "error committing seed " ++ Name seed ++ gs ": ")
              cause) (Name seed) = true.
Proof.
  intros H1 H2 H3. split; [|apply Errorf_names].
  unfold executeSeed, call. simpl.
  rewrite H1. simpl. rewrite H2. simpl. rewrite H3.
  now rewrite <- !app_assoc.
Qed.

End RunMore.

(** The scenarios of the spec, on the toy database. *)
(** Scenario 1 of the spec: both seeds commit. *)
Lemma Seed_success_executes_all_witness :
  let s := mkSeeder [users_seed; posts_seed] in
  let w := toy_world seeds_fs fresh_db in
  let st' :=
    (s, mkWorld seeds_fs (mkToyDB [users_sql; posts_sql] [] false false false)
          (committed_calls users_seed ++ committed_calls posts_seed)) in
  Seeder_Seed toy_driver (s, w) = (st', None)
  /\ (fst st' = s /\ fs (snd st') = fs w
      /\ trace (snd st') = trace w ++ flat_map committed_calls (seeds s)).
Proof.
  intros s w st'.
  assert (H : Seeder_Seed toy_driver (s, w) = (st', None)) by reflexivity.
  split; [exact H|].
  exact (Seed_success_executes_all ToyDB toy_driver s w st' H).
Defined.

Lemma Seed_failure_first_failing_seed_witness :
  let s := mkSeeder [users_seed; bad_seed; tags_seed] in
  let w := toy_world seeds_fs fresh_db in
  let st2 :=
    (s, mkWorld seeds_fs (mkToyDB [users_sql] [] false false false)
          (committed_calls users_seed
           ++ [BeginCall; ExecCall (SQL bad_seed); RollbackCall])) in
  let e := Errorf (gs "error executing seed 002_posts.sql: ")
             (ErrExt (gs "syntax error")) in
  Seeder_Seed toy_driver (s, w) = (st2, Some e)
  /\ exists pre bad post st1,
       seeds s = pre ++ bad :: post
       /\ Seed_loop toy_driver pre (s, w) = (st1, None)
       /\ executeSeed toy_driver bad st1 = (st2, Some e).
Proof.
  intros s w st2 e.
  assert (H : Seeder_Seed toy_driver (s, w) = (st2, Some e)) by reflexivity.
  split; [exact H|].
  exact (Seed_failure_first_failing_seed ToyDB toy_driver s w st2 e H).
Defined.

Lemma Seed_notices_witness :
  let s := mkSeeder [users_seed; bad_seed; tags_seed] in
  let w := toy_world seeds_fs fresh_db in
  let st2 :=
    (s, mkWorld seeds_fs (mkToyDB [users_sql] [] false false false)
          (committed_calls users_seed
           ++ [BeginCall; ExecCall (SQL bad_seed); RollbackCall])) in
  let r := Some (Errorf (gs "error executing seed 002_posts.sql: ")
                   (ErrExt (gs "syntax error"))) in
  Seeder_Seed toy_driver (s, w) = (st2, r)
  /\ exists done rest,
       seeds s = done ++ rest
       /\ filter is_notice (trace (snd st2))
          = filter is_notice (trace w) ++ map notice done
       /\ (r = None <-> rest = []).
Proof.
  intros s w st2 r.
  assert (H : Seeder_Seed toy_driver (s, w) = (st2, r)) by reflexivity.
  split; [exact H|].
  exact (Seed_notices ToyDB toy_driver s w st2 r H).
Defined.

Lemma Seed_reads_no_file_witness :
  let s := mkSeeder [users_seed; posts_seed] in
  let w := toy_world seeds_fs fresh_db in
  let st' :=
    (s, mkWorld seeds_fs (mkToyDB [users_sql; posts_sql] [] false false false)
          (committed_calls users_seed ++ committed_calls posts_seed)) in
  Seeder_Seed toy_driver (s, w) = (st', None)
  /\ (fs (snd st') = fs w
      /\ exists calls,
           trace (snd st') = trace w ++ calls
           /\ Forall (fun e => is_fs_call e = false) calls).
Proof.
  intros s w st'.
  assert (H : Seeder_Seed toy_driver (s, w) = (st', None)) by reflexivity.
  split; [exact H|].
  exact (Seed_reads_no_file ToyDB toy_driver s w st' None H).
Defined.

Lemma executeSeed_begin_failure_witness :
  let w := toy_world seeds_fs down_db in
  let cause := ErrExt (gs "connection refused") in
  db_Begin toy_driver (dbst w) = (down_db, Some cause)
  /\ executeSeed toy_driver users_seed (NewSeeder, w)
     = ((NewSeeder, mkWorld (fs w) down_db (trace w ++ [BeginCall])),
        Some (Errorf (gs "error starting transaction: ") cause)).
Proof.
  intros w cause.
  assert (H : db_Begin toy_driver (dbst w) = (down_db, Some cause))
    by reflexivity.
  split; [exact H|].
  exact (executeSeed_begin_failure ToyDB toy_driver users_seed NewSeeder w
           down_db cause H).
Defined.

Lemma executeSeed_commit_failure_witness :
  let w := toy_world seeds_fs stuck_db in
  let d2 := mkToyDB [] [users_sql] false false true in
  let cause := ErrExt (gs "disk full") in
  (db_Begin toy_driver (dbst w) = (stuck_db, None)
   /\ tx_Exec toy_driver (SQL users_seed) stuck_db = (d2, None)
   /\ tx_Commit toy_driver d2 = (stuck_db, Some cause))
  /\ (executeSeed toy_driver users_seed (NewSeeder, w)
      = ((NewSeeder,
          mkWorld (fs w) stuck_db
            (trace w ++ [BeginCall; ExecCall (SQL users_seed); CommitCall])),
         Some (Errorf (gs "error committing seed " ++ Name users_seed
                       ++ gs ": ") cause))
      /\ names (Errorf (gs "error committing seed " ++ Name users_seed
                        ++ gs ": ") cause) (Name users_seed) = true).
Proof.
  intros w d2 cause.
  assert (H1 : db_Begin toy_driver (dbst w) = (stuck_db, None))
    by reflexivity.
  assert (H2 : tx_Exec toy_driver (SQL users_seed) stuck_db = (d2, None))
    by reflexivity.
  assert (H3 : tx_Commit toy_driver d2 = (stuck_db, Some cause))
    by reflexivity.
  split; [now repeat split|].
  exact (executeSeed_commit_failure ToyDB toy_driver users_seed NewSeeder w
           stuck_db d2 stuck_db cause H1 H2 H3).
Defined.

(* ------------------------------------------------------------------ *)
(** ** More on loading the seeds *)

Lemma LoadSeeds_loop_world (DB : Type) (dir : gostring)
    (files : list FileInfo) (s : Seeder) (w : World DB) (st' : St DB)
    (r : option error) :
  LoadSeeds_loop dir files (s, w) = (st', r) ->
  fs (snd st') = fs w /\ dbst (snd st') = dbst w.
Proof.
  revert s w. induction files as [|f files IH]; intros s w; simpl.
  - intros [= <- <-]. now split.
  - destruct (str_eqb (Ext (fi_Name f)) (gs ".sql")); [|apply IH].
    rewrite parseSeedFile_spec.
    destruct (fs_ReadFile (fs w) (Join [dir; fi_Name f])).
    + intros [= <- <-]. now split.
    + intros H. apply IH in H. exact H.
Qed.

(** A loop that fails stopped at a selected entry that cannot be read,
    after reading the selected entries before it. *)
Lemma LoadSeeds_loop_failure (DB : Type) (dir : gostring)
    (files : list FileInfo) (s : Seeder) (w : World DB) (st' : St DB)
    (e : error) :
  LoadSeeds_loop dir files (s, w) = (st', Some e) ->
  exists pre f post err,
    files = pre ++ f :: post
    /\ Forall (fun g => selected g = true -> readable (fs w) dir g) pre
    /\ selected f = true
    /\ fs_ReadFile (fs w) (seed_path dir f) = inl err
    /\ e = Errorf (gs "failed to parse seed file " ++ fi_Name f ++ gs ": ")
             err
    /\ seeds (fst st') = seeds s ++ seeds_of (fs w) dir pre.
Proof.
  revert s w. induction files as [|f files IH]; intros s w; simpl;
    [discriminate|].
  change (str_eqb (Ext (fi_Name f)) (gs ".sql")) with (selected f).
  destruct (selected f) eqn:Esel.
  - rewrite parseSeedFile_spec.
    change (Join [dir; fi_Name f]) with (seed_path dir f).
    destruct (fs_ReadFile (fs w) (seed_path dir f)) as [err|c] eqn:R.
    + intros [= <- <-]. exists [], f, files, err.
      unfold seeds_of. simpl. rewrite app_nil_r. repeat split; auto.
    + intros H.
      apply IH in H as (pre & g & post & err & -> & Hpre & Hg & Hr & -> & Hs).
      simpl in *. exists (f :: pre), g, post, err. repeat split; auto.
      * constructor; [intros _; now exists c|assumption].
      * rewrite Hs. unfold seeds_of. simpl. rewrite Esel. simpl.
        unfold seed_of at 2. rewrite R. now rewrite <- app_assoc.
  - intros H.
    apply IH in H as (pre & g & post & err & -> & Hpre & Hg & Hr & -> & Hs).
    exists (f :: pre), g, post, err. repeat split; auto.
    + constructor; [congruence|assumption].
    + rewrite Hs. unfold seeds_of. simpl. now rewrite Esel.
Qed.

Section LoadMore.

Variable DB : Type.
Variable sort_Slice : forall A : Type, (A -> A -> bool) -> list A -> list A.

(** X7.  [LoadSeeds] never touches the database and only reads the file
    system: whatever the outcome, the database and the file system are
    what they were, and every call made is a read of a directory or of a
    file. *)
Theorem LoadSeeds_only_reads
    (dir : gostring) (s : Seeder) (w : World DB) (st' : St DB)
    (r : option error) :
  LoadSeeds sort_Slice dir (s, w) = (st', r) ->
  dbst (snd st') = dbst w /\ fs (snd st') = fs w
  /\ exists calls,
       trace (snd st') = trace w ++ calls
       /\ Forall (fun e => is_fs_call e = true) calls.
Proof.
  unfold LoadSeeds, ioutil_ReadDir.
  destruct (fs_ReadDir (fs w) dir) as [err|files].
  - intros [= <- <-]. simpl. repeat split.
    exists [ReadDirCall dir]. split; [reflexivity|now repeat constructor].
  - destruct (LoadSeeds_loop dir files (s, emit (ReadDirCall dir) w))
      as [[s2 w2] o] eqn:Hloop.
    pose proof (LoadSeeds_loop_world _ _ _ _ _ _ _ Hloop) as [Hfs Hdb].
    apply LoadSeeds_loop_calls in Hloop as (done & k & _ & _ & Ht).
    simpl in Hfs, Hdb, Ht.
    assert (Hcalls : exists calls,
               trace w2 = trace w ++ calls
               /\ Forall (fun e => is_fs_call e = true) calls).
    { eexists. split.
      - rewrite Ht, <- app_assoc. reflexivity.
      - constructor; [reflexivity|]. apply Forall_forall. intros e He.
        apply in_map_iff in He as (p & <- & _). reflexivity. }
    destruct o; intros [= <- <-]; simpl; auto.
Qed.

(** X8.  [LoadSeeds] succeeds exactly when the directory can be listed
    and every selected entry of the listing can be read; entries that are
    not selected play no part. *)
Theorem LoadSeeds_succeeds_iff (dir : gostring) (s : Seeder) (w : World DB) :
  (exists st', LoadSeeds sort_Slice dir (s, w) = (st', None))
  <-> exists files,
        fs_ReadDir (fs w) dir = inr files
        /\ Forall (fun f => selected f = true -> readable (fs w) dir f) files.
Proof.
  split.
  - intros [st' H]. apply LoadSeeds_success in H as (files & H1 & H2 & _).
    now exists files.
  - intros (files & H1 & H2). eexists.
    apply (LoadSeeds_ok DB sort_Slice dir s w files H1 H2).
Qed.

(** X9.  [LoadSeeds] fails in two ways only.  Either the directory could
    not be listed, the error is the directory-read error and the Seeder is
    untouched; or a selected entry could not be read after the selected
    entries before it were, the error is the file-read error of that entry
    and the seeds of the entries before it are appended, not sorted. *)
Theorem LoadSeeds_failure_kinds
    (dir : gostring) (s : Seeder) (w : World DB) (st' : St DB) (e : error) :
  LoadSeeds sort_Slice dir (s, w) = (st', Some e) ->
  (exists err,
     fs_ReadDir (fs w) dir = inl err
     /\ e = Errorf (gs "failed to read seeds directory: ") err
     /\ fst st' = s)
  \/ (exists pre f post err,
        fs_ReadDir (fs w) dir = inr (pre ++ f :: post)
        /\ Forall (fun g => selected g = true -> readable (fs w) dir g) pre
        /\ selected f = true
        /\ fs_ReadFile (fs w) (seed_path dir f) = inl err
        /\ e = Errorf (gs "failed to parse seed file " ++ fi_Name f
                       ++ gs ": ") err
        /\ seeds (fst st') = seeds s ++ seeds_of (fs w) dir pre).
Proof.
  unfold LoadSeeds, ioutil_ReadDir.
  destruct (fs_ReadDir (fs w) dir) as [err|files].
  - intros [= <- <-]. left. now exists err.
  - destruct (LoadSeeds_loop dir files (s, emit (ReadDirCall dir) w))
      as [[s2 w2] [e'|]] eqn:Hloop; [|discriminate].
    intros [= <- <-]. right.
    apply LoadSeeds_loop_failure in Hloop
      as (pre & f & post & err & -> & H1 & H2 & H3 & H4 & H5).
    exists pre, f, post, err. now repeat split.
Qed.

Hypothesis sort_Slice_Permutation :
  forall (A : Type) (less : A -> A -> bool) (l : list A),
    Permutation l (sort_Slice A less l).
Hypothesis sort_Slice_sorted :
  forall (A : Type) (less : A -> A -> bool) (l : list A),
    strict_weak_order less -> sorted_by less (sort_Slice A less l).

Lemma seeds_of_none (fsys : FS) (dir : gostring) (files : list FileInfo) :
  Forall (fun f => selected f = false) files -> seeds_of fsys dir files = [].
Proof.
  unfold seeds_of. induction 1 as [|f files Hf _ IH]; [reflexivity|].
  simpl. now rewrite Hf.
Qed.

(** X10.  Loading a directory that can be listed and has no selected
    entry, an empty directory for one, succeeds and reads no file; the
    Seeder keeps the seeds it had, and they are now in ascending order of
    name. *)
Theorem LoadSeeds_no_seed_files
    (dir : gostring) (s : Seeder) (w : World DB) (files : list FileInfo) :
  fs_ReadDir (fs w) dir = inr files ->
  Forall (fun f => selected f = false) files ->
  exists st',
    LoadSeeds sort_Slice dir (s, w) = (st', None)
    /\ trace (snd st') = trace w ++ [ReadDirCall dir]
    /\ Permutation (seeds s) (seeds (fst st'))
    /\ StronglySorted name_le (seeds (fst st')).
Proof.
  intros Hdir Hnone.
  assert (Hr : Forall (fun f => selected f = true -> readable (fs w) dir f)
                 files).
  { apply Forall_forall. rewrite Forall_forall in Hnone. intros f Hf Hs.
    rewrite (Hnone f Hf) in Hs. discriminate. }
  eexists. split; [apply (LoadSeeds_ok DB sort_Slice dir s w files Hdir Hr)|].
  simpl. rewrite seeds_of_none, app_nil_r by assumption.
  assert (Hf : filter selected files = []).
  { clear - Hnone. induction Hnone as [|f files Hf _ IH]; [reflexivity|].
    simpl. now rewrite Hf. }
  rewrite Hf. repeat split.
  - apply sort_Slice_Permutation.
  - apply (sort_Slice_sorted Seed seed_less).
    exact seed_less_strict_weak_order.
Qed.

(** X11.  Two loads that succeed, one after the other, accumulate: the
    Seeder ends with the seeds it had and the seeds of both listings,
    nothing dropped and nothing merged, so loading one directory twice
    gives every seed of it twice. *)
Theorem LoadSeeds_twice
    (dir1 dir2 : gostring) (s : Seeder) (w : World DB) (st1 st2 : St DB) :
  LoadSeeds sort_Slice dir1 (s, w) = (st1, None) ->
  LoadSeeds sort_Slice dir2 st1 = (st2, None) ->
  exists files1 files2,
    fs_ReadDir (fs w) dir1 = inr files1
    /\ fs_ReadDir (fs w) dir2 = inr files2
    /\ Permutation
         (seeds s ++ seeds_of (fs w) dir1 files1
          ++ seeds_of (fs w) dir2 files2)
         (seeds (fst st2)).
Proof.
  intros H1 H2.
  apply LoadSeeds_success in H1 as (files1 & Hd1 & _ & ->).
  apply LoadSeeds_success in H2 as (files2 & Hd2 & _ & ->).
  simpl in *. exists files1, files2. repeat split; auto.
  rewrite <- sort_Slice_Permutation, app_assoc.
  apply Permutation_app_tail, sort_Slice_Permutation.
Qed.

(** X12.  Load, then run: when a load and the run after it succeed, the
    seeds are in ascending order of name and the run executes them in
    that order, the seeds held before the load included. *)
Theorem load_then_run_in_name_order
    (drv : Driver DB) (dir : gostring) (st st1 st2 : St DB) :
  LoadSeeds sort_Slice dir st = (st1, None) ->
  Seeder_Seed drv st1 = (st2, None) ->
  StronglySorted name_le (seeds (fst st1))
  /\ trace (snd st2)
     = trace (snd st1) ++ flat_map committed_calls (seeds (fst st1)).
Proof.
  intros H1 H2. split.
  - destruct st as [s w].
    apply LoadSeeds_success in H1 as (files & _ & _ & ->). simpl.
    apply (sort_Slice_sorted Seed seed_less).
    exact seed_less_strict_weak_order.
  - now apply (Seed_loop_ok_trace DB drv).
Qed.

End LoadMore.

Lemma LoadSeeds_only_reads_witness :
  let s := mkSeeder [held_seed] in
  let w := toy_world broken_fs fresh_db in
  let st' := fst (toy_LoadSeeds (gs "broken") (s, w)) in
  let r := Some (Errorf (gs "failed to parse seed file b.sql: ")
                   (ErrExt (gs "cannot read"))) in
  toy_LoadSeeds (gs "broken") (s, w) = (st', r)
  /\ (dbst (snd st') = dbst w /\ fs (snd st') = fs w
      /\ exists calls,
           trace (snd st') = trace w ++ calls
           /\ Forall (fun e => is_fs_call e = true) calls).
Proof.
  intros s w st' r.
  assert (H : toy_LoadSeeds (gs "broken") (s, w) = (st', r)) by reflexivity.
  split; [exact H|].
  exact (LoadSeeds_only_reads ToyDB (@insertion_sort) (gs "broken") s w st' r
           H).
Defined.

Lemma LoadSeeds_failure_kinds_witness :
  let s := mkSeeder [held_seed] in
  let w := toy_world broken_fs fresh_db in
  let st' := fst (toy_LoadSeeds (gs "broken") (s, w)) in
  let e := Errorf (gs "failed to parse seed file b.sql: ")
             (ErrExt (gs "cannot read")) in
  toy_LoadSeeds (gs "broken") (s, w) = (st', Some e)
  /\ ((exists err,
         fs_ReadDir (fs w) (gs "broken") = inl err
         /\ e = Errorf (gs "failed to read seeds directory: ") err
         /\ fst st' = s)
      \/ (exists pre f post err,
            fs_ReadDir (fs w) (gs "broken") = inr (pre ++ f :: post)
            /\ Forall (fun g => selected g = true
                                -> readable (fs w) (gs "broken") g) pre
            /\ selected f = true
            /\ fs_ReadFile (fs w) (seed_path (gs "broken") f) = inl err
            /\ e = Errorf (gs "failed to parse seed file " ++ fi_Name f
                           ++ gs ": ") err
            /\ seeds (fst st')
               = seeds s ++ seeds_of (fs w) (gs "broken") pre)).
Proof.
  intros s w st' e.
  assert (H : toy_LoadSeeds (gs "broken") (s, w) = (st', Some e))
    by reflexivity.
  split; [exact H|].
  exact (LoadSeeds_failure_kinds ToyDB (@insertion_sort) (gs "broken") s w st'
           e H).
Defined.

Lemma LoadSeeds_no_seed_files_witness :
  let s := mkSeeder [held_seed; users_seed] in
  let w := toy_world docs_fs fresh_db in
  let files := [file "notes.txt"; file "schema.SQL"] in
  (fs_ReadDir (fs w) (gs "docs") = inr files
   /\ Forall (fun f => selected f = false) files)
  /\ exists st',
       toy_LoadSeeds (gs "docs") (s, w) = (st', None)
       /\ trace (snd st') = trace w ++ [ReadDirCall (gs "docs")]
       /\ Permutation (seeds s) (seeds (fst st'))
       /\ StronglySorted name_le (seeds (fst st')).
Proof.
  intros s w files.
  assert (H1 : fs_ReadDir (fs w) (gs "docs") = inr files) by reflexivity.
  assert (H2 : Forall (fun f => selected f = false) files)
    by (repeat constructor).
  split; [now split|].
  exact (LoadSeeds_no_seed_files ToyDB (@insertion_sort)
           (proj1 insertion_sort_contract) (proj2 insertion_sort_contract)
           (gs "docs") s w files H1 H2).
Defined.

(** Loading the directory of the scenarios twice: every seed twice. *)
Lemma LoadSeeds_twice_witness :
  let w := toy_world seeds_fs fresh_db in
  let reads :=
    [ReadDirCall (gs "seeds"); ReadFileCall (gs "seeds/002_posts.sql");
     ReadFileCall (gs "seeds/001_users.sql")] in
  let st1 :=
    (mkSeeder [users_seed; posts_seed], mkWorld seeds_fs fresh_db reads) in
  let st2 :=
    (mkSeeder [users_seed; users_seed; posts_seed; posts_seed],
     mkWorld seeds_fs fresh_db (reads ++ reads)) in
  (toy_LoadSeeds (gs "seeds") (NewSeeder, w) = (st1, None)
   /\ toy_LoadSeeds (gs "seeds") st1 = (st2, None))
  /\ exists files1 files2,
       fs_ReadDir (fs w) (gs "seeds") = inr files1
       /\ fs_ReadDir (fs w) (gs "seeds") = inr files2
       /\ Permutation
            (seeds NewSeeder ++ seeds_of (fs w) (gs "seeds") files1
             ++ seeds_of (fs w) (gs "seeds") files2)
            (seeds (fst st2)).
Proof.
  intros w reads st1 st2.
  assert (H1 : toy_LoadSeeds (gs "seeds") (NewSeeder, w) = (st1, None))
    by reflexivity.
  assert (H2 : toy_LoadSeeds (gs "seeds") st1 = (st2, None)) by reflexivity.
  split; [now split|].
  exact (LoadSeeds_twice ToyDB (@insertion_sort)
           (proj1 insertion_sort_contract) (gs "seeds") (gs "seeds")
           NewSeeder w st1 st2 H1 H2).
Defined.

(** Scenario 1 of the spec, from the load to the end of the run. *)
Lemma load_then_run_in_name_order_witness :
  let st := (NewSeeder, toy_world seeds_fs fresh_db) in
  let reads :=
    [ReadDirCall (gs "seeds"); ReadFileCall (gs "seeds/002_posts.sql");
     ReadFileCall (gs "seeds/001_users.sql")] in
  let st1 :=
    (mkSeeder [users_seed; posts_seed], mkWorld seeds_fs fresh_db reads) in
  let st2 :=
    (mkSeeder [users_seed; posts_seed],
     mkWorld seeds_fs (mkToyDB [users_sql; posts_sql] [] false false false)
       (reads ++ committed_calls users_seed ++ committed_calls posts_seed)) in
  (toy_LoadSeeds (gs "seeds") st = (st1, None)
   /\ Seeder_Seed toy_driver st1 = (st2, None))
  /\ (StronglySorted name_le (seeds (fst st1))
      /\ trace (snd st2)
         = trace (snd st1) ++ flat_map committed_calls (seeds (fst st1))).
Proof.
  intros st reads st1 st2.
  assert (H1 : toy_LoadSeeds (gs "seeds") st = (st1, None)) by reflexivity.
  assert (H2 : Seeder_Seed toy_driver st1 = (st2, None)) by reflexivity.
  split; [now split|].
  exact (load_then_run_in_name_order ToyDB (@insertion_sort)
           (proj2 insertion_sort_contract) toy_driver (gs "seeds") st st1 st2
           H1 H2).
Defined.

(* ------------------------------------------------------------------ *)
(** ** More on trimming *)

(** [TrimRightFunc] leaves a string whose last rune is not white space as
    it is. *)
Lemma TrimRightFunc_fixed (s : gostring) :
  s <> [] ->
  IsSpace (fst (DecodeLastRuneInString s)) = false ->
  TrimRightFunc s IsSpace = s.
Proof.
  intros Hne Hlast. unfold TrimRightFunc, lastIndexFunc.
  destruct (length s) as [|m] eqn:Hlen.
  { destruct s; [congruence|discriminate]. }
  cbn [lastIndexFunc_loop Nat.eqb]. rewrite slice_0.
  rewrite <- Hlen, firstn_all.
  destruct (DecodeLastRuneInString s) as [r size] eqn:Hd.
  simpl in Hlast. rewrite Hlast. simpl Bool.eqb. cbv iota.
  destruct (DecodeLastRuneInString_spec s r size Hne Hd)
    as (Hn & r' & Hd' & _).
  set (j := length s - size) in *.
  assert (Hj : j + size = length s) by (unfold j; lia).
  destruct (N.leb_spec RuneSelf (byte_at s j)) as [G|L].
  - rewrite Hd'. rewrite slice_0, Hj. apply firstn_all.
  - rewrite slice_0.
    assert (Hsk : skipn j s = nth j s zero :: skipn (S j) s)
      by (apply skipn_nth; lia).
    rewrite Hsk in Hd'.
    rewrite DecodeRuneInString_ascii in Hd' by exact L.
    injection Hd' as _ <-.
    rewrite Hj. apply firstn_all.
Qed.

(** [TrimSpace] leaves a string that neither begins nor ends with white
    space as it is. *)
Lemma TrimSpace_fixed (s : gostring) : trimmed s -> TrimSpace s = s.
Proof.
  intros [->|[Hfirst Hlast]]; [reflexivity|].
  destruct s as [|c s']; [reflexivity|].
  rewrite TrimSpace_cons.
  destruct (N.leb_spec RuneSelf (b2n c)) as [G|L].
  - unfold TrimFunc.
    assert (E : TrimLeftFunc (c :: s') IsSpace = c :: s').
    { unfold TrimLeftFunc, indexFunc. cbn [length indexFunc_loop Nat.leb].
      cbn [skipn].
      destruct (DecodeRuneInString (c :: s')) as [r size].
      simpl in Hfirst. now rewrite Hfirst. }
    rewrite E. apply TrimRightFunc_fixed; [discriminate|assumption].
  - rewrite DecodeRuneInString_ascii in Hfirst by assumption.
    simpl in Hfirst. rewrite asciiSpace_IsSpace in Hfirst by assumption.
    rewrite Hfirst.
    set (p := c :: s') in *.
    destruct (length p) as [|m] eqn:Hlen; [discriminate|].
    cbn [TrimSpace_stop].
    destruct (N.leb_spec RuneSelf (byte_at p m)) as [G2|L2].
    + rewrite slice_0, <- Hlen, firstn_all.
      apply TrimRightFunc_fixed; [discriminate|assumption].
    + unfold DecodeLastRuneInString in Hlast. rewrite Hlen in Hlast.
      destruct (N.ltb_spec (byte_at p m) RuneSelf); [|lia].
      simpl in Hlast. rewrite asciiSpace_IsSpace in Hlast by assumption.
      rewrite Hlast, slice_0, <- Hlen. apply firstn_all.
Qed.

(** [TrimSpace] is idempotent: trimming what was trimmed changes
    nothing. *)
Lemma TrimSpace_twice (s : gostring) :
  TrimSpace (TrimSpace s) = TrimSpace s.
Proof.
  destruct (TrimSpace_spec s) as (pre & post & _ & _ & _ & Ht).
  now apply TrimSpace_fixed.
Qed.

(** The first encoding of a white string, and what follows it. *)
Lemma white_uncons (s : gostring) :
  white s -> s <> [] ->
  exists r n,
    DecodeRuneInString s = (r, n) /\ IsSpace r = true
    /\ 1 <= n <= length s /\ white (skipn n s).
Proof.
  intros H. induction H as [|chunk rest Hc Hr _]; intros Hne; [congruence|].
  destruct (space_encoding_app chunk rest Hc) as (r & Hd & Hsp).
  exists r, (length chunk). repeat split; auto.
  - destruct Hc as [Hcne _]. destruct chunk; [congruence|simpl; lia].
  - rewrite length_app. lia.
  - rewrite skipn_app, Nat.sub_diag, skipn_all. exact Hr.
Qed.

(** What follows white space in a white string is white. *)
Lemma white_cancel (a b : gostring) : white a -> white (a ++ b) -> white b.
Proof.
  induction 1 as [|chunk rest Hc Hr IH]; intros Hab; [exact Hab|].
  apply IH. rewrite <- app_assoc in Hab.
  destruct (space_encoding_app chunk (rest ++ b) Hc) as (r & Hd & Hsp).
  assert (Hne : chunk ++ rest ++ b <> []).
  { destruct Hc as [Hcne _]. destruct chunk; [congruence|discriminate]. }
  destruct (white_uncons _ Hab Hne) as (r' & n & Hd' & _ & _ & Hw).
  rewrite Hd in Hd'. injection Hd' as _ <-.
  now rewrite skipn_app, Nat.sub_diag, skipn_all in Hw.
Qed.

Lemma TrimLeftFunc_white (s : gostring) :
  white s -> TrimLeftFunc s IsSpace = [].
Proof.
  intros Hw. unfold TrimLeftFunc, indexFunc.
  pose proof (indexFunc_loop_spec s (length s) 0) as H.
  destruct (indexFunc_loop (length s) s IsSpace false 0) as [j|];
    [|reflexivity].
  destruct H as (Hj & Hwj & Hsp); [lia|lia|constructor|].
  exfalso. rewrite <- (firstn_skipn j s) in Hw.
  apply white_cancel in Hw; [|assumption].
  assert (Hne : skipn j s <> []).
  { intros E. apply (f_equal (@length ascii)) in E.
    rewrite length_skipn in E. simpl in E. lia. }
  destruct (white_uncons _ Hw Hne) as (r & n & Hd & Hr & _).
  rewrite Hd in Hsp. simpl in Hsp. congruence.
Qed.

(** [TrimSpace] of white space is the empty string. *)
Lemma TrimSpace_white (s : gostring) : white s -> TrimSpace s = [].
Proof.
  induction s as [|c s IH]; intros Hw; [reflexivity|].
  rewrite TrimSpace_cons.
  destruct (N.leb_spec RuneSelf (b2n c)) as [G|L].
  - unfold TrimFunc. now rewrite TrimLeftFunc_white.
  - destruct (white_uncons _ Hw) as (r & n & Hd & Hr & _ & Hrest);
      [discriminate|].
    rewrite DecodeRuneInString_ascii in Hd by assumption.
    injection Hd as <- <-.
    rewrite asciiSpace_IsSpace in Hr by assumption. rewrite Hr.
    apply IH. exact Hrest.
Qed.

(* ------------------------------------------------------------------ *)
(** ** More on parsing a seed file *)

(** X13.  The SQL of a seed is stable: a file that holds the SQL of a
    seed that was parsed from a file gives, when it is parsed, a seed with
    that same SQL. *)
Theorem parseSeedFile_reparse
    (DB : Type) (filename filename' : gostring) (w w1 w' : World DB)
    (seed : Seed) :
  parseSeedFile filename w = (w1, inr seed) ->
  fs_ReadFile (fs w') filename' = inr (SQL seed) ->
  parseSeedFile filename' w'
  = (emit (ReadFileCall filename') w',
     inr (mkSeed (Base filename') (SQL seed))).
Proof.
  intros H H'. rewrite parseSeedFile_spec in H.
  destruct (fs_ReadFile (fs w) filename) as [err|content]; [discriminate|].
  injection H as _ <-. cbn [SQL] in *.
  rewrite parseSeedFile_spec, H'. now rewrite TrimSpace_twice.
Qed.

(** X14.  A file whose content neither begins nor ends with white space
    gives a seed whose SQL is the content, byte for byte. *)
Theorem parseSeedFile_trimmed_content
    (DB : Type) (filename content : gostring) (w : World DB) :
  fs_ReadFile (fs w) filename = inr content ->
  trimmed content ->
  parseSeedFile filename w
  = (emit (ReadFileCall filename) w, inr (mkSeed (Base filename) content)).
Proof.
  intros H Ht. rewrite parseSeedFile_spec, H. now rewrite TrimSpace_fixed.
Qed.

(** X15.  A file that holds white space only, an empty file for one, is
    not an error: it gives a seed whose SQL is the empty string. *)
Theorem parseSeedFile_white_content
    (DB : Type) (filename content : gostring) (w : World DB) :
  fs_ReadFile (fs w) filename = inr content ->
  white content ->
  parseSeedFile filename w
  = (emit (ReadFileCall filename) w, inr (mkSeed (Base filename) [])).
Proof.
  intros H Hw. rewrite parseSeedFile_spec, H. now rewrite TrimSpace_white.
Qed.

Lemma parseSeedFile_reparse_witness :
  let w := toy_world seeds_fs fresh_db in
  let w' := toy_world backup_fs fresh_db in
  (parseSeedFile (gs "seeds/001_users.sql") w
   = (emit (ReadFileCall (gs "seeds/001_users.sql")) w, inr users_seed)
   /\ fs_ReadFile (fs w') (gs "backup/users.sql") = inr (SQL users_seed))
  /\ parseSeedFile (gs "backup/users.sql") w'
     = (emit (ReadFileCall (gs "backup/users.sql")) w',
        inr (mkSeed (Base (gs "backup/users.sql")) (SQL users_seed))).
Proof.
  intros w w'.
  assert (H1 : parseSeedFile (gs "seeds/001_users.sql") w
               = (emit (ReadFileCall (gs "seeds/001_users.sql")) w,
                  inr users_seed)) by reflexivity.
  assert (H2 : fs_ReadFile (fs w') (gs "backup/users.sql")
               = inr (SQL users_seed)) by reflexivity.
  split; [now split|].
  exact (parseSeedFile_reparse ToyDB (gs "seeds/001_users.sql")
           (gs "backup/users.sql") w _ w' users_seed H1 H2).
Defined.

Lemma parseSeedFile_trimmed_content_witness :
  let w := toy_world broken_fs fresh_db in
  (fs_ReadFile (fs w) (gs "broken/a.sql") = inr (gs "SELECT 1;")
   /\ trimmed (gs "SELECT 1;"))
  /\ parseSeedFile (gs "broken/a.sql") w
     = (emit (ReadFileCall (gs "broken/a.sql")) w,
        inr (mkSeed (Base (gs "broken/a.sql")) (gs "SELECT 1;"))).
Proof.
  intros w.
  assert (H1 : fs_ReadFile (fs w) (gs "broken/a.sql") = inr (gs "SELECT 1;"))
    by reflexivity.
  assert (H2 : trimmed (gs "SELECT 1;")) by (right; split; reflexivity).
  split; [now split|].
  exact (parseSeedFile_trimmed_content ToyDB (gs "broken/a.sql")
           (gs "SELECT 1;") w H1 H2).
Defined.

Lemma parseSeedFile_white_content_witness :
  let w := toy_world docs_fs fresh_db in
  let content := bs [32; 10; 9; 13; 10] in
  (fs_ReadFile (fs w) (gs "docs/blank.sql") = inr content /\ white content)
  /\ parseSeedFile (gs "docs/blank.sql") w
     = (emit (ReadFileCall (gs "docs/blank.sql")) w,
        inr (mkSeed (Base (gs "docs/blank.sql")) [])).
Proof.
  intros w content.
  assert (H1 : fs_ReadFile (fs w) (gs "docs/blank.sql") = inr content)
    by reflexivity.
  assert (Hsp : forall n, asciiSpace (N.of_nat n) = true ->
                          (N.of_nat n < 128)%N ->
                          b2n (ascii_of_nat n) = N.of_nat n ->
                          space_encoding [ascii_of_nat n]).
  { intros n Ha Hn Hb. apply ascii_space_encoding; rewrite Hb; assumption. }
  assert (H2 : white content).
  { unfold content, bs. cbn [map].
    repeat (apply (white_cons (chunk := [_]));
            [apply Hsp; reflexivity|]).
    constructor. }
  split; [now split|].
  exact (parseSeedFile_white_content ToyDB (gs "docs/blank.sql") content w
           H1 H2).
Defined.

(* ------------------------------------------------------------------ *)
(** ** More on file names *)

Lemma Ext_loop_found (path : gostring) (k : nat) :
  k <= length path ->
  Forall (fun c => IsPathSeparator c = false /\ byte_eqb c "." = false)
    (skipn k path) ->
  Ext_loop path k = []
  \/ exists i,
       nth_error path i = Some "."%char
       /\ Ext_loop path k = skipn i path
       /\ Forall (fun c => IsPathSeparator c = false /\ byte_eqb c "." = false)
            (skipn (S i) path).
Proof.
  induction k as [|k IH]; intros Hk Hclean; [now left|].
  cbn [Ext_loop].
  destruct (nth_error path k) as [c|] eqn:E; [|now left].
  destruct (IsPathSeparator c) eqn:Es; [now left|].
  destruct (byte_eqb c ".") eqn:Ed.
  - right. exists k. apply byte_eqb_eq in Ed. subst c. now repeat split.
  - apply IH; [lia|].
    assert (Hsk : skipn k path = c :: skipn (S k) path).
    { rewrite (skipn_nth path k) by lia. f_equal.
      apply nth_error_nth with (d := zero) in E. exact E. }
    rewrite Hsk. now constructor.
Qed.

(** X16.  [Ext] returns the suffix of the path from its last dot, when
    no separator follows that dot, and the empty string otherwise: the
    extension is empty or begins with a dot, holds no other dot and no
    separator, and ends the path. *)
Theorem Ext_is_last_dot_suffix (path : gostring) :
  (forall stem suf,
      path = stem ++ "."%char :: suf ->
      Forall (fun c => IsPathSeparator c = false /\ byte_eqb c "." = false)
        suf ->
      Ext path = "."%char :: suf)
  /\ (Ext path = []
      \/ exists stem suf,
           path = stem ++ "."%char :: suf
           /\ Ext path = "."%char :: suf
           /\ Forall (fun c => IsPathSeparator c = false
                               /\ byte_eqb c "." = false) suf).
Proof.
  split.
  - intros stem suf -> Hsuf. unfold Ext. rewrite length_app. cbn [length].
    replace (length stem + S (length suf)) with (S (length stem + length suf))
      by lia.
    now apply Ext_loop_final_dot.
  - unfold Ext.
    destruct (Ext_loop_found path (length path)) as [E|(i & Hi & E & Hc)];
      [lia|rewrite skipn_all; constructor|now left|].
    right. exists (firstn i path), (skipn (S i) path).
    assert (Hlt : i < length path)
      by (apply nth_error_Some; congruence).
    assert (Hsk : skipn i path = "."%char :: skipn (S i) path).
    { rewrite (skipn_nth path i) by lia. f_equal.
      apply nth_error_nth with (d := zero) in Hi. exact Hi. }
    repeat split.
    + rewrite <- Hsk. symmetry. apply firstn_skipn.
    + now rewrite E.
    + exact Hc.
Qed.

Lemma last_element_start_spec (path : gostring) (k : nat) :
  k <= length path ->
  last_element_start path k <= k
  /\ forall i c,
       last_element_start path k <= i -> i < k ->
       nth_error path i = Some c -> IsPathSeparator c = false.
Proof.
  induction k as [|k IH]; intros Hk; [split; [simpl; lia|intros; lia]|].
  cbn [last_element_start].
  destruct (nth_error path k) as [c|] eqn:E.
  - destruct (IsPathSeparator c) eqn:Es.
    + split; [lia|intros; lia].
    + destruct IH as [H1 H2]; [lia|]. split; [lia|].
      intros i c' Hi1 Hi2 Hc'.
      destruct (Nat.eq_dec i k) as [->|Hik]; [congruence|].
      apply (H2 i c'); auto. lia.
  - apply nth_error_None in E. lia.
Qed.

(** [Base] never returns the empty string, and what it returns is the
    single separator or holds no separator. *)
Lemma Base_one_element (path : gostring) :
  Base path <> []
  /\ (Base path = gs "/"
      \/ Forall (fun c => IsPathSeparator c = false) (Base path)).
Proof.
  unfold Base. destruct path as [|c0 path0]; [split; [discriminate|right]|].
  { now repeat constructor. }
  set (path := c0 :: path0).
  set (path1 := strip_trailing_slashes path (length path)).
  set (st := last_element_start path1 (length path1)).
  destruct (last_element_start_spec path1 (length path1)) as [H1 H2]; [lia|].
  fold st in H1, H2.
  destruct (skipn st path1) as [|c p2] eqn:E.
  - split; [discriminate|now left].
  - split; [discriminate|right]. rewrite <- E.
    apply Forall_forall. intros x Hx.
    apply In_nth_error in Hx as [i Hi].
    rewrite nth_error_skipn in Hi.
    apply (H2 (st + i) x); [lia| |exact Hi].
    apply nth_error_Some. congruence.
Qed.

(** X17.  The name of a seed that was parsed from a file is never empty and
    never a path with directories in it: it is the single separator or
    holds no separator, whatever the path of the file. *)
Theorem parseSeedFile_name_is_one_element
    (DB : Type) (filename : gostring) (w w1 : World DB) (seed : Seed) :
  parseSeedFile filename w = (w1, inr seed) ->
  Name seed <> []
  /\ (Name seed = gs "/"
      \/ Forall (fun c => IsPathSeparator c = false) (Name seed)).
Proof.
  intros H. rewrite parseSeedFile_spec in H.
  destruct (fs_ReadFile (fs w) filename) as [err|content]; [discriminate|].
  injection H as _ <-. cbn [Name]. apply Base_one_element.
Qed.

Lemma parseSeedFile_name_is_one_element_witness :
  let w := toy_world seeds_fs fresh_db in
  parseSeedFile (gs "seeds/001_users.sql") w
  = (emit (ReadFileCall (gs "seeds/001_users.sql")) w, inr users_seed)
  /\ (Name users_seed <> []
      /\ (Name users_seed = gs "/"
          \/ Forall (fun c => IsPathSeparator c = false) (Name users_seed))).
Proof.
  intros w.
  assert (H : parseSeedFile (gs "seeds/001_users.sql") w
              = (emit (ReadFileCall (gs "seeds/001_users.sql")) w,
                 inr users_seed)) by reflexivity.
  split; [exact H|].
  exact (parseSeedFile_name_is_one_element ToyDB (gs "seeds/001_users.sql")
           w _ users_seed H).
Defined.

(* ------------------------------------------------------------------ *)
(** ** Splitting at a byte *)

Lemma has_prefix_single (c : ascii) (s : gostring) :
  has_prefix [c] s = match s with
                     | [] => false
                     | x :: _ => byte_eqb c x
                     end.
Proof. destruct s; simpl; [reflexivity|apply andb_true_r]. Qed.

Lemma byte_eqb_sym (a b : ascii) : byte_eqb a b = byte_eqb b a.
Proof. unfold byte_eqb. apply Ascii.eqb_sym. Qed.

(** [Index] for a one-byte separator finds its first occurrence. *)
Lemma strings_Index_single (c : ascii) (s : gostring) :
  match strings_Index s [c] with
  | None => pieces c s = [s]
  | Some m =>
      exists rest,
        skipn (m + 1) s = rest /\ pieces c s = firstn m s :: pieces c rest
        /\ length rest < length s
  end.
Proof.
  induction s as [|x s IH]; [reflexivity|].
  cbn [strings_Index]. rewrite has_prefix_single. cbn [pieces].
  rewrite (byte_eqb_sym c x).
  destruct (byte_eqb x c) eqn:E.
  - exists s. simpl. repeat split; lia.
  - destruct (strings_Index s [c]) as [m|]; simpl.
    + destruct IH as (rest & H1 & H2 & H3). exists rest.
      rewrite H2. repeat split; auto; lia.
    + now rewrite IH.
Qed.

Lemma length_pieces (c : ascii) (s : gostring) : 1 <= length (pieces c s).
Proof.
  induction s as [|x s IH]; simpl; [lia|].
  destruct (byte_eqb x c); simpl; [lia|].
  destruct (pieces c s); simpl in *; lia.
Qed.

Lemma Count_loop_single (c : ascii) (fuel : nat) (s : gostring) :
  length s <= fuel -> S (Count_loop fuel s [c]) = length (pieces c s).
Proof.
  revert s. induction fuel as [|fuel IH]; intros s Hf.
  - destruct s; [reflexivity|simpl in Hf; lia].
  - cbn [Count_loop]. pose proof (strings_Index_single c s) as H.
    destruct (strings_Index s [c]) as [m|].
    + destruct H as (rest & H1 & H2 & H3). simpl length. rewrite H1, H2.
      simpl. rewrite IH by lia. reflexivity.
    + now rewrite H.
Qed.

Lemma genSplit_loop_single (c : ascii) (n : nat) (s : gostring) :
  length (pieces c s) <= S n -> genSplit_loop n s [c] = pieces c s.
Proof.
  revert s. induction n as [|n IH]; intros s Hn.
  - cbn [genSplit_loop]. pose proof (strings_Index_single c s) as H.
    destruct (strings_Index s [c]) as [m|]; [|now rewrite H].
    destruct H as (rest & _ & H2 & _). rewrite H2 in Hn. simpl in Hn.
    pose proof (length_pieces c rest). lia.
  - cbn [genSplit_loop]. pose proof (strings_Index_single c s) as H.
    destruct (strings_Index s [c]) as [m|]; [|now rewrite H].
    destruct H as (rest & H1 & H2 & _). simpl length. rewrite H1, H2.
    f_equal. apply IH. rewrite H2 in Hn. simpl in Hn. lia.
Qed.

(** [strings.Split] at a one-byte separator gives the pieces between the
    separators. *)
Lemma strings_Split_single (c : ascii) (s : gostring) :
  strings_Split s [c] = pieces c s.
Proof.
  unfold strings_Split, strings_Count. apply genSplit_loop_single.
  rewrite <- (Count_loop_single c (length s) s); lia.
Qed.

Lemma pieces_no_sep (c : ascii) (s : gostring) :
  ~ In c s -> pieces c s = [s].
Proof.
  induction s as [|x s IH]; intros H; [reflexivity|].
  simpl. destruct (byte_eqb x c) eqn:E.
  - apply byte_eqb_eq in E. subst. elim H. now left.
  - rewrite IH; [reflexivity|]. intros Hin. apply H. now right.
Qed.

Lemma pieces_app (c : ascii) (a b : gostring) :
  ~ In c a -> pieces c (a ++ c :: b) = a :: pieces c b.
Proof.
  induction a as [|x a IH]; intros H; simpl.
  - now rewrite byte_eqb_refl.
  - destruct (byte_eqb x c) eqn:E.
    + apply byte_eqb_eq in E. subst. elim H. now left.
    + rewrite IH; [reflexivity|]. intros Hin. apply H. now right.
Qed.

Lemma length_pieces_count (c : ascii) (s : gostring) :
  length (pieces c s) = S (count_occ ascii_dec s c).
Proof.
  induction s as [|x s IH]; [reflexivity|].
  simpl. destruct (byte_eqb x c) eqn:E.
  - apply byte_eqb_eq in E. subst x.
    destruct (ascii_dec c c); [|congruence]. simpl. now rewrite IH.
  - destruct (ascii_dec x c) as [->|_].
    + rewrite byte_eqb_refl in E. discriminate.
    + destruct (pieces c s); simpl in *; lia.
Qed.

Lemma count_occ_one (c : ascii) (s : gostring) :
  count_occ ascii_dec s c = 1 <->
  exists a b, s = a ++ c :: b /\ ~ In c a /\ ~ In c b.
Proof.
  split.
  - induction s as [|x s IH]; simpl; [discriminate|].
    destruct (ascii_dec x c) as [->|Hx].
    + intros [= H]. exists [], s. repeat split; auto.
      now apply (count_occ_not_In ascii_dec).
    + intros H. destruct (IH H) as (a & b & -> & Ha & Hb).
      exists (x :: a), b. repeat split; auto.
      intros [E|Hin]; [contradiction|contradiction].
  - intros (a & b & -> & Ha & Hb).
    rewrite count_occ_app. simpl. destruct (ascii_dec c c); [|congruence].
    apply (count_occ_not_In ascii_dec) in Ha, Hb. lia.
Qed.

(** Two pieces: one separator, with a piece on each side of it. *)
Lemma pieces_two (c : ascii) (s : gostring) :
  length (pieces c s) = 2 <->
  exists a b, s = a ++ c :: b /\ ~ In c a /\ ~ In c b.
Proof.
  rewrite length_pieces_count, <- count_occ_one. lia.
Qed.

(* ------------------------------------------------------------------ *)
(** ** The fields of a model *)

Lemma contains_true_iff (slice : list gostring) (item : gostring) :
  contains slice item = true <-> In item slice.
Proof.
  induction slice as [|s rest IH]; simpl; [split; [discriminate|tauto]|].
  destruct (str_eqb s item) eqn:E.
  - apply str_eqb_eq in E. split; auto.
  - apply str_eqb_neq in E. rewrite IH. split; [auto|].
    intros [H|H]; [contradiction|assumption].
Qed.

(** X18.  [contains] tells whether the item is an element of the slice. *)
Theorem contains_In (slice : list gostring) (item : gostring) :
  contains slice item = true <-> In item slice.
Proof.
  exact (contains_true_iff slice item).
Qed.

Section ModelFieldsProperties.

Variable Field : Type.
Variable Field_Name : Field -> gostring.
Variable NewField : gostring -> gostring -> gostring -> bool -> bool -> Field.
Variable strings_ToLower : gostring -> gostring.

Lemma removeFields_loop_filter (fields : list Field)
    (fieldsToRemove : list gostring) (updatedFields : list Field) :
  removeFields_loop Field_Name fields fieldsToRemove updatedFields
  = updatedFields
    ++ filter (fun f => negb (contains fieldsToRemove (Field_Name f))) fields.
Proof.
  revert updatedFields. induction fields as [|f fields IH]; intros acc; simpl.
  - now rewrite app_nil_r.
  - destruct (contains fieldsToRemove (Field_Name f)); simpl.
    + apply IH.
    + rewrite IH. now rewrite <- app_assoc.
Qed.

(** X19.  [removeFieldsFromModel] keeps, in their order, the fields whose
    name is not in the list of names to remove, and no other: a field is in
    the result exactly when it was given and its name is not to be
    removed. *)
Theorem removeFieldsFromModel_keeps_the_others
    (fields : list Field) (fieldsToRemove : list gostring) :
  removeFieldsFromModel Field_Name fields fieldsToRemove
  = filter (fun f => negb (contains fieldsToRemove (Field_Name f))) fields
  /\ forall f,
       In f (removeFieldsFromModel Field_Name fields fieldsToRemove)
       <-> In f fields /\ ~ In (Field_Name f) fieldsToRemove.
Proof.
  unfold removeFieldsFromModel. rewrite removeFields_loop_filter. simpl.
  split; [reflexivity|]. intros f. rewrite filter_In, negb_true_iff.
  split; intros [H1 H2]; (split; [assumption|]).
  - intros Hin. apply contains_true_iff in Hin. congruence.
  - destruct (contains fieldsToRemove (Field_Name f)) eqn:E; [|reflexivity].
    apply contains_true_iff in E. contradiction.
Qed.

(** X20.  How removals compose: removing from fields followed by added
    fields, as an update does, is removing from each part; removing the
    same names again changes nothing; and removing no name keeps every
    field. *)
Theorem removeFieldsFromModel_composes
    (fields added : list Field) (fieldsToRemove : list gostring) :
  removeFieldsFromModel Field_Name (fields ++ added) fieldsToRemove
  = removeFieldsFromModel Field_Name fields fieldsToRemove
    ++ removeFieldsFromModel Field_Name added fieldsToRemove
  /\ removeFieldsFromModel Field_Name
       (removeFieldsFromModel Field_Name fields fieldsToRemove) fieldsToRemove
     = removeFieldsFromModel Field_Name fields fieldsToRemove
  /\ removeFieldsFromModel Field_Name fields [] = fields.
Proof.
  unfold removeFieldsFromModel. rewrite !removeFields_loop_filter. simpl.
  repeat split.
  - apply filter_app.
  - induction fields as [|f fields IH]; [reflexivity|].
    simpl. destruct (contains fieldsToRemove (Field_Name f)) eqn:E; simpl.
    + exact IH.
    + rewrite E. simpl. now rewrite IH.
  - induction fields as [|f fields IH]; [reflexivity|].
    simpl. now rewrite IH.
Qed.

Lemma Split_colon_two (field : gostring) :
  length (strings_Split field (gs ":")) = 2
  <-> count_occ ascii_dec field ":"%char = 1.
Proof.
  change (gs ":") with [":"%char].
  rewrite strings_Split_single, length_pieces_count. lia.
Qed.

(** The loop on fields that each hold one colon. *)
Lemma parseFields_loop_ok (fields rest : list gostring) (acc : list Field) :
  Forall (fun f => count_occ ascii_dec f ":"%char = 1) fields ->
  parseFields_loop NewField strings_ToLower (fields ++ rest) acc
  = parseFields_loop NewField strings_ToLower rest
      (acc ++ map (parsed_field NewField strings_ToLower) fields).
Proof.
  intros H. revert acc. induction H as [|f fields Hf _ IH]; intros acc.
  - simpl. now rewrite app_nil_r.
  - cbn [app parseFields_loop map].
    apply Split_colon_two in Hf. rewrite Hf. simpl negb. cbv iota.
    rewrite IH. f_equal. now rewrite <- app_assoc.
Qed.

(** X21.  [parseFields] succeeds exactly when every string holds one
    colon, no more and no less; it then returns one field for each string,
    in order. *)
Theorem parseFields_succeeds_iff (fields : list gostring) :
  (snd (parseFields NewField strings_ToLower fields) = None
   <-> Forall (fun f => count_occ ascii_dec f ":"%char = 1) fields)
  /\ (snd (parseFields NewField strings_ToLower fields) = None ->
      fst (parseFields NewField strings_ToLower fields)
      = map (parsed_field NewField strings_ToLower) fields).
Proof.
  assert (Hok : Forall (fun f => count_occ ascii_dec f ":"%char = 1) fields ->
                parseFields NewField strings_ToLower fields
                = (map (parsed_field NewField strings_ToLower) fields, None)).
  { intros H. unfold parseFields. rewrite <- (app_nil_r fields) at 1.
    now rewrite parseFields_loop_ok. }
  assert (Hinv : snd (parseFields NewField strings_ToLower fields) = None ->
                 Forall (fun f => count_occ ascii_dec f ":"%char = 1) fields).
  { clear Hok. unfold parseFields. generalize (@nil Field) as acc.
    induction fields as [|f fields IH]; intros acc; [constructor|].
    cbn [parseFields_loop].
    destruct (length (strings_Split f (gs ":")) =? 2) eqn:E; simpl negb;
      cbv iota; [|discriminate].
    intros H. constructor.
    - apply Split_colon_two. now apply Nat.eqb_eq.
    - eapply IH. exact H. }
  split; [split|].
  - exact Hinv.
  - intros H. now rewrite Hok.
  - intros H. now rewrite Hok by auto.
Qed.

(** X22.  [parseFields] stops at the first string that does not hold
    exactly one colon: it returns the error [invalid field format] with
    that string, and no field at all, the fields of the strings before it
    being dropped. *)
Theorem parseFields_first_malformed
    (pre post : list gostring) (bad : gostring) :
  Forall (fun f => count_occ ascii_dec f ":"%char = 1) pre ->
  count_occ ascii_dec bad ":"%char <> 1 ->
  parseFields NewField strings_ToLower (pre ++ bad :: post)
  = ([], Some (Errorf_text (gs "invalid field format: " ++ bad))).
Proof.
  intros Hpre Hbad. unfold parseFields. rewrite parseFields_loop_ok by exact Hpre.
  cbn [parseFields_loop].
  destruct (length (strings_Split bad (gs ":")) =? 2) eqn:E; [|reflexivity].
  apply Nat.eqb_eq, Split_colon_two in E. contradiction.
Qed.

(** X23.  Of strings [name:type] in which neither the name nor the type
    holds a colon, [parseFields] makes the fields of those names and types:
    the tag is [json:] with the lower-case name between double quotes, no
    field is nullable, and a field is primary exactly when its name is
    [ID], [Id] or [id].  The name and the type may be empty. *)
Theorem parseFields_name_type_pairs (specs : list (gostring * gostring)) :
  Forall (fun nt => ~ In ":"%char (fst nt) /\ ~ In ":"%char (snd nt)) specs ->
  parseFields NewField strings_ToLower
    (map (fun nt => fst nt ++ gs ":" ++ snd nt) specs)
  = (map (fun nt =>
            NewField (fst nt) (snd nt)
              (gs "json:" ++ ["034"%char] ++ strings_ToLower (fst nt)
               ++ ["034"%char])
              false
              (str_eqb (fst nt) (gs "ID") || str_eqb (fst nt) (gs "Id")
               || str_eqb (fst nt) (gs "id")))
       specs,
     None).
Proof.
  intros H. unfold parseFields.
  set (fields := map (fun nt => fst nt ++ gs ":" ++ snd nt) specs).
  assert (Hf : Forall (fun f => count_occ ascii_dec f ":"%char = 1) fields).
  { apply Forall_map. revert H. apply Forall_impl.
    intros [n t] [Hn Ht]. simpl in *.
    change (gs ":") with [":"%char]. simpl app.
    apply Nat.succ_inj.
    rewrite <- length_pieces_count, pieces_app, pieces_no_sep by assumption.
    reflexivity. }
  pose proof (parseFields_loop_ok fields [] [] Hf) as L.
  rewrite app_nil_r in L. rewrite L. cbn [parseFields_loop app].
  f_equal. unfold fields. rewrite map_map. apply map_ext_Forall.
  revert H. apply Forall_impl. intros [n t] [Hn Ht]. simpl in *.
  unfold parsed_field. change (gs ":") with [":"%char].
  rewrite strings_Split_single. simpl app.
  rewrite pieces_app, pieces_no_sep by assumption. reflexivity.
Qed.

End ModelFieldsProperties.

(** Fields as they are given on the command line. *)
Lemma parseFields_first_malformed_witness :
  (Forall (fun f => count_occ ascii_dec f ":"%char = 1) [gs "id:int"]
   /\ count_occ ascii_dec (gs "created:time:utc") ":"%char <> 1)
  /\ toy_parseFields ([gs "id:int"] ++ gs "created:time:utc" :: [gs "n:string"])
     = ([], Some (Errorf_text (gs "invalid field format: "
                               ++ gs "created:time:utc"))).
Proof.
  assert (H1 : Forall (fun f => count_occ ascii_dec f ":"%char = 1)
                 [gs "id:int"]) by (repeat constructor).
  assert (H2 : count_occ ascii_dec (gs "created:time:utc") ":"%char <> 1)
    by discriminate.
  split; [now split|].
  exact (parseFields_first_malformed ToyField mkToyField ascii_ToLower
           [gs "id:int"] [gs "n:string"] (gs "created:time:utc") H1 H2).
Defined.

Lemma parseFields_name_type_pairs_witness :
  let specs := [(gs "ID", gs "int"); (gs "Title", gs "string"); ([], [])] in
  Forall (fun nt => ~ In ":"%char (fst nt) /\ ~ In ":"%char (snd nt)) specs
  /\ toy_parseFields [gs "ID:int"; gs "Title:string"; gs ":"]
     = ([mkToyField (gs "ID") (gs "int")
           (gs "json:" ++ ["034"%char] ++ gs "id" ++ ["034"%char]) false true;
         mkToyField (gs "Title") (gs "string")
           (gs "json:" ++ ["034"%char] ++ gs "title" ++ ["034"%char]) false
           false;
         mkToyField [] [] (gs "json:" ++ ["034"%char; "034"%char]) false false],
        None).
Proof.
  intros specs.
  assert (H : Forall (fun nt => ~ In ":"%char (fst nt)
                                /\ ~ In ":"%char (snd nt)) specs).
  { repeat constructor; simpl; intros Hin;
      repeat (destruct Hin as [Hin|Hin]; [discriminate Hin|]); exact Hin. }
  split; [exact H|].
  exact (parseFields_name_type_pairs ToyField mkToyField ascii_ToLower specs
           H).
Defined.

(* ------------------------------------------------------------------ *)
(** ** The defaults of a configuration *)

(** One test of [setDefaults] at a time. *)
Ltac config_test :=
  match goal with
  | |- context [config.is_empty ?x] => is_var x; destruct x; cbn
  | |- context [(?x =? 0)%Z] => is_var x; destruct (Z.eqb_spec x 0); cbn
  end.

Ltac config_cases c :=
  destruct c as [[dr ho po us pw na ss] [sh sp] [le fi]];
  unfold config.setDefaults, config.complete; cbn.

Ltac config_complete c :=
  config_cases c;
  repeat split; repeat config_test; try discriminate; try assumption; lia.

Lemma setDefaults_fixed (c : config.Config) :
  config.complete c -> config.setDefaults c = c.
Proof.
  config_cases c. intros (H1 & H2 & H3 & H4 & H5 & H6 & H7).
  repeat (config_test; [contradiction|]). reflexivity.
Qed.

(** X24.  After [setDefaults] every field that has a default is set: no
    driver, host, SSL mode or logging level is empty and no port is zero. *)
Theorem setDefaults_complete (c : config.Config) :
  config.complete (config.setDefaults c).
Proof.
  config_complete c.
Qed.

(** X25.  [setDefaults] changes nothing of a configuration in which the
    fields that have a default are set, so that applying it twice is
    applying it once; and it never changes the user, the password, the
    database name or the log file. *)
Theorem setDefaults_keeps_what_is_set (c : config.Config) :
  (config.complete c -> config.setDefaults c = c)
  /\ config.setDefaults (config.setDefaults c) = config.setDefaults c
  /\ config.User (config.Database (config.setDefaults c))
     = config.User (config.Database c)
  /\ config.Password (config.Database (config.setDefaults c))
     = config.Password (config.Database c)
  /\ config.Name (config.Database (config.setDefaults c))
     = config.Name (config.Database c)
  /\ config.File (config.Logging (config.setDefaults c))
     = config.File (config.Logging c).
Proof.
  split; [apply setDefaults_fixed|].
  split; [apply setDefaults_fixed; config_complete c|].
  config_cases c. repeat split; repeat config_test; reflexivity.
Qed.
